(** * Distributed fire-extinguishing simulation: a shallow embedding

    The development follows the MPI program of the repository: every worker
    (rank) owns [chunk] rows of the surface plus two halo rows, keeps a
    replicated copy of the teams and the focal points, and runs the same
    outer loop.  Collective calls (halo exchange, reductions) are modelled
    on the list of all workers' states, indexed by rank.

    Single-precision values are IEEE-754 binary32 numbers, computed with the
    executable specification of [SpecFloat] (precision 24, exponent 128,
    round to nearest even).  C [int] values are carried as [Z]; signed
    overflow is undefined in C and no wrap-around is modelled. *)

From Stdlib Require Import ZArith Lia Bool List String.
From Stdlib Require Import Floats.SpecFloat.
From stdpp Require Import base tactics option list.

Local Open Scope Z_scope.

(** ** Single-precision arithmetic *)

Module F32.

Definition prec : Z := 24.
Definition emax : Z := 128.

Definition float : Type := spec_float.

Definition zero : float := S754_zero false.
Definition add : float -> float -> float := SFadd prec emax.
Definition sub : float -> float -> float := SFsub prec emax.
Definition mul : float -> float -> float := SFmul prec emax.
Definition div : float -> float -> float := SFdiv prec emax.
Definition sqrtf : float -> float := SFsqrt prec emax.
Definition fabs : float -> float := SFabs.
Definition ltb : float -> float -> bool := SFltb.
Definition leb : float -> float -> bool := SFleb.

(** Conversion of an [int] to [float] (rounded to nearest even). *)
Definition of_int (z : Z) : float := binary_normalize prec emax z 0 false.

(** [FLT_MAX] of <float.h>: the largest finite binary32 number. *)
Definition FLT_MAX : float := SFmax_float prec emax.

Definition is_nan (x : float) : bool :=
  match x with S754_nan => true | _ => false end.

(** [x] is a zero of sign [s], or a finite number of sign [s] with exponent
    at most [E] and magnitude below [2^M]. *)
Definition bounded (s : bool) (E M : Z) (x : float) : Prop :=
  x = S754_zero s \/
  exists m e, x = S754_finite s m e /\ e <= E /\ Z.pos (digits2_pos m) + e <= M.

End F32.

Abbreviation float := F32.float.

#[global] Instance float_inhabited : Inhabited float := populate F32.zero.

(** ** Constants of the program *)

Definition RADIUS_TYPE_1 : Z := 3.
Definition RADIUS_TYPE_2_3 : Z := 9.

(** [THRESHOLD] is the literal [0.1f], that is 13421773 * 2^-27. *)
Definition THRESHOLD : float := S754_finite false 13421773 (-27).

(** The team efficiency factor [(1 - 0.25)].  The source multiplies a [float]
    by this [double] and stores the product in a [float]; the double product
    of a 24-bit and a 2-bit significand is exact, so the stored value is the
    correctly rounded single-precision product by [0.75]. *)
Definition efficiency : float := S754_finite false 12582912 (-24).

Definition four : float := F32.of_int 4.

(** The range of the C type [int]. *)
Definition INT_MIN : Z := - 2 ^ 31.
Definition INT_MAX : Z := 2 ^ 31 - 1.
Definition int_range (z : Z) : Prop := INT_MIN <= z <= INT_MAX.

(** ** Data model *)

(** [Team]: position in global coordinates, movement type and target. *)
Record Team := mkTeam {
  team_x : Z;
  team_y : Z;
  team_type : Z;
  team_target : Z
}.

(** [FocalPoint]; [focal_active] is 0 (not yet activated), 1 (active) or
    2 (deactivated by a team). *)
Record FocalPoint := mkFocal {
  focal_x : Z;
  focal_y : Z;
  focal_start : Z;
  focal_heat : Z;
  focal_active : Z
}.

Definition Inactive : Z := 0.
Definition Active : Z := 1.
Definition Deactivated : Z := 2.

Definition set_active (a : Z) (f : FocalPoint) : FocalPoint :=
  mkFocal (focal_x f) (focal_y f) (focal_start f) (focal_heat f) a.

Definition set_target (tg : Z) (t : Team) : Team :=
  mkTeam (team_x t) (team_y t) (team_type t) tg.

Definition set_team_x (v : Z) (t : Team) : Team :=
  mkTeam v (team_y t) (team_type t) (team_target t).

Definition set_team_y (v : Z) (t : Team) : Team :=
  mkTeam (team_x t) v (team_type t) (team_target t).

(** Run parameters: the input dimensions, the iteration budget, the number
    of workers given by the runtime ([MPI_Comm_size]), and the number of
    focal points as read from the input, [int num_focal].  The array [focal]
    holds the entries the reader stored, [max(0, num_focal)] of them: every
    loop [for (i = 0; i < num_focal; i++)] visits all of them, and none when
    the count is negative; the stability test compares with the count
    itself. *)
Record Config := mkConfig {
  rows : Z;
  columns : Z;
  max_iter : Z;
  size : Z;
  num_focal : Z
}.

(** *** Partition *)

Definition global_rows (cfg : Config) : Z := rows cfg.
Definition chunk (cfg : Config) : Z := Z.quot (global_rows cfg) (size cfg).
Definition local_nrows (cfg : Config) : Z := chunk cfg + 2.
Definition g_start (cfg : Config) (rank : Z) : Z := rank * chunk cfg.
Definition g_end (cfg : Config) (rank : Z) : Z := g_start cfg rank + chunk cfg - 1.

(** *** Flattened buffers: [accessMat(arr, exp1, exp2)] is
    [arr[(exp1) * columns + (exp2)]]. *)

Abbreviation buffer := (list float).

Definition offset (cfg : Config) (i j : Z) : nat := Z.to_nat (i * columns cfg + j).

Definition accessMat (cfg : Config) (arr : buffer) (i j : Z) : float :=
  arr !!! offset cfg i j.

Definition setMat (cfg : Config) (arr : buffer) (i j : Z) (v : float) : buffer :=
  <[offset cfg i j := v]> arr.

(** *** Counted loops: [for (k = lo; k < hi; k++) s = body k s]. *)

Definition for_range {S : Type} (lo hi : Z) (body : Z -> S -> S) (s : S) : S :=
  fold_left (fun acc k => body k acc) (seqZ lo (hi - lo)) s.

Arguments for_range : simpl never.

(** ** The state of one worker *)

Record Proc := mkProc {
  surface : buffer;
  surfaceCopy : buffer;
  teams : list Team;
  focal : list FocalPoint;
  flag_stability : bool;
  first_activation : bool
}.

(** 3. Initialisation of the local surfaces (with halos) to [0.0]. *)
Definition init_buffer (cfg : Config) : buffer :=
  replicate (Z.to_nat (local_nrows cfg * columns cfg)) F32.zero.

Definition init_proc (cfg : Config) (ts : list Team) (fs : list FocalPoint) : Proc :=
  mkProc (init_buffer cfg) (init_buffer cfg) ts fs false false.

(** ** 4.1 Activation of focal points and local count of deactivated ones *)

Fixpoint activate (iter : Z) (fs : list FocalPoint) (first : bool) (count : Z)
  : list FocalPoint * bool * Z :=
  match fs with
  | [] => ([], first, count)
  | f :: rest =>
      let f' := if focal_start f =? iter then set_active Active f else f in
      let first' := if focal_start f =? iter then true else first in
      let count' := if focal_active f' =? Deactivated then count + 1 else count in
      let '(rest', first'', count'') := activate iter rest first' count' in
      (f' :: rest', first'', count'')
  end.

(** The number of focal points in state 2. *)
Definition count_deactivated (fs : list FocalPoint) : Z :=
  Z.of_nat (length (filter (fun f => focal_active f = Deactivated) fs)).

(** ** 4.2.1 Heat of the active focal points, written by the owner of the row *)

Definition update_heat_one (cfg : Config) (rank : Z) (surf : buffer) (f : FocalPoint)
  : buffer :=
  if negb (focal_active f =? Active) then surf
  else
    let gx := focal_x f in
    let gy := focal_y f in
    if (gx <? 0) || (gx >? global_rows cfg - 1) || (gy <? 0) || (gy >? columns cfg - 1)
    then surf
    else if (gx >=? g_start cfg rank) && (gx <=? g_end cfg rank)
    then
      let local_i := (gx - g_start cfg rank) + 1 in
      setMat cfg surf local_i gy (F32.of_int (focal_heat f))
    else surf.

Definition update_heat (cfg : Config) (rank : Z) (fs : list FocalPoint) (surf : buffer)
  : buffer :=
  fold_left (update_heat_one cfg rank) fs surf.

(** The positions of a local buffer that hold the owned rows [1..chunk]. *)
Definition owned_offset (cfg : Config) (n : nat) : Prop :=
  columns cfg <= Z.of_nat n < (chunk cfg + 1) * columns cfg.

(** ** 4.2.2 Copy of the surface into the ancillary structure *)

Definition copy_surface (cfg : Config) (surf copy : buffer) : buffer :=
  for_range 0 (local_nrows cfg) (fun i c =>
    for_range 0 (columns cfg) (fun j c =>
      setMat cfg c i j (accessMat cfg surf i j)) c) copy.

(** ** 4.2.3 Stencil update *)

Definition mean4 (cfg : Config) (copy : buffer) (i j : Z) : float :=
  F32.div
    (F32.add
       (F32.add
          (F32.add (accessMat cfg copy (i - 1) j) (accessMat cfg copy (i + 1) j))
          (accessMat cfg copy i (j - 1)))
       (accessMat cfg copy i (j + 1)))
    four.

Definition skip_row (cfg : Config) (rank i : Z) : bool :=
  let gx := g_start cfg rank + (i - 1) in
  (gx <? 1) || (gx >? global_rows cfg - 2).

(** The cells the stencil updates: owned rows [1..chunk] of the local slice
    whose global row is in [1 .. global_rows - 2], columns [1 .. columns - 2]. *)
Definition interior_cell (cfg : Config) (rank i j : Z) : Prop :=
  1 <= i <= chunk cfg /\
  1 <= g_start cfg rank + (i - 1) <= global_rows cfg - 2 /\
  1 <= j <= columns cfg - 2.

Definition stencil_row (cfg : Config) (rank : Z) (copy : buffer) (i : Z) (s : buffer)
  : buffer :=
  if skip_row cfg rank i then s
  else for_range 1 (columns cfg - 1) (fun j s =>
         setMat cfg s i j (mean4 cfg copy i j)) s.

Definition stencil (cfg : Config) (rank : Z) (surf copy : buffer) : buffer :=
  for_range 1 (chunk cfg + 1) (stencil_row cfg rank copy) surf.

(** ** 4.2.4 Local maximum residual *)

Definition cell_diff (cfg : Config) (surf copy : buffer) (i j : Z) : float :=
  F32.fabs (F32.sub (accessMat cfg surf i j) (accessMat cfg copy i j)).

Definition residual_row (cfg : Config) (rank : Z) (surf copy : buffer) (i : Z)
    (res : float) : float :=
  if skip_row cfg rank i then res
  else for_range 1 (columns cfg - 1) (fun j res =>
         let diff := cell_diff cfg surf copy i j in
         if F32.ltb res diff then diff else res) res.

Definition local_residual (cfg : Config) (rank : Z) (surf copy : buffer) : float :=
  for_range 1 (chunk cfg + 1) (residual_row cfg rank surf copy) F32.zero.

(** [r] is the maximum of the values in [D], or [0.0] when there is none
    above it: [r] is a number, no value of [D] exceeds it (every value of [D]
    that is a number is below or equal to it), and it is [0.0] or one of
    them. *)
Definition is_max_of (r : float) (D : float -> Prop) : Prop :=
  F32.is_nan r = false /\
  (forall d, D d ->
     F32.ltb r d = false /\ (F32.is_nan d = false -> F32.leb d r = true)) /\
  (r = F32.zero \/ D r).

(** ** 4.3 Team movement (computed redundantly by every worker) *)

Definition local_distance (f : FocalPoint) (t : Team) : float :=
  let dx := F32.of_int (focal_x f - team_x t) in
  let dy := F32.of_int (focal_y f - team_y t) in
  F32.sqrtf (F32.add (F32.mul dx dx) (F32.mul dy dy)).

(** 4.3.1 Scan of the focal points from index [j] on, with the running
    minimum [distance] and the running [target]. *)
Fixpoint nearest_focal (fs : list FocalPoint) (j : Z) (t : Team)
    (distance : float) (target : Z) : Z :=
  match fs with
  | [] => target
  | f :: rest =>
      if negb (focal_active f =? Active) then nearest_focal rest (j + 1) t distance target
      else
        let ld := local_distance f t in
        if F32.ltb ld distance then nearest_focal rest (j + 1) t ld j
        else nearest_focal rest (j + 1) t distance target
  end.

Definition choose_target (fs : list FocalPoint) (t : Team) : Z :=
  nearest_focal fs 0 t F32.FLT_MAX (-1).

(** 4.3.4 One step in the direction of the target, by team type. *)
Definition move_type1 (f : FocalPoint) (t : Team) : Team :=
  let t := if focal_x f <? team_x t then set_team_x (team_x t - 1) t else t in
  let t := if focal_x f >? team_x t then set_team_x (team_x t + 1) t else t in
  let t := if focal_y f <? team_y t then set_team_y (team_y t - 1) t else t in
  let t := if focal_y f >? team_y t then set_team_y (team_y t + 1) t else t in
  t.

Definition move_type2 (f : FocalPoint) (t : Team) : Team :=
  if focal_y f <? team_y t then set_team_y (team_y t - 1) t
  else if focal_y f >? team_y t then set_team_y (team_y t + 1) t
  else if focal_x f <? team_x t then set_team_x (team_x t - 1) t
  else if focal_x f >? team_x t then set_team_x (team_x t + 1) t
  else t.

Definition move_type3 (f : FocalPoint) (t : Team) : Team :=
  if focal_x f <? team_x t then set_team_x (team_x t - 1) t
  else if focal_x f >? team_x t then set_team_x (team_x t + 1) t
  else if focal_y f <? team_y t then set_team_y (team_y t - 1) t
  else if focal_y f >? team_y t then set_team_y (team_y t + 1) t
  else t.

(** The body of the loop 4.3 for one team.  The target is [-1] or an index
    found by the scan, so the lookup of [focal[target]] always succeeds. *)
Definition move_team (fs : list FocalPoint) (t : Team) : Team :=
  let target := choose_target fs t in
  let t := set_target target t in
  if target =? -1 then t
  else
    match fs !! Z.to_nat target with
    | None => t
    | Some f =>
        if team_type t =? 1 then move_type1 f t
        else if team_type t =? 2 then move_type2 f t
        else move_type3 f t
    end.

Definition move_teams (fs : list FocalPoint) (ts : list Team) : list Team :=
  map (move_team fs) ts.

(** ** 4.4 Team actions *)

(** 4.4.1 Deactivation of the target focal point when it is reached.  The
    target read here was written by 4.3.2 in the same iteration. *)
Definition deactivate_target (fs : list FocalPoint) (t : Team) : list FocalPoint :=
  let target := team_target t in
  if target =? -1 then fs
  else
    match fs !! Z.to_nat target with
    | None => fs
    | Some f =>
        if (focal_x f =? team_x t) && (focal_y f =? team_y t)
           && (focal_active f =? Active)
        then <[Z.to_nat target := set_active Deactivated f]> fs
        else fs
    end.

Definition radius_of (t : Team) : Z :=
  if team_type t =? 1 then RADIUS_TYPE_1 else RADIUS_TYPE_2_3.

Definition team_distance (t : Team) (i j : Z) : float :=
  let dx := F32.of_int (team_x t - i) in
  let dy := F32.of_int (team_y t - j) in
  F32.sqrtf (F32.add (F32.mul dx dx) (F32.mul dy dy)).

(** 4.4.2 Heat reduction in a circle around the team, on owned rows only. *)
Definition reduce_cell (cfg : Config) (rank : Z) (t : Team) (i j : Z) (s : buffer)
  : buffer :=
  if (i <? 1) || (i >=? rows cfg - 1) || (j <? 1) || (j >=? columns cfg - 1) then s
  else if F32.leb (team_distance t i j) (F32.of_int (radius_of t)) then
    if (i >=? g_start cfg rank) && (i <=? g_end cfg rank) then
      let local_i := (i - g_start cfg rank) + 1 in
      setMat cfg s local_i j (F32.mul (accessMat cfg s local_i j) efficiency)
    else s
  else s.

Definition reduce_heat (cfg : Config) (rank : Z) (t : Team) (surf : buffer) : buffer :=
  let radius := radius_of t in
  for_range (team_x t - radius) (team_x t + radius + 1) (fun i s =>
    for_range (team_y t - radius) (team_y t + radius + 1) (fun j s =>
      reduce_cell cfg rank t i j s) s) surf.

Definition team_action (cfg : Config) (rank : Z) (st : list FocalPoint * buffer)
    (t : Team) : list FocalPoint * buffer :=
  (deactivate_target (fst st) t, reduce_heat cfg rank t (snd st)).

Definition team_actions (cfg : Config) (rank : Z) (ts : list Team)
    (fs : list FocalPoint) (surf : buffer) : list FocalPoint * buffer :=
  fold_left (team_action cfg rank) ts (fs, surf).

(** ** Communication between workers

    The collective calls are blocking and every worker issues them in the
    same order, so their effect is a function of the states of all workers,
    listed by rank. *)

(** The [columns] values stored from [&accessMat(surf, i, 0)] on. *)
Definition row_at (cfg : Config) (surf : buffer) (i : Z) : list float :=
  take (Z.to_nat (columns cfg)) (drop (offset cfg i 0) surf).

(** Reception of a message of [columns] values at [&accessMat(surf, i, 0)]. *)
Definition recv_row (cfg : Config) (surf : buffer) (i : Z) (msg : list float) : buffer :=
  list_inserts (offset cfg i 0) (take (Z.to_nat (columns cfg)) msg) surf.

(** First [MPI_Sendrecv]: a worker of rank above 0 receives in its row 0
    what the worker above sends in its second call, its row [chunk] as it
    stands after that worker's own first call. *)
Fixpoint exchange_top (cfg : Config) (rank : Z) (from_above : list float)
    (surfs : list buffer) : list buffer :=
  match surfs with
  | [] => []
  | s :: rest =>
      let s1 := if rank >? 0 then recv_row cfg s 0 from_above else s in
      s1 :: exchange_top cfg (rank + 1) (row_at cfg s1 (chunk cfg)) rest
  end.

(** Second [MPI_Sendrecv]: a worker below the last rank receives in its row
    [chunk + 1] what the worker below sends in its first call, its row 1. *)
Definition exchange_bottom (cfg : Config) (orig tops : list buffer) : list buffer :=
  imap (fun r s1 =>
          if Z.of_nat r <? size cfg - 1
          then recv_row cfg s1 (chunk cfg + 1) (row_at cfg (orig !!! S r) 1)
          else s1) tops.

Definition halo_exchange (cfg : Config) (surfs : list buffer) : list buffer :=
  exchange_bottom cfg surfs (exchange_top cfg 0 [] surfs).

(** What the two calls leave in the buffer [s] of rank [r], when rows are
    disjoint ([1 <= chunk]): [above] and [below] are the neighbours' buffers
    before the exchange. *)
Definition exchange_result (cfg : Config) (r : nat) (s above below : buffer) : buffer :=
  let s1 := if Z.of_nat r >? 0
            then recv_row cfg s 0 (row_at cfg above (chunk cfg))
            else s in
  if Z.of_nat r <? size cfg - 1
  then recv_row cfg s1 (chunk cfg + 1) (row_at cfg below 1)
  else s1.

(** The positions of the halo row that faces the global border: row 0 on
    rank 0, row [chunk + 1] on the last rank. *)
Definition outward_halo (cfg : Config) (r n : nat) : Prop :=
  (r = O /\ Z.of_nat n < columns cfg) \/
  (Z.of_nat r = size cfg - 1 /\ (chunk cfg + 1) * columns cfg <= Z.of_nat n).

(** [MPI_Allreduce] with [MPI_MAX] on one [float] per worker. *)
Definition fmax (a b : float) : float := if F32.ltb a b then b else a.

Definition MPI_Allreduce_max (l : list float) : float :=
  match l with
  | [] => F32.zero
  | x :: rest => fold_left fmax rest x
  end.

(** [MPI_Allreduce] with [MPI_SUM] on one [int] per worker. *)
Definition MPI_Allreduce_sum (l : list Z) : Z := fold_left Z.add l 0.

(** ** One sub-step of heat propagation, on all workers *)

Definition set_surface (s : buffer) (p : Proc) : Proc :=
  mkProc s (surfaceCopy p) (teams p) (focal p) (flag_stability p) (first_activation p).

Definition heat_phase (cfg : Config) (procs : list Proc) : list Proc :=
  imap (fun r p => set_surface (update_heat cfg (Z.of_nat r) (focal p) (surface p)) p)
       procs.

Definition exchange_phase (cfg : Config) (procs : list Proc) : list Proc :=
  zip_with set_surface (halo_exchange cfg (map surface procs)) procs.

Definition stencil_proc (cfg : Config) (rank : Z) (p : Proc) : Proc :=
  let copy := copy_surface cfg (surface p) (surfaceCopy p) in
  mkProc (stencil cfg rank (surface p) copy) copy
         (teams p) (focal p) (flag_stability p) (first_activation p).

Definition stencil_phase (cfg : Config) (procs : list Proc) : list Proc :=
  imap (fun r p => stencil_proc cfg (Z.of_nat r) p) procs.

Definition residuals (cfg : Config) (procs : list Proc) : list float :=
  imap (fun r p => local_residual cfg (Z.of_nat r) (surface p) (surfaceCopy p)) procs.

Definition substep (cfg : Config) (procs : list Proc) : list Proc * float :=
  let procs := stencil_phase cfg (exchange_phase cfg (heat_phase cfg procs)) in
  (procs, MPI_Allreduce_max (residuals cfg procs)).

(** 4.2 Ten sub-steps; [global_residual] starts at [0.0f]. *)
Definition propagate (cfg : Config) (procs : list Proc) : list Proc * float :=
  for_range 0 10 (fun _ st => substep cfg (fst st)) (procs, F32.zero).

Arguments substep : simpl never.
Arguments propagate : simpl never.

(** ** One outer iteration, on all workers *)

Definition activate_proc (iter : Z) (p : Proc) : Proc * Z :=
  let '(fs, first, count) := activate iter (focal p) (first_activation p) 0 in
  (mkProc (surface p) (surfaceCopy p) (teams p) fs (flag_stability p) first, count).

Definition stability_test (num_deactivated nfocal : Z) (global_residual : float)
    (flag : bool) : bool :=
  if (num_deactivated =? nfocal) && F32.ltb global_residual THRESHOLD then true else flag.

(** The rest of the iteration after the sub-steps: stability test, 4.3, 4.4. *)
Definition finish_iteration (cfg : Config) (rank : Z) (ndeact : Z)
    (global_residual : float) (p : Proc) : Proc :=
  let flag :=
    stability_test ndeact (num_focal cfg) global_residual
                   (flag_stability p) in
  let ts := move_teams (focal p) (teams p) in
  let st := team_actions cfg rank ts (focal p) (surface p) in
  mkProc (snd st) (surfaceCopy p) ts (fst st) flag (first_activation p).

(** 4.1 on all workers, and the [MPI_Allreduce] (sum) of the local counts. *)
Definition activated (iter : Z) (procs : list Proc) : list Proc :=
  map fst (map (activate_proc iter) procs).

Definition num_deactivated (iter : Z) (procs : list Proc) : Z :=
  MPI_Allreduce_sum (map snd (map (activate_proc iter) procs)).

Definition iteration (cfg : Config) (iter : Z) (procs : list Proc) : list Proc :=
  let st := propagate cfg (activated iter procs) in
  imap (fun r p =>
          finish_iteration cfg (Z.of_nat r) (num_deactivated iter procs) (snd st) p)
       (fst st).

Arguments iteration : simpl never.

(** *** Relations between the states of the workers before and after a phase *)

Definition same_replicated (p q : Proc) : Prop :=
  teams q = teams p /\ focal q = focal p /\
  flag_stability q = flag_stability p /\ first_activation q = first_activation p.

Definition surface_frame (cfg : Config) (r : nat) (p q : Proc) : Prop :=
  length (surface q) = length (surface p) /\
  forall n, outward_halo cfg r n -> surface q !! n = surface p !! n.

Definition pointwise (R : nat -> Proc -> Proc -> Prop) (procs procs' : list Proc) : Prop :=
  length procs' = length procs /\
  forall r q, procs' !! r = Some q -> exists p, procs !! r = Some p /\ R r p q.

(** The replicated part of one outer iteration: activation, targeting and
    movement, deactivation. *)
Definition activate_focal (iter : Z) (fs : list FocalPoint) : list FocalPoint :=
  map (fun f => if focal_start f =? iter then set_active Active f else f) fs.

Definition replicated_step (iter : Z) (st : list Team * list FocalPoint)
  : list Team * list FocalPoint :=
  let fs := activate_focal iter (snd st) in
  let ts := move_teams fs (fst st) in
  (ts, fold_left deactivate_target ts fs).

(** A focal point [f'] is a later state of [f]: same data, and the state is
    unchanged or went from Active to Deactivated. *)
Definition advanced (f f' : FocalPoint) : Prop :=
  focal_x f' = focal_x f /\ focal_y f' = focal_y f /\
  focal_start f' = focal_start f /\ focal_heat f' = focal_heat f /\
  (focal_active f' = focal_active f \/
   (focal_active f = Active /\ focal_active f' = Deactivated)).

(** ** The simulation loop
    [for (iter = 0; iter < max_iter && !flag_stability; iter++)] *)

Definition running (cfg : Config) (iter : Z) (procs : list Proc) : bool :=
  (iter <? max_iter cfg) && forallb (fun p => negb (flag_stability p)) procs.

Fixpoint simulation_loop (fuel : nat) (cfg : Config) (iter : Z) (procs : list Proc)
  : Z * list Proc :=
  match fuel with
  | O => (iter, procs)
  | S fuel' =>
      if running cfg iter procs
      then simulation_loop fuel' cfg (iter + 1) (iteration cfg iter procs)
      else (iter, procs)
  end.

Definition init_procs (cfg : Config) (ts : list Team) (fs : list FocalPoint) : list Proc :=
  replicate (Z.to_nat (size cfg)) (init_proc cfg ts fs).

Definition simulate (cfg : Config) (ts : list Team) (fs : list FocalPoint)
  : Z * list Proc :=
  simulation_loop (Z.to_nat (max_iter cfg)) cfg 0 (init_procs cfg ts fs).

(** ** Allocation checks

    [malloc] is modelled by its result: [None] is [NULL].  A check returns
    what it writes or calls, in order, and whether the program goes on. *)

Inductive Event :=
  | Stderr (format : string) (args : list Z)
  | Exit (code : Z)
  | MPI_Abort (code : Z).

Inductive Control := Proceed | Terminated.

Definition EXIT_FAILURE : Z := 1.

(** 1.2.3 and 1.3.3: [if (teams == NULL) { fprintf(stderr, ...); exit(EXIT_FAILURE); }] *)
Definition check_teams (nteams : Z) (teams_ptr : option (list Team))
  : list Event * Control :=
  match teams_ptr with
  | None => ([Stderr "-- Error allocating: %d teams" [nteams]; Exit EXIT_FAILURE],
             Terminated)
  | Some _ => ([], Proceed)
  end.

(** 1.2.4 (configuration file): the test is on [focal]. *)
Definition check_focal_file (nfocal : Z) (focal_ptr : option (list FocalPoint))
  : list Event * Control :=
  match focal_ptr with
  | None => ([Stderr "-- Error allocating: %d focal points" [nfocal]; Exit EXIT_FAILURE],
             Terminated)
  | Some _ => ([], Proceed)
  end.

(** 1.3.4 (command line): after [focal = malloc(...)] the test is again
    [if (teams == NULL)]. *)
Definition check_focal_args (nfocal : Z) (teams_ptr : option (list Team))
    (focal_ptr : option (list FocalPoint)) : list Event * Control :=
  match teams_ptr with
  | None => ([Stderr "-- Error allocating: %d focal points" [nfocal]; Exit EXIT_FAILURE],
             Terminated)
  | Some _ => ([], Proceed)
  end.

(** 3. [if (surface == NULL || surfaceCopy == NULL) { fprintf(stderr, ...); }]
    and the program goes on to the initialisation loop. *)
Definition check_surfaces (surface_ptr surfaceCopy_ptr : option buffer)
  : list Event * Control :=
  match surface_ptr, surfaceCopy_ptr with
  | Some _, Some _ => ([], Proceed)
  | _, _ => ([Stderr "-- Error allocating: surface structures" []], Proceed)
  end.

(** The gathered surface on rank 0:
    [if (fullSurface == NULL) { fprintf(stderr, ...); MPI_Abort(..., EXIT_FAILURE); }] *)
Definition check_fullSurface (rank : Z) (fullSurface_ptr : option buffer)
  : list Event * Control :=
  if rank =? 0 then
    match fullSurface_ptr with
    | None => ([Stderr "-- Error allocating: fullSurface on rank 0" [];
                MPI_Abort EXIT_FAILURE], Terminated)
    | Some _ => ([], Proceed)
    end
  else ([], Proceed).

(** ** Ownership of global rows

    The test [gx >= g_start && gx <= g_end] of 4.2.1 and 4.4.2. *)

Definition owns (cfg : Config) (rank gx : Z) : Prop :=
  g_start cfg rank <= gx <= g_end cfg rank.

#[global] Instance proc_inhabited : Inhabited Proc :=
  populate (mkProc [] [] [] [] false false).

(** The surface seen as one grid: the value of the global cell [(gx, j)] in
    the slice of the worker that owns the row. *)
Definition owner (cfg : Config) (gx : Z) : nat := Z.to_nat (gx / chunk cfg).

Definition global_cell (cfg : Config) (procs : list Proc) (gx j : Z) : float :=
  accessMat cfg (surface (procs !!! owner cfg gx))
            (gx - g_start cfg (Z.of_nat (owner cfg gx)) + 1) j.

(** ** Distances to the target, on the grid *)

Definition chebyshev (f : FocalPoint) (t : Team) : Z :=
  Z.max (Z.abs (focal_x f - team_x t)) (Z.abs (focal_y f - team_y t)).

Definition manhattan (f : FocalPoint) (t : Team) : Z :=
  Z.abs (focal_x f - team_x t) + Z.abs (focal_y f - team_y t).

(** The step 4.3.4 alone, towards a given focal point. *)
Definition move_towards (f : FocalPoint) (t : Team) : Team :=
  if team_type t =? 1 then move_type1 f t
  else if team_type t =? 2 then move_type2 f t
  else move_type3 f t.

(** The number of steps a team needs to reach a focal point. *)
Definition steps_to (f : FocalPoint) (t : Team) : Z :=
  if team_type t =? 1 then chebyshev f t else manhattan f t.

(** ** Result gather and report *)

(** The send buffer of [MPI_Gather]: [chunk * columns] values from
    [&accessMat(surface, 1, 0)]. *)
Definition send_block (cfg : Config) (surf : buffer) : list float :=
  take (Z.to_nat (chunk cfg * columns cfg)) (drop (offset cfg 1 0) surf).

(** [MPI_Gather] at the root: the block of rank [r] is stored at
    [recvbuf + r * count]. *)
Fixpoint MPI_Gather (count : nat) (r : nat) (blocks : list (list float))
    (recvbuf : buffer) : buffer :=
  match blocks with
  | [] => recvbuf
  | b :: rest =>
      MPI_Gather count (S r) rest (list_inserts (r * count) (take count b) recvbuf)
  end.

(** [fullSurface] on rank 0 after the gather; [fullSurface0] is the buffer
    as [malloc] returned it, [global_rows * columns] values. *)
Definition gather (cfg : Config) (procs : list Proc) (fullSurface0 : buffer) : buffer :=
  MPI_Gather (Z.to_nat (chunk cfg * columns cfg)) 0
             (map (fun p => send_block cfg (surface p)) procs) fullSurface0.

(** 6.2 The values printed after the iteration count: the temperature at
    each focal point within the surface, in input order.  [surface_ptr] is
    the pointer [surface] at that place: the gathered surface on rank 0,
    [NULL] on the other ranks; [None] as a result is a read through [NULL]. *)
Definition out_of_surface (cfg : Config) (f : FocalPoint) : bool :=
  (focal_x f <? 0) || (focal_x f >? rows cfg - 1)
  || (focal_y f <? 0) || (focal_y f >? columns cfg - 1).

Fixpoint report (cfg : Config) (surface_ptr : option buffer) (fs : list FocalPoint)
  : option (list float) :=
  match fs with
  | [] => Some []
  | f :: rest =>
      if out_of_surface cfg f then report cfg surface_ptr rest
      else
        match surface_ptr with
        | None => None
        | Some surf =>
            match report cfg surface_ptr rest with
            | None => None
            | Some out => Some (accessMat cfg surf (focal_x f) (focal_y f) :: out)
            end
        end
  end.

(** The pointer [surface] of a worker when the results are printed. *)
Definition final_surface (cfg : Config) (rank : Z) (procs : list Proc)
    (fullSurface0 : buffer) : option buffer :=
  if rank =? 0 then Some (gather cfg procs fullSurface0) else None.

(** ** The surface as a whole

    [global_cell] reads the cell [(gx, j)] of the surface at the worker that
    owns row [gx]. *)

(** The stencil on the whole surface: the mean of the four axis neighbours
    of the cell [(gx, j)], each read at the worker that owns its row. *)
Definition global_mean4 (cfg : Config) (procs : list Proc) (gx j : Z) : float :=
  F32.div
    (F32.add
       (F32.add
          (F32.add (global_cell cfg procs (gx - 1) j) (global_cell cfg procs (gx + 1) j))
          (global_cell cfg procs gx (j - 1)))
       (global_cell cfg procs gx (j + 1)))
    four.

Definition interior (cfg : Config) (gx j : Z) : bool :=
  (1 <=? gx) && (gx <=? global_rows cfg - 2) && (1 <=? j) && (j <=? columns cfg - 2).

(** ** Cold slices *)

Definition all_zero (s : buffer) : Prop := Forall (fun x => x = F32.zero) s.

(** A worker with a cold slice, no focal point, the teams [ts] and the
    stability flag [flag]. *)
Definition cold (ts : list Team) (flag : bool) (p : Proc) : Prop :=
  all_zero (surface p) /\ all_zero (surfaceCopy p) /\ focal p = [] /\
  teams p = ts /\ flag_stability p = flag.

(** ** Cells written by the heat sources and by a team

    [heat_source]: position [n] of the slice of [rank] is the cell of the
    focal point [f], which is Active, within the surface and on a row the
    worker owns.  [in_reach]: the cell [(i, j)] of the surface is visited by
    the loops 4.4.2 of team [t] and passes their tests. *)

Definition heat_source (cfg : Config) (rank : Z) (f : FocalPoint) (n : nat) : Prop :=
  focal_active f = Active /\
  0 <= focal_x f <= global_rows cfg - 1 /\ 0 <= focal_y f <= columns cfg - 1 /\
  owns cfg rank (focal_x f) /\
  n = offset cfg (focal_x f - g_start cfg rank + 1) (focal_y f).

Definition in_reach (cfg : Config) (t : Team) (i j : Z) : Prop :=
  team_x t - radius_of t <= i <= team_x t + radius_of t /\
  team_y t - radius_of t <= j <= team_y t + radius_of t /\
  1 <= i < rows cfg - 1 /\ 1 <= j < columns cfg - 1 /\
  F32.leb (team_distance t i j) (F32.of_int (radius_of t)) = true.

(** ** Relations kept by the simulation loop *)

(** All workers hold the same stability flag. *)
Definition uniform_flags (procs : list Proc) : Prop :=
  forall (r1 r2 : nat) p1 p2, procs !! r1 = Some p1 -> procs !! r2 = Some p2 ->
    flag_stability p1 = flag_stability p2.

(** The data of a focal point that the simulation never writes. *)
Definition same_place (f f0 : FocalPoint) : Prop :=
  focal_x f = focal_x f0 /\ focal_y f = focal_y f0 /\
  focal_start f = focal_start f0 /\ focal_heat f = focal_heat f0.

(** The state of the focal points at the boundary before iteration [iter],
    in terms of the focal points [fs] read at the start. *)
Definition focal_invariant (fs : list FocalPoint) (iter : Z) (procs : list Proc) : Prop :=
  0 <= iter /\
  forall (r : nat) p, procs !! r = Some p ->
    length (focal p) = length fs /\
    forall (j : nat) f, focal p !! j = Some f ->
      exists f0, fs !! j = Some f0 /\ same_place f f0 /\
        (focal_active f = Inactive \/ focal_active f = Active \/
         focal_active f = Deactivated) /\
        (focal_active f = Inactive <-> ~ (0 <= focal_start f < iter)).

(** The teams at the boundary before iteration [iter], in terms of the
    teams [ts] read at the start. *)
Definition teams_invariant (ts : list Team) (iter : Z) (procs : list Proc) : Prop :=
  0 <= iter /\
  forall (r : nat) p, procs !! r = Some p ->
    length (teams p) = length ts /\
    forall (j : nat) t, teams p !! j = Some t ->
      exists t0, ts !! j = Some t0 /\ team_type t = team_type t0 /\
        Z.abs (team_x t - team_x t0) <= iter /\ Z.abs (team_y t - team_y t0) <= iter.

(** ** Reading the configuration from the command line (1.1, 1.3)

    [argv] is given by the integers [atoi] reads in its entries, entry 0 (the
    program name) included; the first argument is not [-f].  [malloc] is
    given by its outcome.  The field [target] of a team is not initialised:
    it has the value [uninit]. *)

Inductive Parse :=
  | Usage_error (msg : string)
  | Fatal_error (msg : string) (n : Z)
  | Null_write
  | Parsed (rows columns max_iter : Z) (num_teams : Z) (teams : list Team)
           (num_focal : Z) (focal : list FocalPoint).

Definition arg (argv : list Z) (k : Z) : Z := argv !!! Z.to_nat k.

Definition read_teams (uninit : Z) (argv : list Z) (nteams : Z) : list Team :=
  map (fun i => mkTeam (arg argv (5 + i * 3)) (arg argv (6 + i * 3))
                       (arg argv (7 + i * 3)) uninit)
      (seqZ 0 nteams).

Definition read_focal (argv : list Z) (focal_args nfocal : Z) : list FocalPoint :=
  map (fun i => mkFocal (arg argv (focal_args + i * 4 + 1))
                        (arg argv (focal_args + i * 4 + 2))
                        (arg argv (focal_args + i * 4 + 3))
                        (arg argv (focal_args + i * 4 + 4)) 0)
      (seqZ 0 nfocal).

Definition parse_args (uninit : Z) (teams_alloc focal_alloc : bool) (argv : list Z)
  : Parse :=
  let argc := Z.of_nat (length argv) in
  if argc <? 2 then Usage_error "-- Error in arguments: No arguments"
  else if argc <? 6 then
    Usage_error "-- Error in arguments: not enough arguments when reading configuration from the command line"
  else
    let nteams := arg argv 4 in
    if negb teams_alloc then Fatal_error "-- Error allocating: %d teams" nteams
    else if argc <? nteams * 3 + 5 then
      Fatal_error "-- Error in arguments: not enough arguments for %d teams" nteams
    else
      let i := Z.max 0 nteams in
      let focal_args := 5 + i * 3 in
      if argc <? focal_args + 1 then
        Usage_error "-- Error in arguments: not enough arguments for the number of focal points"
      else
        let nfocal := arg argv focal_args in
        if argc <? focal_args + 1 + nfocal * 4 then
          Fatal_error "-- Error in arguments: not enough arguments for %d focal points" nfocal
        else if negb focal_alloc && (0 <? nfocal) then Null_write
        else
          let i := Z.max 0 nfocal in
          if argc >? focal_args + i * 4 + 1 then
            Usage_error "-- Error in arguments: extra arguments at the end of the command line"
          else
            Parsed (arg argv 1) (arg argv 2) (arg argv 3)
                   nteams (read_teams uninit argv nteams)
                   nfocal (read_focal argv focal_args nfocal).

(** The command line of a configuration. *)
Definition team_args (t : Team) : list Z := [team_x t; team_y t; team_type t].
Definition focal_point_args (f : FocalPoint) : list Z :=
  [focal_x f; focal_y f; focal_start f; focal_heat f].

Definition command_line (prog rows columns max_iter : Z) (ts : list Team)
    (fs : list FocalPoint) : list Z :=
  [prog; rows; columns; max_iter; Z.of_nat (length ts)]
  ++ concat (map team_args ts)
  ++ [Z.of_nat (length fs)]
  ++ concat (map focal_point_args fs).

(** ** The stencil value, in the words of the specification

    The arithmetic mean of the four axis neighbours [up], [down], [left] and
    [right] of a cell: their sum divided by 4, each operation rounded to
    single precision, the sum taken in that order. *)

Definition arithmetic_mean (up down left right : float) : float :=
  F32.div (F32.add (F32.add (F32.add up down) left) right) (F32.of_int 4).

(** ** The distance of the targeting step, in the words of the specification

    [euclid2] is the square of the Euclidean distance between a focal point
    and a team, in exact integer arithmetic (distances compare as their
    squares).  [rounded_distance] is that distance evaluated in single
    precision: the coordinate differences converted to [float], squared,
    added, and the square root taken, each operation rounded. *)

Definition euclid2 (f : FocalPoint) (t : Team) : Z :=
  (focal_x f - team_x t) * (focal_x f - team_x t)
  + (focal_y f - team_y t) * (focal_y f - team_y t).

Definition rounded_sqrt_of_squares (dx dy : Z) : float :=
  F32.sqrtf (F32.add (F32.mul (F32.of_int dx) (F32.of_int dx))
                     (F32.mul (F32.of_int dy) (F32.of_int dy))).

Definition rounded_distance (f : FocalPoint) (t : Team) : float :=
  rounded_sqrt_of_squares (focal_x f - team_x t) (focal_y f - team_y t).

(** The largest coordinate difference for which the rounded distance is
    shown to order focal points as the Euclidean distance does. *)
Definition SMALL_GAP : Z := 127.

(** *** Exhaustive checks on small integers

    Boolean checks over a range of integers, evaluated once: single-precision
    values are compared as data. *)

Definition float_beq (a b : float) : bool :=
  match a, b with
  | S754_zero s, S754_zero s' => Bool.eqb s s'
  | S754_infinity s, S754_infinity s' => Bool.eqb s s'
  | S754_nan, S754_nan => true
  | S754_finite s m e, S754_finite s' m' e' => Bool.eqb s s' && Pos.eqb m m' && Z.eqb e e'
  | _, _ => false
  end.

(** [all_from P lo n]: [P] holds at [lo, lo + 1, ..., lo + n - 1]. *)
Definition check_step (P : Z -> bool) (st : Z * bool) : Z * bool :=
  (fst st + 1, if snd st then P (fst st) else false).

Definition all_from (P : Z -> bool) (lo : Z) (n : positive) : bool :=
  snd (Pos.iter (check_step P) (lo, true) n).

(** The sum of two squares is computed without rounding. *)
Definition sq_sum_exact (a b : Z) : bool :=
  float_beq (F32.add (F32.mul (F32.of_int a) (F32.of_int a))
                     (F32.mul (F32.of_int b) (F32.of_int b)))
            (F32.of_int (a * a + b * b)).

(** The sign of a difference does not show in its square. *)
Definition sq_sign_free (a : Z) : bool :=
  float_beq (F32.mul (F32.of_int (- a)) (F32.of_int (- a)))
            (F32.mul (F32.of_int a) (F32.of_int a)).

(** The rounded square root is strictly increasing on [0, 1, ..., n]: the
    state holds the next integer, the root of the one before, and the
    verdict so far. *)
Definition sqrt_step (st : Z * float * bool) : Z * float * bool :=
  let root := F32.sqrtf (F32.of_int (fst (fst st))) in
  (fst (fst st) + 1, root, if snd st then F32.ltb (snd (fst st)) root else false).

Definition sqrt_increasing_to (n : positive) : bool :=
  snd (Pos.iter sqrt_step (1, F32.sqrtf (F32.of_int 0), true) n).

(** ** Scenarios used to run the model *)

(** Two workers on a 4 x 4 surface (two owned rows each), with one focal
    point and with two. *)
Definition cfg_two_workers : Config := mkConfig 4 4 50 2 1.
Definition cfg_two_workers_two_focal : Config := mkConfig 4 4 50 2 2.

(** One worker on the 5 x 5 surface with one team, and one focal point or
    two. *)
Definition cfg_one_worker : Config := mkConfig 5 5 50 1 1.
Definition cfg_one_worker_two_focal : Config := mkConfig 5 5 50 1 2.
Definition teams_diagonal : list Team := [mkTeam 0 0 1 0].
Definition focal_center : list FocalPoint := [mkFocal 2 2 0 100 0].

(** A team standing on a cold focal point, and a second cold focal point. *)
Definition teams_on_focal : list Team := [mkTeam 1 1 1 0].
Definition focal_one_cold : list FocalPoint := [mkFocal 1 1 0 0 0].
Definition focal_two_cold : list FocalPoint := [mkFocal 1 1 0 0 0; mkFocal 2 2 0 0 0].

(** Two focal points at the same place, both starting at iteration 0, and a
    team standing there. *)
Definition focal_twins : list FocalPoint :=
  [mkFocal 2 2 0 0 Inactive; mkFocal 2 2 0 0 Inactive].
Definition teams_at_twins : list Team := [mkTeam 2 2 1 0].

(** A previous-generation slice of two workers on the 4 x 4 surface whose
    cell (2,1) holds 99 and has the neighbours 10 (up), 20 (down), 30 (left)
    and 60 (right). *)
Definition copy_sample : buffer :=
  map F32.of_int [0; 0; 0; 0;  0; 10; 0; 0;  30; 99; 60; 0;  0; 20; 0; 0].

(** A team at the origin; three Active focal points at distances 5, 5 and
    more than 6, and an Inactive one nearer than all of them. *)
Definition team_at_origin : Team := mkTeam 0 0 1 0.
Definition focal_around_origin : list FocalPoint :=
  [mkFocal 3 4 0 10 Active; mkFocal 0 5 0 10 Active; mkFocal 1 6 0 10 Active;
   mkFocal 1 1 0 10 Inactive].

(** * Properties *)

(** ** The constants, recomputed *)

Example THRESHOLD_is_a_tenth : F32.div (F32.of_int 1) (F32.of_int 10) = THRESHOLD.
Proof. vm_compute. reflexivity. Qed.

Example efficiency_is_three_quarters :
  F32.div (F32.of_int 3) (F32.of_int 4) = efficiency.
Proof. vm_compute. reflexivity. Qed.

(** ** Order on single-precision values *)

Module F32Order.

Lemma compare_cont_spec (a b : positive) :
  CompareSpec (a = b) (a < b)%positive (b < a)%positive (Pos.compare_cont Eq a b).
Proof. apply Pos.compare_spec. Qed.

Ltac cmp_cases :=
  repeat match goal with
  | |- context [(?a ?= ?b)%Z] => destruct (Z.compare_spec a b); subst
  | H : context [(?a ?= ?b)%Z] |- _ => destruct (Z.compare_spec a b); subst
  | |- context [Pos.compare_cont Eq ?a ?b] => destruct (compare_cont_spec a b); subst
  | H : context [Pos.compare_cont Eq ?a ?b] |- _ => destruct (compare_cont_spec a b); subst
  end; simpl in *; try congruence; try lia.

Lemma compare_lt_trans (x y z : float) :
  SFcompare x y = Some Lt -> SFcompare y z = Some Lt -> SFcompare x z = Some Lt.
Proof.
  destruct x as [sx|sx| |sx mx ex], y as [sy|sy| |sy my ey], z as [sz|sz| |sz mz ez];
    simpl; try discriminate; try (destruct sx; discriminate);
    try (destruct sy; discriminate); try (destruct sz; discriminate);
    try (destruct sx, sy, sz; simpl; congruence).
  destruct sx, sy, sz; simpl; try congruence; intros H1 H2; cmp_cases.
Qed.

Lemma ltb_trans (x y z : float) :
  F32.ltb x y = true -> F32.ltb y z = true -> F32.ltb x z = true.
Proof.
  unfold F32.ltb, SFltb. intros H1 H2.
  destruct (SFcompare x y) as [[]|] eqn:E1; try discriminate.
  destruct (SFcompare y z) as [[]|] eqn:E2; try discriminate.
  by rewrite (compare_lt_trans x y z).
Qed.

Lemma ltb_irrefl (x : float) : F32.ltb x x = false.
Proof.
  unfold F32.ltb, SFltb.
  destruct x as [s|s| |s m e]; simpl; try reflexivity; try (by destruct s).
  rewrite Z.compare_refl. change (Pos.compare_cont Eq m m) with (Pos.compare m m).
  rewrite Pos.compare_refl. by destruct s.
Qed.

Lemma ltb_not_nan (x y : float) :
  F32.ltb x y = true -> F32.is_nan x = false /\ F32.is_nan y = false.
Proof. unfold F32.ltb, SFltb. destruct x, y; simpl; try discriminate; auto. Qed.

Lemma ltb_false_leb (x y : float) :
  F32.is_nan x = false -> F32.is_nan y = false ->
  F32.ltb x y = false -> F32.leb y x = true.
Proof.
  unfold F32.ltb, F32.leb, SFltb, SFleb.
  destruct x as [sx|sx| |sx mx ex], y as [sy|sy| |sy my ey]; simpl;
    try discriminate; try reflexivity; try (destruct sx; try destruct sy; simpl; congruence);
    try (destruct sy; simpl; congruence).
  intros _ _.
  destruct sx, sy; simpl; try congruence; cmp_cases.
Qed.

Lemma ltb_leb_trans (x y z : float) :
  F32.ltb x y = true -> F32.leb y z = true -> F32.ltb x z = true.
Proof.
  unfold F32.ltb, F32.leb, SFltb, SFleb.
  destruct x as [sx|sx| |sx mx ex], y as [sy|sy| |sy my ey], z as [sz|sz| |sz mz ez];
    simpl; try discriminate; try (destruct sx; discriminate);
    try (destruct sy; discriminate); try (destruct sz; discriminate);
    try (destruct sx, sy, sz; simpl; congruence);
    try (destruct sx, sy; simpl; congruence);
    try (destruct sy, sz; simpl; congruence).
  destruct sx, sy, sz; simpl; try congruence; intros H1 H2; cmp_cases.
Qed.

End F32Order.

(** ** Magnitude of single-precision results *)

Module F32Bounds.

Lemma digits2_pos_bounds (m : positive) :
  2 ^ (Z.pos (digits2_pos m) - 1) <= Z.pos m < 2 ^ Z.pos (digits2_pos m).
Proof.
  induction m as [m IH|m IH|]; simpl digits2_pos.
  - rewrite Pos2Z.inj_succ. replace (Z.succ (Z.pos (digits2_pos m)) - 1)
      with (Z.succ (Z.pos (digits2_pos m) - 1)) by lia.
    rewrite !Z.pow_succ_r by lia. lia.
  - rewrite Pos2Z.inj_succ. replace (Z.succ (Z.pos (digits2_pos m)) - 1)
      with (Z.succ (Z.pos (digits2_pos m) - 1)) by lia.
    rewrite !Z.pow_succ_r by lia. lia.
  - simpl. lia.
Qed.

Lemma Zdigits2_nonneg (m : Z) : 0 <= Zdigits2 m.
Proof. destruct m; simpl; lia. Qed.

Lemma Zdigits2_lt_pow (m : Z) : 0 <= m -> m < 2 ^ Zdigits2 m.
Proof.
  destruct m as [|p|p]; simpl; intros H; [lia| |lia].
  apply digits2_pos_bounds.
Qed.

Lemma Zdigits2_le (m k : Z) : 0 <= m -> 0 <= k -> m < 2 ^ k -> Zdigits2 m <= k.
Proof.
  destruct m as [|p|p]; simpl; intros H Hk Hlt; [lia| |lia].
  pose proof (digits2_pos_bounds p) as [Hlo _].
  assert (2 ^ (Z.pos (digits2_pos p) - 1) < 2 ^ k) as Hp by lia.
  apply Z.pow_lt_mono_r_iff in Hp; lia.
Qed.

Lemma Zdigits2_mono (a b : Z) : 0 <= a <= b -> Zdigits2 a <= Zdigits2 b.
Proof.
  intros [Ha Hab]. apply Zdigits2_le; [lia|apply Zdigits2_nonneg|].
  pose proof (Zdigits2_lt_pow b). lia.
Qed.

Lemma Zdigits2_succ (m : Z) : 0 <= m -> Zdigits2 (m + 1) <= Zdigits2 m + 1.
Proof.
  intros H. pose proof (Zdigits2_nonneg m). pose proof (Zdigits2_lt_pow m H).
  apply Zdigits2_le; [lia..|]. rewrite Z.pow_add_r by lia. lia.
Qed.

Lemma Zdigits2_div_pow (m s : Z) :
  0 <= m -> 0 <= s -> 0 < m / 2 ^ s -> Zdigits2 (m / 2 ^ s) + s <= Zdigits2 m.
Proof.
  intros Hm Hs Hq.
  pose proof (Zdigits2_nonneg m) as Hd. pose proof (Zdigits2_lt_pow m Hm) as Hlt.
  assert (0 < 2 ^ s) as Hps by (apply Z.pow_pos_nonneg; lia).
  assert (2 ^ s <= m) as Hge.
  { destruct (Z_lt_ge_dec m (2 ^ s)) as [Hc|Hc]; [|lia].
    rewrite Z.div_small in Hq by lia. lia. }
  assert (s < Zdigits2 m) as Hsd.
  { assert (2 ^ s < 2 ^ Zdigits2 m) as Hp by lia.
    apply Z.pow_lt_mono_r_iff in Hp; lia. }
  assert (Zdigits2 (m / 2 ^ s) <= Zdigits2 m - s); [|lia].
  apply Zdigits2_le; [lia..|].
  apply Z.div_lt_upper_bound; [lia|].
  rewrite <- Z.pow_add_r by lia. replace (s + (Zdigits2 m - s)) with (Zdigits2 m) by lia.
  done.
Qed.

Lemma shr_1_m (mrs : shr_record) :
  0 <= shr_m mrs -> shr_m (shr_1 mrs) = shr_m mrs / 2.
Proof.
  destruct mrs as [m r s]. cbn [shr_m]. intros H. rewrite <- Z.div2_div.
  destruct m as [|[p|p|]|p]; try reflexivity. lia.
Qed.

Lemma iter_shr_1_m (p : positive) (mrs : shr_record) :
  0 <= shr_m mrs -> shr_m (SpecFloat.iter_pos shr_1 p mrs) = shr_m mrs / 2 ^ Z.pos p.
Proof.
  revert mrs. induction p as [p IH|p IH|]; intros mrs H; simpl SpecFloat.iter_pos.
  - assert (0 <= shr_m (shr_1 mrs)) as H1.
    { rewrite shr_1_m by done. apply Z.div_pos; lia. }
    assert (0 < 2 ^ Z.pos p) as Hp by (apply Z.pow_pos_nonneg; lia).
    assert (0 <= shr_m (SpecFloat.iter_pos shr_1 p (shr_1 mrs))) as H2.
    { rewrite IH by done. apply Z.div_pos; lia. }
    rewrite IH, IH, shr_1_m by done.
    rewrite !Z.div_div by lia. f_equal.
    replace (Z.pos p~1) with (1 + Z.pos p + Z.pos p) by lia.
    rewrite !Z.pow_add_r by lia. lia.
  - assert (0 < 2 ^ Z.pos p) as Hp by (apply Z.pow_pos_nonneg; lia).
    assert (0 <= shr_m (SpecFloat.iter_pos shr_1 p mrs)) as H2.
    { rewrite IH by done. apply Z.div_pos; lia. }
    rewrite IH, IH by done.
    rewrite !Z.div_div by lia. f_equal.
    replace (Z.pos p~0) with (Z.pos p + Z.pos p) by lia.
    rewrite !Z.pow_add_r by lia. lia.
  - rewrite shr_1_m by done. by rewrite Z.pow_1_r.
Qed.

Lemma shr_spec (mrs : shr_record) (e n : Z) :
  0 <= shr_m mrs ->
  shr_m (fst (shr mrs e n)) = shr_m mrs / 2 ^ Z.max 0 n /\
  snd (shr mrs e n) = e + Z.max 0 n.
Proof.
  intros H. destruct n as [|p|p]; simpl.
  - rewrite Z.div_1_r. lia.
  - rewrite iter_shr_1_m by done. split; [done|lia].
  - rewrite Z.div_1_r. lia.
Qed.

Lemma fexp_eq (x : Z) : fexp F32.prec F32.emax x = Z.max (x - 24) (-149).
Proof. reflexivity. Qed.

Lemma shr_record_of_loc_m (m : Z) (l : location) : shr_m (shr_record_of_loc m l) = m.
Proof. by destruct l as [|[]]. Qed.

Lemma shr_fexp_spec (m e : Z) (l : location) :
  0 <= m ->
  shr_m (fst (shr_fexp F32.prec F32.emax m e l))
    = m / 2 ^ (snd (shr_fexp F32.prec F32.emax m e l) - e) /\
  snd (shr_fexp F32.prec F32.emax m e l)
    = Z.max e (fexp F32.prec F32.emax (Zdigits2 m + e)).
Proof.
  intros H. unfold shr_fexp.
  destruct (shr_spec (shr_record_of_loc m l) e
              (fexp F32.prec F32.emax (Zdigits2 m + e) - e)) as [H1 H2].
  { by rewrite shr_record_of_loc_m. }
  rewrite H1, H2, shr_record_of_loc_m. split; [f_equal; f_equal|]; lia.
Qed.

Lemma round_nearest_even_bounds (m : Z) (l : location) :
  m <= round_nearest_even m l <= m + 1.
Proof. destruct l as [|[]]; simpl; try destruct (Z.even m); lia. Qed.


(** The result of [binary_round_aux] on a non-negative integer significand:
    no NaN, no overflow below the exponent bound, the sign it was given. *)
Lemma round_aux_bounded (sx : bool) (mx ex : Z) (lx : location) (E M : Z) :
  0 <= mx -> ex <= E -> Zdigits2 mx + ex <= M ->
  M - 23 <= E -> -149 <= E -> E <= 104 -> -149 <= M ->
  F32.bounded sx E (M + 1) (binary_round_aux F32.prec F32.emax sx mx ex lx).
Proof.
  intros Hmx Hex HM HME HE HE' HM'. unfold F32.bounded, binary_round_aux.
  destruct (shr_fexp_spec mx ex lx Hmx) as [Hm1 He1].
  destruct (shr_fexp F32.prec F32.emax mx ex lx) as [mrs1 e1]. cbn [fst snd] in Hm1, He1.
  set (m1 := round_nearest_even (shr_m mrs1) (loc_of_shr_record mrs1)).
  pose proof (Zdigits2_nonneg mx) as Hd.
  assert (He1' : ex <= e1) by lia.
  assert (H2pos : 0 < 2 ^ (e1 - ex)) by (apply Z.pow_pos_nonneg; lia).
  assert (Hq : 0 <= shr_m mrs1) by (rewrite Hm1; apply Z.div_pos; lia).
  assert (Hm1b : 0 <= m1 <= shr_m mrs1 + 1).
  { pose proof (round_nearest_even_bounds (shr_m mrs1) (loc_of_shr_record mrs1)).
    unfold m1. lia. }
  assert (Hmag1 : Zdigits2 m1 + e1 <= M + 1).
  { assert (Zdigits2 m1 <= Zdigits2 (shr_m mrs1) + 1) as Hd1.
    { etransitivity; [apply (Zdigits2_mono m1 (shr_m mrs1 + 1)); lia|].
      by apply Zdigits2_succ. }
    destruct (Z_lt_ge_dec 0 (shr_m mrs1)) as [Hpos|Hz].
    - rewrite Hm1 in Hpos, Hd1.
      pose proof (Zdigits2_div_pow mx (e1 - ex) Hmx ltac:(lia) Hpos). lia.
    - assert (shr_m mrs1 = 0) as E0 by lia. rewrite E0 in Hd1. simpl in Hd1.
      rewrite fexp_eq in He1. lia. }
  destruct (shr_fexp_spec m1 e1 loc_Exact ltac:(lia)) as [Hm2 He2].
  fold m1.
  destruct (shr_fexp F32.prec F32.emax m1 e1 loc_Exact) as [mrs2 e2].
  cbn [fst snd] in Hm2, He2. rewrite fexp_eq in He1, He2.
  assert (H2pos' : 0 < 2 ^ (e2 - e1)) by (apply Z.pow_pos_nonneg; lia).
  destruct (shr_m mrs2) as [|p|p] eqn:Ep.
  - by left.
  - right. assert (e2 <= E) as HeE by lia.
    change (F32.emax - F32.prec) with 104.
    rewrite (proj2 (Z.leb_le e2 104)) by lia.
    exists p, e2. split; [done|]. split; [done|].
    assert (0 < m1 / 2 ^ (e2 - e1)) as Hpos by lia.
    pose proof (Zdigits2_div_pow m1 (e2 - e1) ltac:(lia) ltac:(lia) Hpos) as Hdiv.
    rewrite <- Hm2 in Hdiv. simpl in Hdiv. lia.
  - assert (0 <= m1 / 2 ^ (e2 - e1)) by (apply Z.div_pos; lia). lia.
Qed.

Lemma digits2_pos_iter_xO (m d : positive) :
  Z.pos (digits2_pos (Pos.iter xO m d)) = Z.pos (digits2_pos m) + Z.pos d.
Proof.
  induction d as [|d IH] using Pos.peano_ind.
  - simpl. lia.
  - rewrite Pos.iter_succ. simpl digits2_pos. rewrite Pos2Z.inj_succ, IH. lia.
Qed.

(** [shl_align] keeps the magnitude and does not raise the exponent. *)
Lemma shl_align_spec (m : positive) (e e' : Z) :
  snd (shl_align m e e') <= e /\
  snd (shl_align m e e') = Z.min e e' /\
  Z.pos (digits2_pos (fst (shl_align m e e'))) + snd (shl_align m e e')
    = Z.pos (digits2_pos m) + e.
Proof.
  unfold shl_align. destruct (e' - e) as [|d|d] eqn:Ed; cbn [fst snd]; try lia.
  rewrite digits2_pos_iter_xO. lia.
Qed.

Lemma binary_round_bounded (s : bool) (m : positive) (e E M : Z) :
  e <= E -> Z.pos (digits2_pos m) + e <= M ->
  M - 23 <= E -> -149 <= E -> E <= 104 -> -149 <= M ->
  F32.bounded s E (M + 1) (binary_round F32.prec F32.emax s m e).
Proof.
  intros He HM HME HE HE' HM'. unfold binary_round.
  pose proof (shl_align_spec m e (fexp F32.prec F32.emax (Z.pos (digits2_pos m) + e)))
    as (H1 & _ & H3).
  destruct (shl_align m e _) as [mz ez]. cbn [fst snd] in H1, H3.
  apply round_aux_bounded; simpl Zdigits2; lia.
Qed.

(** Conversion of an integer below [2^k] in absolute value. *)
Lemma of_int_bounded (z k : Z) :
  0 <= k <= 100 -> Z.abs z < 2 ^ k ->
  F32.bounded (z <? 0) (Z.max 0 (k - 23)) (k + 1) (F32.of_int z).
Proof.
  intros Hk Hz. unfold F32.of_int, binary_normalize.
  destruct z as [|p|p].
  - by left.
  - change (Z.pos p <? 0) with false. apply binary_round_bounded; try lia.
    pose proof (Zdigits2_le (Z.pos p) k). simpl in *. lia.
  - change (Z.neg p <? 0) with true. apply binary_round_bounded; try lia.
    pose proof (Zdigits2_le (Z.pos p) k). simpl in *. lia.
Qed.

Lemma bounded_weaken (s : bool) (E M E' M' : Z) (x : float) :
  F32.bounded s E M x -> E <= E' -> M <= M' -> F32.bounded s E' M' x.
Proof.
  intros [->|(m & e & -> & He & Hm)] HE HM; [by left|].
  right. exists m, e. repeat split; lia.
Qed.

Lemma digits2_pos_mul (a b : positive) :
  Z.pos (digits2_pos (a * b)) <= Z.pos (digits2_pos a) + Z.pos (digits2_pos b).
Proof.
  pose proof (digits2_pos_bounds a) as [_ Ha].
  pose proof (digits2_pos_bounds b) as [_ Hb].
  apply (Zdigits2_le (Z.pos (a * b))); [lia..|].
  rewrite Pos2Z.inj_mul, Z.pow_add_r by lia. nia.
Qed.

(** A square: non-negative, with twice the exponent and magnitude. *)
Lemma mul_self_bounded (s : bool) (E M E' : Z) (x : float) :
  F32.bounded s E M x ->
  2 * E <= E' -> 2 * M - 23 <= E' -> -149 <= E' -> E' <= 104 -> -149 <= 2 * M ->
  F32.bounded false E' (2 * M + 1) (F32.mul x x).
Proof.
  intros [->|(m & e & -> & He & Hm)] H1 H2 H3 H4 H5.
  - left. simpl. by destruct s.
  - unfold F32.mul, SFmul. replace (xorb s s) with false by (by destruct s).
    apply round_aux_bounded; try lia.
    pose proof (digits2_pos_mul m m). simpl Zdigits2. lia.
Qed.

Lemma digits2_pos_add (a b : positive) (k : Z) :
  Z.pos (digits2_pos a) <= k -> Z.pos (digits2_pos b) <= k ->
  Z.pos (digits2_pos (a + b)) <= k + 1.
Proof.
  intros Ha Hb.
  pose proof (digits2_pos_bounds a) as [_ Ha'].
  pose proof (digits2_pos_bounds b) as [_ Hb'].
  assert (2 ^ Z.pos (digits2_pos a) <= 2 ^ k) by (apply Z.pow_le_mono_r; lia).
  assert (2 ^ Z.pos (digits2_pos b) <= 2 ^ k) by (apply Z.pow_le_mono_r; lia).
  apply (Zdigits2_le (Z.pos (a + b))); [lia..|].
  rewrite Pos2Z.inj_add, Z.pow_add_r by lia. lia.
Qed.

(** A sum of two non-negative numbers. *)
Lemma add_bounded (E M E' : Z) (x y : float) :
  F32.bounded false E M x -> F32.bounded false E M y ->
  E <= E' -> M - 22 <= E' -> -149 <= E' -> E' <= 104 -> -149 <= M ->
  F32.bounded false E' (M + 2) (F32.add x y).
Proof.
  intros Hx Hy H1 H2 H3 H4 H5.
  destruct Hx as [->|(mx & ex & -> & Hex & Hmx)], Hy as [->|(my & ey & -> & Hey & Hmy)].
  - by left.
  - right. exists my, ey. repeat split; lia.
  - right. exists mx, ex. repeat split; lia.
  - unfold F32.add, SFadd, binary_normalize. cbv zeta.
    pose proof (shl_align_spec mx ex (Z.min ex ey)) as (_ & Ea & Da).
    pose proof (shl_align_spec my ey (Z.min ex ey)) as (_ & Eb & Db).
    destruct (shl_align mx ex (Z.min ex ey)) as [a ea].
    destruct (shl_align my ey (Z.min ex ey)) as [b eb].
    cbn [fst snd cond_Zopp] in *.
    change (Z.pos a + Z.pos b) with (Z.pos (a + b)).
    replace (M + 2) with ((M + 1) + 1) by lia.
    apply binary_round_bounded; try lia.
    assert (Ha : Z.pos (digits2_pos a) <= M - Z.min ex ey) by lia.
    assert (Hb : Z.pos (digits2_pos b) <= M - Z.min ex ey) by lia.
    pose proof (digits2_pos_add a b (M - Z.min ex ey) Ha Hb). lia.
Qed.

Lemma sqrt_core_bounded (m : positive) (e : Z) :
  let r := SFsqrt_core_binary F32.prec F32.emax (Z.pos m) e in
  0 <= r.1.1 /\ r.1.2 <= e / 2 /\
  Zdigits2 r.1.1 + r.1.2 <= (Z.pos (digits2_pos m) + e + 1) / 2.
Proof.
  unfold SFsqrt_core_binary.
  pose proof (digits2_pos_bounds m) as [_ Hmd].
  change (Zdigits2 (Z.pos m)) with (Z.pos (digits2_pos m)).
  assert (Hd1 : 1 <= Z.pos (digits2_pos m)) by lia.
  generalize dependent (Z.pos (digits2_pos m)). intros d Hmd Hd1.
  set (e' := Z.min (fexp F32.prec F32.emax (Z.div2 (d + e + 1))) (Z.div2 e)).
  assert (He' : 2 * e' <= e).
  { unfold e'. rewrite Z.div2_div. pose proof (Z.mul_div_le e 2). lia. }
  assert (He'' : e' <= e / 2) by (unfold e'; rewrite Z.div2_div; lia).
  clearbody e'.
  set (s := e - 2 * e').
  assert (Hs : 0 <= s) by (unfold s; lia).
  set (m' := match s with Z.pos _ => Z.shiftl (Z.pos m) s | 0 => Z.pos m | Z.neg _ => 0 end).
  assert (Hm' : m' = Z.pos m * 2 ^ s).
  { unfold m'. destruct s as [|p|p] eqn:Es; [lia| |lia].
    apply Z.shiftl_mul_pow2. lia. }
  clearbody m'.
  pose proof (Z.sqrtrem_sqrt m') as Hq.
  destruct (Z.sqrtrem m') as [q r]. cbn [fst snd] in *. subst q.
  assert (H2s : 0 < 2 ^ s) by (apply Z.pow_pos_nonneg; lia).
  assert (Hm'pos : 0 <= m') by nia.
  pose proof (Z.sqrt_nonneg m') as Hq0.
  pose proof (Z.sqrt_spec m' Hm'pos) as [Hsq _].
  assert (Hs' : s = e - 2 * e') by reflexivity. clearbody s.
  set (h := (d + s + 1) / 2).
  assert (Hh : d + s <= 2 * h).
  { unfold h. pose proof (Z.mul_succ_div_gt (d + s + 1) 2). lia. }
  assert (Hh0 : 0 <= h) by lia.
  assert (Hhe : h + e' = (d + e + 1) / 2).
  { unfold h. rewrite Hs'.
    replace (d + (e - 2 * e') + 1) with ((d + e + 1) + (- e') * 2) by lia.
    rewrite Z.div_add by lia. lia. }
  clearbody h.
  assert (Hqh : Z.sqrt m' < 2 ^ h).
  { destruct (Z_lt_ge_dec (Z.sqrt m') (2 ^ h)) as [|Hge]; [done|exfalso].
    assert (Hp1 : 2 ^ (d + s) <= 2 ^ (2 * h)) by (apply Z.pow_le_mono_r; lia).
    assert (Hp2 : 2 ^ (2 * h) = 2 ^ h * 2 ^ h).
    { rewrite <- Z.pow_add_r by lia. f_equal. lia. }
    assert (Hp3 : m' < 2 ^ (d + s)).
    { rewrite Hm', Z.pow_add_r by lia. apply Z.mul_lt_mono_pos_r; lia. }
    assert (Hp4 : 2 ^ h * 2 ^ h <= Z.sqrt m' * Z.sqrt m').
    { apply Z.mul_le_mono_nonneg; lia. }
    lia. }
  pose proof (Zdigits2_le (Z.sqrt m') h Hq0 Hh0 Hqh).
  repeat split; lia.
Qed.

Lemma sqrt_bounded (E M E' M' : Z) (x : float) :
  F32.bounded false E M x ->
  E / 2 <= E' -> (M + 1) / 2 <= M' -> M' - 23 <= E' ->
  -149 <= E' -> E' <= 104 -> -149 <= M' ->
  F32.bounded false E' (M' + 1) (F32.sqrtf x).
Proof.
  intros [->|(m & e & -> & He & Hm)] H1 H2 H3 H4 H5 H6; [by left|].
  unfold F32.sqrtf, SFsqrt.
  pose proof (sqrt_core_bounded m e) as (Hq & He' & Hd).
  destruct (SFsqrt_core_binary F32.prec F32.emax (Z.pos m) e) as [[mz ez] lz].
  cbn [fst snd] in *.
  assert (e / 2 <= E / 2) by (apply Z.div_le_mono; lia).
  assert ((Z.pos (digits2_pos m) + e + 1) / 2 <= (M + 1) / 2)
    by (apply Z.div_le_mono; lia).
  apply round_aux_bounded; lia.
Qed.

Lemma FLT_MAX_eq : F32.FLT_MAX = S754_finite false 16777215 104.
Proof. vm_compute. reflexivity. Qed.

(** A bounded number is below [FLT_MAX]. *)
Lemma bounded_lt_FLT_MAX (s : bool) (E M : Z) (x : float) :
  F32.bounded s E M x -> E <= 103 -> F32.ltb x F32.FLT_MAX = true.
Proof.
  rewrite FLT_MAX_eq. unfold F32.ltb, SFltb.
  intros [->|(m & e & -> & He & _)] HE; [done|].
  cbn [SFcompare]. destruct s; [done|].
  destruct (Z.compare_spec e 104); try lia; done.
Qed.

(** The distance the program computes from coordinate differences that are
    values of type [int] is below [FLT_MAX] (and so is a number). *)
Lemma distance_lt_FLT_MAX (dx dy : Z) :
  int_range dx -> int_range dy ->
  F32.ltb (F32.sqrtf (F32.add (F32.mul (F32.of_int dx) (F32.of_int dx))
                              (F32.mul (F32.of_int dy) (F32.of_int dy))))
          F32.FLT_MAX = true.
Proof.
  unfold int_range, INT_MIN, INT_MAX. intros Hx Hy.
  assert (Hx' : Z.abs dx < 2 ^ 32) by lia.
  assert (Hy' : Z.abs dy < 2 ^ 32) by lia.
  pose proof (of_int_bounded dx 32 ltac:(lia) Hx') as Bx.
  pose proof (of_int_bounded dy 32 ltac:(lia) Hy') as By.
  change (Z.max 0 (32 - 23)) with 9 in Bx, By. change (32 + 1) with 33 in Bx, By.
  pose proof (mul_self_bounded _ 9 33 43 _ Bx) as Bxx.
  pose proof (mul_self_bounded _ 9 33 43 _ By) as Byy.
  specialize (Bxx ltac:(lia) ltac:(lia) ltac:(lia) ltac:(lia) ltac:(lia)).
  specialize (Byy ltac:(lia) ltac:(lia) ltac:(lia) ltac:(lia) ltac:(lia)).
  change (2 * 33 + 1) with 67 in Bxx, Byy.
  pose proof (add_bounded 43 67 45 _ _ Bxx Byy
                ltac:(lia) ltac:(lia) ltac:(lia) ltac:(lia) ltac:(lia)) as Bs.
  change (67 + 2) with 69 in Bs.
  pose proof (sqrt_bounded 45 69 22 35 _ Bs) as Br.
  assert (45 / 2 <= 22) as H1 by (by vm_compute).
  assert ((69 + 1) / 2 <= 35) as H2 by (by vm_compute).
  specialize (Br H1 H2 ltac:(lia) ltac:(lia) ltac:(lia) ltac:(lia)).
  apply (bounded_lt_FLT_MAX _ _ _ _ Br). lia.
Qed.

End F32Bounds.

(** ** Counted loops *)

Section ForRange.
Context {S : Type}.
Implicit Types (body : Z -> S -> S) (s : S).

Lemma for_range_empty lo hi body s : hi <= lo -> for_range lo hi body s = s.
Proof. intros H. unfold for_range. by rewrite seqZ_nil by lia. Qed.

Lemma for_range_snoc lo hi body s :
  lo <= hi -> for_range lo (hi + 1) body s = body hi (for_range lo hi body s).
Proof.
  intros H. unfold for_range.
  replace (hi + 1 - lo) with ((hi - lo) + 1) by lia.
  rewrite seqZ_app by lia. rewrite fold_left_app.
  replace (lo + (hi - lo)) with hi by lia.
  rewrite (seqZ_cons hi 1) by lia. by rewrite seqZ_nil by lia.
Qed.

Lemma for_range_split lo mid hi body s :
  lo <= mid <= hi ->
  for_range lo hi body s = for_range mid hi body (for_range lo mid body s).
Proof.
  intros H. unfold for_range.
  replace (hi - lo) with ((mid - lo) + (hi - mid)) by lia.
  rewrite seqZ_app by lia. rewrite fold_left_app.
  by replace (lo + (mid - lo)) with mid by lia.
Qed.

Lemma for_range_invariant (P : Z -> S -> Prop) lo hi body s :
  lo <= hi -> P lo s ->
  (forall k s', lo <= k < hi -> P k s' -> P (k + 1) (body k s')) ->
  P hi (for_range lo hi body s).
Proof.
  intros Hle H0 Hstep.
  assert (Hn : forall n : nat, Z.of_nat n <= hi - lo ->
            P (lo + Z.of_nat n) (for_range lo (lo + Z.of_nat n) body s)).
  { induction n as [|n IH]; intros Hb.
    - rewrite Z.add_0_r. by rewrite for_range_empty by lia.
    - replace (lo + Z.of_nat (Datatypes.S n)) with ((lo + Z.of_nat n) + 1) by lia.
      rewrite for_range_snoc by lia. apply Hstep; [lia|]. apply IH. lia. }
  specialize (Hn (Z.to_nat (hi - lo))).
  replace (lo + Z.of_nat (Z.to_nat (hi - lo))) with hi in Hn by lia.
  apply Hn. lia.
Qed.

Lemma for_range_preserves (Q : S -> Prop) lo hi body s :
  Q s -> (forall k s', lo <= k < hi -> Q s' -> Q (body k s')) ->
  Q (for_range lo hi body s).
Proof.
  intros H0 Hstep. destruct (Z_le_gt_dec lo hi) as [Hle|Hgt].
  - apply (for_range_invariant (fun _ => Q)); auto.
  - by rewrite for_range_empty by lia.
Qed.

End ForRange.

(** ** Flattened buffers *)

Section Buffers.
Variable cfg : Config.

Lemma setMat_length (arr : buffer) i j v : length (setMat cfg arr i j v) = length arr.
Proof. apply length_insert. Qed.

Lemma lookup_total_eq (a b : buffer) (n : nat) : a !! n = b !! n -> a !!! n = b !!! n.
Proof. intros H. by rewrite !list_lookup_total_alt, H. Qed.

(** Distinct cells of the local slice have distinct offsets. *)
Lemma offset_inj i j i' j' :
  0 <= i -> 0 <= i' -> 0 <= j < columns cfg -> 0 <= j' < columns cfg ->
  offset cfg i j = offset cfg i' j' -> i = i' /\ j = j'.
Proof.
  unfold offset. intros Hi Hi' Hj Hj' H.
  assert (i * columns cfg + j = i' * columns cfg + j') as E by nia.
  assert (i = i') by nia. split; [done|]. subst. lia.
Qed.

Lemma offset_lt_length (arr : buffer) i j :
  length arr = Z.to_nat (local_nrows cfg * columns cfg) ->
  0 <= i < local_nrows cfg -> 0 <= j < columns cfg ->
  (offset cfg i j < length arr)%nat.
Proof. unfold offset. intros -> Hi Hj. nia. Qed.

(** A row of writes [arr[i][j] = val j] for [lo <= j < hi]. *)
Lemma row_writes_length (arr : buffer) i lo hi (val : Z -> float) :
  length (for_range lo hi (fun j s => setMat cfg s i j (val j)) arr) = length arr.
Proof.
  apply (for_range_preserves (fun s : buffer => length s = length arr)); [done|].
  intros k s' _ H. by rewrite setMat_length.
Qed.

Lemma row_writes_miss (arr : buffer) i lo hi (val : Z -> float) (n : nat) :
  (forall j, lo <= j < hi -> n <> offset cfg i j) ->
  for_range lo hi (fun j s => setMat cfg s i j (val j)) arr !! n = arr !! n.
Proof.
  intros Hn.
  apply (for_range_preserves (fun s : buffer => s !! n = arr !! n)); [done|].
  intros k s' Hk H. unfold setMat. rewrite list_lookup_insert_ne; [done|].
  intros E. by apply (Hn k).
Qed.

Lemma row_writes_hit (arr : buffer) i lo hi (val : Z -> float) j :
  0 <= i -> 0 <= lo -> hi <= columns cfg -> lo <= j < hi ->
  (offset cfg i j < length arr)%nat ->
  for_range lo hi (fun j s => setMat cfg s i j (val j)) arr !! offset cfg i j
  = Some (val j).
Proof.
  intros Hi Hlo Hhi Hj Hlen.
  rewrite (for_range_split lo (j + 1) hi) by lia.
  rewrite row_writes_miss.
  - rewrite for_range_snoc by lia. unfold setMat at 1.
    apply list_lookup_insert_eq. by rewrite row_writes_length.
  - intros j' Hj' E. apply offset_inj in E; lia.
Qed.

End Buffers.

(** ** The stencil update *)

Section Stencil.
Variables (cfg : Config) (rank : Z) (copy : buffer).

Lemma skip_row_false i :
  skip_row cfg rank i = false <->
  1 <= g_start cfg rank + (i - 1) <= global_rows cfg - 2.
Proof. unfold skip_row. rewrite orb_false_iff. lia. Qed.

Lemma stencil_row_length i (s : buffer) : length (stencil_row cfg rank copy i s) = length s.
Proof. unfold stencil_row. destruct (skip_row _ _ _); [done|]. apply row_writes_length. Qed.

Lemma stencil_row_miss i (s : buffer) (n : nat) :
  (forall j, skip_row cfg rank i = false -> 1 <= j < columns cfg - 1 ->
             n <> offset cfg i j) ->
  stencil_row cfg rank copy i s !! n = s !! n.
Proof.
  intros H. unfold stencil_row. destruct (skip_row _ _ _) eqn:E; [done|].
  apply row_writes_miss. auto.
Qed.

Lemma stencil_row_hit i j (s : buffer) :
  0 <= i -> skip_row cfg rank i = false -> 1 <= j < columns cfg - 1 ->
  (offset cfg i j < length s)%nat ->
  stencil_row cfg rank copy i s !! offset cfg i j = Some (mean4 cfg copy i j).
Proof.
  intros Hi Hs Hj Hlen. unfold stencil_row. rewrite Hs.
  by apply (row_writes_hit cfg s i 1 (columns cfg - 1)
              (fun j => mean4 cfg copy i j)); try lia.
Qed.

Lemma stencil_rows_length lo hi (s : buffer) :
  length (for_range lo hi (stencil_row cfg rank copy) s) = length s.
Proof.
  apply (for_range_preserves (fun s' : buffer => length s' = length s)); [done|].
  intros k s' _ H. by rewrite stencil_row_length.
Qed.

Lemma stencil_rows_miss lo hi (s : buffer) (n : nat) :
  (forall i j, lo <= i < hi -> skip_row cfg rank i = false ->
               1 <= j < columns cfg - 1 -> n <> offset cfg i j) ->
  for_range lo hi (stencil_row cfg rank copy) s !! n = s !! n.
Proof.
  intros H.
  apply (for_range_preserves (fun s' : buffer => s' !! n = s !! n)); [done|].
  intros k s' Hk E. rewrite stencil_row_miss; [done|]. intros j Hs Hj. by apply H.
Qed.

Lemma stencil_length (surf : buffer) : length (stencil cfg rank surf copy) = length surf.
Proof. apply stencil_rows_length. Qed.

Lemma stencil_miss (surf : buffer) (n : nat) :
  (forall i j, interior_cell cfg rank i j -> n <> offset cfg i j) ->
  stencil cfg rank surf copy !! n = surf !! n.
Proof.
  intros H. apply stencil_rows_miss. intros i j Hi Hs Hj. apply H.
  apply skip_row_false in Hs. unfold interior_cell. lia.
Qed.

Lemma stencil_hit (surf : buffer) i j :
  length surf = Z.to_nat (local_nrows cfg * columns cfg) ->
  interior_cell cfg rank i j ->
  stencil cfg rank surf copy !! offset cfg i j = Some (mean4 cfg copy i j).
Proof.
  intros Hlen (Hi & Hg & Hj). unfold stencil.
  rewrite (for_range_split 1 (i + 1) (chunk cfg + 1)) by lia.
  rewrite stencil_rows_miss.
  - rewrite for_range_snoc by lia. apply stencil_row_hit; try lia.
    + by apply skip_row_false.
    + rewrite stencil_rows_length. apply offset_lt_length; [done| |lia].
      unfold local_nrows. lia.
  - intros i' j' Hi' _ Hj' E. apply offset_inj in E; lia.
Qed.

End Stencil.

(** C3. In a sub-step the stencil writes, in every owned cell whose global
    row is within [1, rows-2] and whose column is within [1, columns-2], the
    arithmetic mean of the four axis neighbours read from the
    previous-generation buffer [surfaceCopy]: the sum of the cells above,
    below, left and right of it, divided by 4; it writes no other position of
    [surface], so halo rows, global border rows and border columns keep their
    values. *)
Theorem stencil_writes_interior_mean (cfg : Config) (rank : Z) (surf copy : buffer) :
  length surf = Z.to_nat (local_nrows cfg * columns cfg) ->
  (forall i j, interior_cell cfg rank i j ->
     accessMat cfg (stencil cfg rank surf copy) i j
     = arithmetic_mean (accessMat cfg copy (i - 1) j) (accessMat cfg copy (i + 1) j)
                       (accessMat cfg copy i (j - 1)) (accessMat cfg copy i (j + 1))) /\
  (forall n : nat, (forall i j, interior_cell cfg rank i j -> n <> offset cfg i j) ->
     stencil cfg rank surf copy !! n = surf !! n) /\
  (forall i j, 0 <= i < local_nrows cfg -> 0 <= j < columns cfg ->
     ~ interior_cell cfg rank i j ->
     accessMat cfg (stencil cfg rank surf copy) i j = accessMat cfg surf i j) /\
  length (stencil cfg rank surf copy) = length surf.
Proof.
  intros Hlen. split; [|split; [|split]].
  - intros i j Hc. unfold accessMat at 1. apply list_lookup_total_correct.
    by rewrite (stencil_hit cfg rank copy surf i j Hlen Hc).
  - intros n Hn. by apply stencil_miss.
  - intros i j Hi Hj Hc. unfold accessMat. apply lookup_total_eq.
    apply stencil_miss. intros i' j' Hc' E. apply Hc.
    destruct Hc' as (Hi' & Hg' & Hj').
    apply offset_inj in E; [|lia..]. destruct E; by subst.
  - apply stencil_length.
Qed.

(** ** The residual *)

Section RunningMax.

Lemma fmax_not_below (r d : float) : F32.ltb (fmax r d) d = false.
Proof.
  unfold fmax. destruct (F32.ltb r d) eqn:E; [apply F32Order.ltb_irrefl | done].
Qed.

Lemma fmax_keeps_bound (r d x : float) :
  F32.ltb r x = false -> F32.ltb (fmax r d) x = false.
Proof.
  unfold fmax. intros H. destruct (F32.ltb r d) eqn:E; [|done].
  destruct (F32.ltb d x) eqn:E'; [|done].
  by rewrite (F32Order.ltb_trans r d x) in H.
Qed.

Lemma fmax_not_nan (r d : float) : F32.is_nan r = false -> F32.is_nan (fmax r d) = false.
Proof.
  unfold fmax. intros H. destruct (F32.ltb r d) eqn:E; [|done].
  by apply F32Order.ltb_not_nan in E as [_ ?].
Qed.

Lemma fmax_cases (r d : float) : fmax r d = r \/ fmax r d = d.
Proof. unfold fmax. destruct (F32.ltb r d); auto. Qed.

End RunningMax.

Lemma is_max_of_intro (r : float) (D : float -> Prop) :
  F32.is_nan r = false /\ (forall d, D d -> F32.ltb r d = false) /\ (r = F32.zero \/ D r) ->
  is_max_of r D.
Proof.
  intros (Hnan & Hub & Hatt). repeat split; auto.
  intros Hd. apply F32Order.ltb_false_leb; auto.
Qed.

Section Residual.
Variables (cfg : Config) (rank : Z) (surf copy : buffer).

Let diff := cell_diff cfg surf copy.

(** What one row contributes, started from the running value [r]. *)
Lemma residual_row_spec i (r : float) :
  let r' := residual_row cfg rank surf copy i r in
  (F32.is_nan r = false -> F32.is_nan r' = false) /\
  (forall x, F32.ltb r x = false -> F32.ltb r' x = false) /\
  (forall j, skip_row cfg rank i = false -> 1 <= j < columns cfg - 1 ->
     F32.ltb r' (diff i j) = false) /\
  (r' = r \/ exists j, skip_row cfg rank i = false /\ 1 <= j < columns cfg - 1 /\
                       r' = diff i j).
Proof.
  unfold residual_row. destruct (skip_row cfg rank i) eqn:Hs.
  { simpl. repeat split; auto. intros; discriminate. }
  simpl.
  destruct (Z_le_gt_dec 1 (columns cfg - 1)) as [Hle|Hgt].
  2:{ rewrite for_range_empty by lia. repeat split; auto. intros; lia. }
  apply (for_range_invariant (fun k (r' : float) =>
    (F32.is_nan r = false -> F32.is_nan r' = false) /\
    (forall x, F32.ltb r x = false -> F32.ltb r' x = false) /\
    (forall j, false = false -> 1 <= j < k -> F32.ltb r' (diff i j) = false) /\
    (r' = r \/ exists j, false = false /\ 1 <= j < columns cfg - 1 /\ r' = diff i j)));
    [done| |].
  - repeat split; auto. intros; lia.
  - intros k r' Hk (Hnan & Hub & Hrow & Hatt).
    change (if F32.ltb r' (cell_diff cfg surf copy i k)
            then cell_diff cfg surf copy i k else r') with (fmax r' (diff i k)).
    repeat split.
    + intros H. apply fmax_not_nan. auto.
    + intros x H. apply fmax_keeps_bound. auto.
    + intros j _ Hj. destruct (decide (j = k)) as [->|Hne].
      * apply fmax_not_below.
      * apply fmax_keeps_bound. apply Hrow; [done|lia].
    + destruct (fmax_cases r' (diff i k)) as [-> | ->]; [done|].
      right. exists k. repeat split; [lia..].
Qed.

Lemma local_residual_is_max :
  is_max_of (local_residual cfg rank surf copy)
            (fun d => exists i j, interior_cell cfg rank i j /\ d = diff i j).
Proof.
  apply is_max_of_intro. unfold local_residual.
  destruct (Z_le_gt_dec 1 (chunk cfg + 1)) as [Hle|Hgt].
  2:{ rewrite for_range_empty by lia. repeat split; auto.
      intros d (i & j & (Hi & _) & _). lia. }
  assert (Hinv :
    (fun k (r : float) =>
       F32.is_nan r = false /\
       (forall d, (exists i j, 1 <= i < k /\ interior_cell cfg rank i j /\ d = diff i j) ->
                  F32.ltb r d = false) /\
       (r = F32.zero \/ exists i j, interior_cell cfg rank i j /\ r = diff i j))
      (chunk cfg + 1)
      (for_range 1 (chunk cfg + 1) (residual_row cfg rank surf copy) F32.zero)).
  { apply for_range_invariant; [done| |].
    - repeat split; auto. intros d (i & j & Hi & _). lia.
    - intros k r Hk (Hnan & Hub & Hatt).
      destruct (residual_row_spec k r) as (Hn' & Hub' & Hrow' & Hatt').
      repeat split.
      + auto.
      + intros d (i & j & Hi & Hc & ->).
        destruct (decide (i = k)) as [->|Hne].
        * destruct Hc as (_ & Hg & Hj). apply Hrow'; [by apply skip_row_false | lia].
        * apply Hub'. apply Hub. exists i, j. split; [lia|]. by split.
      + destruct Hatt' as [-> | (j & Hs & Hj & ->)]; [done|].
        right. exists k, j. split; [|done]. apply skip_row_false in Hs.
        unfold interior_cell. lia. }
  destruct Hinv as (Hnan & Hub & Hatt). repeat split; [done| |done].
  intros d (i & j & Hc & ->). apply Hub. exists i, j.
  split; [destruct Hc; lia|]. by split.
Qed.

End Residual.

(** The reduction with [MPI_MAX]. *)
Lemma fold_fmax_spec (l : list float) (x : float) :
  let r := fold_left fmax l x in
  (F32.is_nan x = false -> F32.is_nan r = false) /\
  (forall y, F32.ltb x y = false -> F32.ltb r y = false) /\
  (forall y, y ∈ l -> F32.ltb r y = false) /\
  (r = x \/ r ∈ l).
Proof.
  revert x. induction l as [|d l IH]; intros x; simpl.
  { repeat split; auto. intros y Hy. by apply elem_of_nil in Hy. }
  destruct (IH (fmax x d)) as (Hn & Hub & Hl & Hatt).
  repeat split.
  - intros H. apply Hn. by apply fmax_not_nan.
  - intros y H. apply Hub. by apply fmax_keeps_bound.
  - intros y Hy. apply elem_of_cons in Hy as [->|Hy]; [|by apply Hl].
    apply Hub. apply fmax_not_below.
  - destruct Hatt as [-> | Hin].
    + destruct (fmax_cases x d) as [-> | ->]; [by left|]. right. apply elem_of_cons. by left.
    + right. apply elem_of_cons. by right.
Qed.

Lemma allreduce_max_spec (l : list float) :
  let r := MPI_Allreduce_max l in
  (forall y, y ∈ l -> F32.ltb r y = false) /\ (l = [] \/ r ∈ l) /\
  ((forall y, y ∈ l -> F32.is_nan y = false) -> F32.is_nan r = false).
Proof.
  destruct l as [|x l]; simpl.
  { repeat split; auto. intros y Hy. by apply elem_of_nil in Hy. }
  destruct (fold_fmax_spec l x) as (Hn & Hub & Hl & Hatt).
  repeat split.
  - intros y Hy. apply elem_of_cons in Hy as [->|Hy]; [|by apply Hl].
    apply Hub. apply F32Order.ltb_irrefl.
  - right. destruct Hatt as [-> | Hin]; apply elem_of_cons; auto.
  - intros H. apply Hn. apply H. apply elem_of_cons. by left.
Qed.

(** The residual returned by the ten sub-steps is the one of the last. *)
Lemma propagate_last (cfg : Config) (procs : list Proc) :
  propagate cfg procs =
  substep cfg (fst (for_range 0 9 (fun _ st => substep cfg (fst st)) (procs, F32.zero))).
Proof. unfold propagate. by rewrite (for_range_snoc 0 9) by lia. Qed.

(** C2. In every sub-step the local residual of a worker is the maximum,
    over its owned interior cells, of the absolute difference between the
    newly computed value (in [surface]) and the previous-generation value
    (in [surfaceCopy]); the reduced global residual is the maximum of the
    local residuals of all workers; and the residual that reaches the
    stability test is the one of the last sub-step. *)
Theorem residual_is_maximum (cfg : Config) (procs : list Proc) :
  let ex := exchange_phase cfg (heat_phase cfg procs) in
  let procs' := fst (substep cfg procs) in
  let global_residual := snd (substep cfg procs) in
  let local (r : nat) (p' : Proc) :=
    local_residual cfg (Z.of_nat r) (surface p') (surfaceCopy p') in
  (forall (r : nat) p', procs' !! r = Some p' ->
     (exists pe, ex !! r = Some pe /\
        surfaceCopy p' = copy_surface cfg (surface pe) (surfaceCopy pe) /\
        surface p' = stencil cfg (Z.of_nat r) (surface pe) (surfaceCopy p')) /\
     is_max_of (local r p')
       (fun d => exists i j, interior_cell cfg (Z.of_nat r) i j /\
          d = F32.fabs (F32.sub (accessMat cfg (surface p') i j)
                                (accessMat cfg (surfaceCopy p') i j))) /\
     F32.leb (local r p') global_residual = true) /\
  F32.is_nan global_residual = false /\
  (procs' = [] \/ exists (r : nat) p', procs' !! r = Some p' /\ global_residual = local r p') /\
  propagate cfg procs =
  substep cfg (fst (for_range 0 9 (fun _ st => substep cfg (fst st)) (procs, F32.zero))).
Proof.
  intros ex procs' global_residual local.
  assert (Hres : forall y, y ∈ residuals cfg procs' <->
                 exists (r : nat) p', procs' !! r = Some p' /\ y = local r p').
  { intros y. unfold residuals. rewrite elem_of_lookup_imap.
    split; intros (r & p' & H1 & H2); exists r, p'; auto. }
  destruct (allreduce_max_spec (residuals cfg procs')) as (Hub & Hatt & Hnan).
  fold global_residual in Hub, Hatt, Hnan.
  split; [|split; [|split]].
  - intros r p' Hp'. split; [|split].
    + subst procs'. unfold substep in Hp'. simpl in Hp'. unfold stencil_phase in Hp'.
      rewrite list_lookup_imap in Hp'. fold ex in Hp'.
      destruct (ex !! r) as [pe|] eqn:E; [|done]. simpl in Hp'.
      exists pe. inversion Hp'; subst. by simpl.
    + apply local_residual_is_max.
    + apply F32Order.ltb_false_leb.
      * apply Hnan. intros y Hy. apply Hres in Hy as (r0 & p0 & _ & ->).
        apply local_residual_is_max.
      * apply local_residual_is_max.
      * apply Hub. apply Hres. eauto.
  - apply Hnan. intros y Hy. apply Hres in Hy as (r & p' & _ & ->).
    apply local_residual_is_max.
  - destruct Hatt as [Hnil | Hin].
    + left. unfold residuals in Hnil. apply (f_equal length) in Hnil.
      rewrite length_imap in Hnil. by destruct procs'.
    + right. by apply Hres.
  - apply propagate_last.
Qed.

(** ** Ownership: writes of heat sources and teams stay in owned rows *)

Section Ownership.
Variables (cfg : Config) (rank : Z).

Lemma owned_row_offset i j :
  1 <= i <= chunk cfg -> 0 <= j < columns cfg -> owned_offset cfg (offset cfg i j).
Proof. unfold owned_offset, offset. intros Hi Hj. rewrite Z2Nat.id by nia. nia. Qed.

Lemma not_owned_row_offset i j :
  0 <= j < columns cfg -> i < 1 \/ chunk cfg < i -> ~ owned_offset cfg (offset cfg i j).
Proof.
  unfold owned_offset, offset. intros Hj Hi.
  destruct (Z_lt_ge_dec (i * columns cfg + j) 0).
  - rewrite Z2Nat.nonpos by lia. simpl. lia.
  - rewrite Z2Nat.id by lia. nia.
Qed.

Lemma update_heat_one_length (surf : buffer) f :
  length (update_heat_one cfg rank surf f) = length surf.
Proof.
  unfold update_heat_one.
  repeat match goal with |- context [if ?b then _ else _] => destruct b end;
    try done; apply setMat_length.
Qed.

Lemma update_heat_one_frame (surf : buffer) f (n : nat) :
  ~ owned_offset cfg n -> update_heat_one cfg rank surf f !! n = surf !! n.
Proof.
  intros Hn. unfold update_heat_one.
  destruct (negb _); [done|].
  destruct (_ || _) eqn:Hb; [done|].
  destruct (_ && _) eqn:Ho; [|done].
  unfold setMat. apply list_lookup_insert_ne. intros <-. apply Hn.
  apply orb_false_iff in Hb as [Hb Hb4]. apply orb_false_iff in Hb as [Hb Hb3].
  apply orb_false_iff in Hb as [Hb1 Hb2]. apply andb_true_iff in Ho as [Ho1 Ho2].
  apply owned_row_offset; unfold g_end in *; lia.
Qed.

Lemma update_heat_length fs (surf : buffer) :
  length (update_heat cfg rank fs surf) = length surf.
Proof.
  unfold update_heat. revert surf. induction fs as [|f fs IH]; intros surf; simpl; [done|].
  by rewrite IH, update_heat_one_length.
Qed.

Lemma update_heat_frame fs (surf : buffer) (n : nat) :
  ~ owned_offset cfg n -> update_heat cfg rank fs surf !! n = surf !! n.
Proof.
  intros Hn. unfold update_heat. revert surf.
  induction fs as [|f fs IH]; intros surf; simpl; [done|].
  by rewrite IH, update_heat_one_frame.
Qed.

Lemma reduce_cell_length t i j (s : buffer) :
  length (reduce_cell cfg rank t i j s) = length s.
Proof.
  unfold reduce_cell.
  repeat match goal with |- context [if ?b then _ else _] => destruct b end;
    try done; apply setMat_length.
Qed.

Lemma reduce_cell_frame t i j (s : buffer) (n : nat) :
  ~ owned_offset cfg n -> reduce_cell cfg rank t i j s !! n = s !! n.
Proof.
  intros Hn. unfold reduce_cell.
  destruct (_ || _) eqn:Hb; [done|].
  destruct (F32.leb _ _); [|done].
  destruct (_ && _) eqn:Ho; [|done].
  unfold setMat. apply list_lookup_insert_ne. intros <-. apply Hn.
  apply orb_false_iff in Hb as [Hb Hb4]. apply orb_false_iff in Hb as [Hb Hb3].
  apply orb_false_iff in Hb as [Hb1 Hb2]. apply andb_true_iff in Ho as [Ho1 Ho2].
  apply owned_row_offset; unfold g_end in *; lia.
Qed.

Lemma reduce_heat_length t (surf : buffer) :
  length (reduce_heat cfg rank t surf) = length surf.
Proof.
  unfold reduce_heat.
  apply (for_range_preserves (fun s : buffer => length s = length surf)); [done|].
  intros i s _ Hs.
  apply (for_range_preserves (fun s : buffer => length s = length surf)); [done|].
  intros j s' _ Hs'. by rewrite reduce_cell_length.
Qed.

Lemma reduce_heat_frame t (surf : buffer) (n : nat) :
  ~ owned_offset cfg n -> reduce_heat cfg rank t surf !! n = surf !! n.
Proof.
  intros Hn. unfold reduce_heat.
  apply (for_range_preserves (fun s : buffer => s !! n = surf !! n)); [done|].
  intros i s _ Hs.
  apply (for_range_preserves (fun s : buffer => s !! n = surf !! n)); [done|].
  intros j s' _ Hs'. by rewrite reduce_cell_frame.
Qed.

Lemma fold_team_action_length ts (st : list FocalPoint * buffer) :
  length (snd (fold_left (team_action cfg rank) ts st)) = length (snd st).
Proof.
  revert st. induction ts as [|t ts IH]; intros st; simpl; [done|].
  rewrite IH. apply reduce_heat_length.
Qed.

Lemma fold_team_action_frame ts (st : list FocalPoint * buffer) (n : nat) :
  ~ owned_offset cfg n ->
  snd (fold_left (team_action cfg rank) ts st) !! n = snd st !! n.
Proof.
  intros Hn. revert st. induction ts as [|t ts IH]; intros st; simpl; [done|].
  rewrite IH. by apply reduce_heat_frame.
Qed.

Lemma team_actions_length ts fs (surf : buffer) :
  length (snd (team_actions cfg rank ts fs surf)) = length surf.
Proof. apply fold_team_action_length. Qed.

Lemma team_actions_frame ts fs (surf : buffer) (n : nat) :
  ~ owned_offset cfg n -> snd (team_actions cfg rank ts fs surf) !! n = surf !! n.
Proof. apply fold_team_action_frame. Qed.

End Ownership.

(** C6. Heat reassertion and team heat suppression on the worker of rank
    [rank] change only positions of its owned rows, the local rows
    [1..chunk], whose global rows are [g_start .. g_end]: any other position
    of the local buffer, and so every cell of the two halo rows, keeps its
    value under both operations. *)
Theorem heat_and_teams_write_owned_rows_only (cfg : Config) (rank : Z)
    (fs : list FocalPoint) (ts : list Team) (surf : buffer) :
  let after_heat := update_heat cfg rank fs surf in
  let after_teams := snd (team_actions cfg rank ts fs surf) in
  (forall n : nat, ~ owned_offset cfg n ->
     after_heat !! n = surf !! n /\ after_teams !! n = surf !! n) /\
  (forall i j, 0 <= j < columns cfg ->
     let gx := g_start cfg rank + (i - 1) in
     gx < g_start cfg rank \/ g_end cfg rank < gx ->
     accessMat cfg after_heat i j = accessMat cfg surf i j /\
     accessMat cfg after_teams i j = accessMat cfg surf i j) /\
  (forall j, 0 <= j < columns cfg ->
     accessMat cfg after_heat 0 j = accessMat cfg surf 0 j /\
     accessMat cfg after_heat (chunk cfg + 1) j = accessMat cfg surf (chunk cfg + 1) j /\
     accessMat cfg after_teams 0 j = accessMat cfg surf 0 j /\
     accessMat cfg after_teams (chunk cfg + 1) j = accessMat cfg surf (chunk cfg + 1) j) /\
  length after_heat = length surf /\ length after_teams = length surf.
Proof.
  intros after_heat after_teams.
  assert (Hflat : forall n : nat, ~ owned_offset cfg n ->
            after_heat !! n = surf !! n /\ after_teams !! n = surf !! n).
  { intros n Hn. split; [by apply update_heat_frame | by apply team_actions_frame]. }
  assert (Hcell : forall i j, 0 <= j < columns cfg -> i < 1 \/ chunk cfg < i ->
            accessMat cfg after_heat i j = accessMat cfg surf i j /\
            accessMat cfg after_teams i j = accessMat cfg surf i j).
  { intros i j Hj Hi. unfold accessMat.
    destruct (Hflat (offset cfg i j)) as [H1 H2]; [by apply not_owned_row_offset|].
    split; by apply lookup_total_eq. }
  split; [done|]. split; [|split; [|split]].
  - intros i j Hj gx Hg. apply Hcell; [done|]. unfold gx, g_end in Hg. lia.
  - intros j Hj.
    destruct (Hcell 0 j) as [? ?]; [done|lia|].
    destruct (Hcell (chunk cfg + 1) j) as [? ?]; [done|lia|]. done.
  - apply update_heat_length.
  - apply team_actions_length.
Qed.

(** ** The halo exchange *)

Section Exchange.
Variable cfg : Config.

Lemma offset_row_start i j :
  0 <= i -> 0 <= j -> 0 <= columns cfg ->
  offset cfg i j = (offset cfg i 0 + Z.to_nat j)%nat.
Proof. unfold offset. intros. nia. Qed.

Lemma recv_row_length (s : buffer) i msg : length (recv_row cfg s i msg) = length s.
Proof. apply length_inserts. Qed.

Lemma recv_row_outside (s : buffer) i msg (n : nat) :
  (n < offset cfg i 0 \/ offset cfg i 0 + Z.to_nat (columns cfg) <= n)%nat ->
  recv_row cfg s i msg !! n = s !! n.
Proof.
  intros [H|H]; unfold recv_row.
  - by apply list_lookup_inserts_lt.
  - apply list_lookup_inserts_ge. rewrite length_take. lia.
Qed.

Lemma recv_row_inside (s : buffer) i (msg : list float) (k : nat) :
  length msg = Z.to_nat (columns cfg) -> (k < Z.to_nat (columns cfg))%nat ->
  (offset cfg i 0 + k < length s)%nat ->
  recv_row cfg s i msg !! (offset cfg i 0 + k)%nat = msg !! k.
Proof.
  intros Hm Hk Hs. unfold recv_row.
  rewrite list_lookup_inserts; [| rewrite length_take; lia | done].
  rewrite lookup_take_lt by lia. f_equal. lia.
Qed.

Lemma row_at_lookup (s : buffer) i (k : nat) :
  (k < Z.to_nat (columns cfg))%nat ->
  row_at cfg s i !! k = s !! (offset cfg i 0 + k)%nat.
Proof. intros Hk. unfold row_at. by rewrite lookup_take_lt, lookup_drop. Qed.

Lemma row_at_length (s : buffer) i :
  (offset cfg i 0 + Z.to_nat (columns cfg) <= length s)%nat ->
  length (row_at cfg s i) = Z.to_nat (columns cfg).
Proof. intros H. unfold row_at. rewrite length_take, length_drop. lia. Qed.

(** A reception in one row leaves the other rows as they are. *)
Lemma row_at_recv_other (s : buffer) i i' msg :
  0 <= i -> 0 <= i' -> i <> i' ->
  row_at cfg (recv_row cfg s i msg) i' = row_at cfg s i'.
Proof.
  intros Hi Hi' Hne. apply list_eq. intros k.
  destruct (decide (k < Z.to_nat (columns cfg))%nat) as [Hk|Hk].
  - rewrite !row_at_lookup by done. apply recv_row_outside. unfold offset. nia.
  - unfold row_at. by rewrite !lookup_take_ge by lia.
Qed.

Hypothesis Hchunk : 1 <= chunk cfg.

Lemma exchange_top_lookup (surfs : list buffer) (k : Z) msg (r : nat) (s : buffer) :
  0 <= k -> surfs !! r = Some s ->
  exchange_top cfg k msg surfs !! r =
  Some (if k + Z.of_nat r >? 0
        then recv_row cfg s 0
               match r with
               | O => msg
               | S r' => row_at cfg (surfs !!! r') (chunk cfg)
               end
        else s).
Proof.
  revert k msg r. induction surfs as [|s0 rest IH]; intros k msg r Hk Hs; [done|].
  destruct r as [|r']; simpl in *.
  - inversion Hs; subst. by rewrite Z.add_0_r.
  - rewrite (IH (k + 1) (row_at cfg (if k >? 0 then recv_row cfg s0 0 msg else s0) (chunk cfg)) r');
      [|lia|done].
    replace (k + 1 + Z.of_nat r') with (k + Z.pos (Pos.of_succ_nat r')) by lia.
    destruct (_ >? 0); [|done]. do 2 f_equal.
    destruct r' as [|r'']; simpl; [|done].
    destruct (k >? 0); [|done]. apply row_at_recv_other; lia.
Qed.

Lemma halo_exchange_length (surfs : list buffer) :
  length (halo_exchange cfg surfs) = length surfs.
Proof.
  unfold halo_exchange, exchange_bottom. rewrite length_imap.
  generalize 0 at 1. generalize (@nil float).
  induction surfs as [|s rest IH]; intros msg k; simpl; [done|]. by rewrite IH.
Qed.

Lemma halo_exchange_lookup (surfs : list buffer) (r : nat) (s : buffer) :
  surfs !! r = Some s ->
  halo_exchange cfg surfs !! r =
  Some (exchange_result cfg r s (surfs !!! pred r) (surfs !!! S r)).
Proof.
  intros Hs. unfold halo_exchange, exchange_bottom, exchange_result.
  rewrite list_lookup_imap, (exchange_top_lookup surfs 0 [] r s) by (done || lia).
  simpl. rewrite Z.add_0_l. destruct r as [|r']; [done|]. done.
Qed.

End Exchange.

(** ** States of the workers through the phases *)

Section Pointwise.

Lemma pointwise_refl (R : nat -> Proc -> Proc -> Prop) procs :
  (forall r p, R r p p) -> pointwise R procs procs.
Proof. intros H. split; [done|]. eauto. Qed.

Lemma pointwise_trans (R : nat -> Proc -> Proc -> Prop) a b c :
  (forall r p q s, R r p q -> R r q s -> R r p s) ->
  pointwise R a b -> pointwise R b c -> pointwise R a c.
Proof.
  intros HR [Hl1 H1] [Hl2 H2]. split; [congruence|].
  intros r s Hs. destruct (H2 r s Hs) as (q & Hq & Hqs).
  destruct (H1 r q Hq) as (p & Hp & Hpq). eauto.
Qed.

Lemma pointwise_imap (R : nat -> Proc -> Proc -> Prop) (f : nat -> Proc -> Proc) procs :
  (forall r p, procs !! r = Some p -> R r p (f r p)) -> pointwise R procs (imap f procs).
Proof.
  intros H. split; [apply length_imap|]. intros r q Hq.
  rewrite list_lookup_imap in Hq. destruct (procs !! r) as [p|] eqn:E; [|done].
  simpl in Hq. inversion Hq; subst. eauto.
Qed.

Lemma pointwise_and (R1 R2 : nat -> Proc -> Proc -> Prop) a b :
  pointwise R1 a b -> pointwise R2 a b ->
  pointwise (fun r p q => R1 r p q /\ R2 r p q) a b.
Proof.
  intros [Hl1 H1] [_ H2]. split; [done|]. intros r q Hq.
  destruct (H1 r q Hq) as (p & Hp & ?). destruct (H2 r q Hq) as (p' & Hp' & ?).
  assert (p' = p) by congruence. subst. eauto.
Qed.

Lemma same_replicated_refl p : same_replicated p p.
Proof. by repeat split. Qed.

Lemma same_replicated_trans p q s :
  same_replicated p q -> same_replicated q s -> same_replicated p s.
Proof. unfold same_replicated. intros (?&?&?&?) (?&?&?&?). repeat split; congruence. Qed.

Lemma surface_frame_refl cfg r p : surface_frame cfg r p p.
Proof. by split. Qed.

Lemma surface_frame_trans cfg r p q s :
  surface_frame cfg r p q -> surface_frame cfg r q s -> surface_frame cfg r p s.
Proof.
  intros [Hl1 H1] [Hl2 H2]. split; [congruence|]. intros n Hn.
  by rewrite H2, H1.
Qed.

End Pointwise.

Section Phases.
Variable cfg : Config.

Lemma outward_not_owned r n : 0 <= chunk cfg -> outward_halo cfg r n -> ~ owned_offset cfg n.
Proof. unfold outward_halo, owned_offset. intros Hc [[_ H]|[_ H]]; nia. Qed.

Lemma exchange_phase_lookup_some procs r p :
  procs !! r = Some p ->
  exists s, halo_exchange cfg (map surface procs) !! r = Some s /\
            exchange_phase cfg procs !! r = Some (set_surface s p).
Proof.
  intros Hp. unfold exchange_phase.
  assert (is_Some (halo_exchange cfg (map surface procs) !! r)) as [s Hs].
  { apply lookup_lt_is_Some. rewrite halo_exchange_length, length_map.
    by apply lookup_lt_Some in Hp. }
  exists s. split; [done|]. rewrite lookup_zip_with, Hs, Hp. done.
Qed.

Lemma exchange_phase_length procs : length (exchange_phase cfg procs) = length procs.
Proof.
  unfold exchange_phase. rewrite length_zip_with, halo_exchange_length, length_map. lia.
Qed.

Lemma heat_phase_replicated procs :
  pointwise (fun _ => same_replicated) procs (heat_phase cfg procs).
Proof. apply pointwise_imap. intros r p _. by repeat split. Qed.

Lemma exchange_phase_replicated procs :
  pointwise (fun _ => same_replicated) procs (exchange_phase cfg procs).
Proof.
  split; [apply exchange_phase_length|]. intros r q Hq.
  assert (is_Some (procs !! r)) as [p Hp].
  { apply lookup_lt_is_Some. rewrite <- exchange_phase_length.
    by apply lookup_lt_Some in Hq. }
  destruct (exchange_phase_lookup_some procs r p Hp) as (s & _ & Hs).
  exists p. split; [done|]. rewrite Hs in Hq. inversion Hq; subst. by repeat split.
Qed.

Lemma stencil_phase_replicated procs :
  pointwise (fun _ => same_replicated) procs (stencil_phase cfg procs).
Proof. apply pointwise_imap. intros r p _. by repeat split. Qed.

Lemma substep_replicated procs :
  pointwise (fun _ => same_replicated) procs (fst (substep cfg procs)).
Proof.
  unfold substep. simpl.
  eapply pointwise_trans; [intros r; apply same_replicated_trans| |apply stencil_phase_replicated].
  eapply pointwise_trans; [intros r; apply same_replicated_trans| |apply exchange_phase_replicated].
  apply heat_phase_replicated.
Qed.

Lemma propagate_pointwise (R : nat -> Proc -> Proc -> Prop) procs :
  (forall r p, R r p p) -> (forall r p q s, R r p q -> R r q s -> R r p s) ->
  (forall procs', pointwise R procs' (fst (substep cfg procs'))) ->
  pointwise R procs (fst (propagate cfg procs)).
Proof.
  intros Hrefl Htrans Hstep. unfold propagate.
  apply (for_range_preserves (fun st : list Proc * float => pointwise R procs (fst st))).
  - simpl. by apply pointwise_refl.
  - intros k st _ H. eapply pointwise_trans; [apply Htrans|apply H|apply Hstep].
Qed.

Lemma propagate_replicated procs :
  pointwise (fun _ => same_replicated) procs (fst (propagate cfg procs)).
Proof.
  apply propagate_pointwise.
  - intros _. apply same_replicated_refl.
  - intros _. apply same_replicated_trans.
  - apply substep_replicated.
Qed.

End Phases.

Section SurfaceFrames.
Variable cfg : Config.
Hypothesis Hchunk : 1 <= chunk cfg.

Lemma interior_owned rank i j :
  interior_cell cfg rank i j -> owned_offset cfg (offset cfg i j).
Proof. intros (Hi & _ & Hj). apply owned_row_offset; lia. Qed.

Lemma exchange_result_length r (s above below : buffer) :
  length (exchange_result cfg r s above below) = length s.
Proof.
  unfold exchange_result. destruct (_ <? _), (_ >? _); by rewrite ?recv_row_length.
Qed.

(** Owned rows are not changed by the exchange. *)
Lemma exchange_result_owned r (s above below : buffer) (n : nat) :
  owned_offset cfg n -> exchange_result cfg r s above below !! n = s !! n.
Proof.
  unfold owned_offset, exchange_result. intros Hn.
  assert (recv_row cfg s 0 (row_at cfg above (chunk cfg)) !! n = s !! n) as E0.
  { apply recv_row_outside. right. unfold offset. lia. }
  destruct (_ <? _).
  - rewrite recv_row_outside by (left; unfold offset; lia). by destruct (_ >? _).
  - by destruct (_ >? _).
Qed.

Lemma exchange_result_outward r (s above below : buffer) (n : nat) :
  outward_halo cfg r n -> exchange_result cfg r s above below !! n = s !! n.
Proof.
  unfold outward_halo, exchange_result. intros [[-> Hn]|[Hr Hn]].
  - simpl. destruct (_ <? _); [|done].
    apply recv_row_outside. left. unfold offset. nia.
  - rewrite (proj2 (Z.ltb_ge _ _)) by lia. destruct (_ >? _); [|done].
    apply recv_row_outside. right. unfold offset.
    destruct (Z_lt_ge_dec (columns cfg) 0); [lia|nia].
Qed.

(** The bottom halo receives the first owned row of the worker below. *)
Lemma exchange_result_bottom r (s above below : buffer) j :
  Z.of_nat r < size cfg - 1 -> 0 <= j < columns cfg ->
  length s = Z.to_nat (local_nrows cfg * columns cfg) ->
  length below = Z.to_nat (local_nrows cfg * columns cfg) ->
  exchange_result cfg r s above below !! offset cfg (chunk cfg + 1) j
  = below !! offset cfg 1 j.
Proof.
  intros Hr Hj Hs Hb. unfold exchange_result, local_nrows in *.
  rewrite (proj2 (Z.ltb_lt _ _)) by done.
  rewrite (offset_row_start cfg (chunk cfg + 1) j), (offset_row_start cfg 1 j) by lia.
  rewrite recv_row_inside.
  - apply row_at_lookup. lia.
  - apply row_at_length. rewrite Hb. unfold offset. nia.
  - lia.
  - destruct (_ >? _); rewrite ?recv_row_length, Hs; unfold offset; nia.
Qed.

(** The top halo receives the last owned row of the worker above. *)
Lemma exchange_result_top r (s above below : buffer) j :
  0 < Z.of_nat r -> 0 <= j < columns cfg ->
  length s = Z.to_nat (local_nrows cfg * columns cfg) ->
  length above = Z.to_nat (local_nrows cfg * columns cfg) ->
  exchange_result cfg r s above below !! offset cfg 0 j
  = above !! offset cfg (chunk cfg) j.
Proof.
  intros Hr Hj Hs Ha. unfold exchange_result, local_nrows in *.
  rewrite (proj2 (Z.gtb_gt _ _)) by lia.
  rewrite (offset_row_start cfg 0 j), (offset_row_start cfg (chunk cfg) j) by lia.
  assert (recv_row cfg s 0 (row_at cfg above (chunk cfg))
            !! (offset cfg 0 0 + Z.to_nat j)%nat
          = above !! (offset cfg (chunk cfg) 0 + Z.to_nat j)%nat) as E.
  { rewrite recv_row_inside.
    - apply row_at_lookup. lia.
    - apply row_at_length. rewrite Ha. unfold offset. nia.
    - lia.
    - rewrite Hs. unfold offset. nia. }
  destruct (_ <? _); [|done].
  rewrite recv_row_outside; [done|]. left. unfold offset. nia.
Qed.

Lemma exchange_phase_lookup procs r p :
  procs !! r = Some p ->
  exchange_phase cfg procs !! r =
  Some (set_surface
          (exchange_result cfg r (surface p)
             (map surface procs !!! pred r) (map surface procs !!! S r)) p).
Proof.
  intros Hp. destruct (exchange_phase_lookup_some cfg procs r p Hp) as (s & Hs & ->).
  rewrite (halo_exchange_lookup cfg Hchunk _ r (surface p)) in Hs.
  - by inversion Hs.
  - by rewrite list_lookup_fmap, Hp.
Qed.

Lemma heat_phase_frame procs :
  pointwise (surface_frame cfg) procs (heat_phase cfg procs).
Proof.
  apply pointwise_imap. intros r p _. split; simpl.
  - apply update_heat_length.
  - intros n Hn. apply update_heat_frame. apply outward_not_owned in Hn; [done|lia].
Qed.

Lemma exchange_phase_frame procs :
  pointwise (surface_frame cfg) procs (exchange_phase cfg procs).
Proof.
  split; [apply exchange_phase_length|]. intros r q Hq.
  assert (is_Some (procs !! r)) as [p Hp].
  { apply lookup_lt_is_Some. rewrite <- (exchange_phase_length cfg).
    by apply lookup_lt_Some in Hq. }
  exists p. split; [done|]. rewrite (exchange_phase_lookup procs r p Hp) in Hq.
  inversion Hq; subst. split; simpl.
  - apply exchange_result_length.
  - intros n Hn. by apply exchange_result_outward.
Qed.

Lemma stencil_phase_frame procs :
  pointwise (surface_frame cfg) procs (stencil_phase cfg procs).
Proof.
  apply pointwise_imap. intros r p _. split; simpl.
  - apply stencil_length.
  - intros n Hn. apply stencil_miss. intros i j Hc ->.
    apply interior_owned in Hc. apply outward_not_owned in Hn; [done|lia].
Qed.

Lemma substep_frame procs :
  pointwise (surface_frame cfg) procs (fst (substep cfg procs)).
Proof.
  unfold substep. simpl.
  eapply pointwise_trans; [apply surface_frame_trans| |apply stencil_phase_frame].
  eapply pointwise_trans; [apply surface_frame_trans| |apply exchange_phase_frame].
  apply heat_phase_frame.
Qed.

Lemma propagate_frame procs :
  pointwise (surface_frame cfg) procs (fst (propagate cfg procs)).
Proof.
  apply propagate_pointwise.
  - apply surface_frame_refl.
  - apply surface_frame_trans.
  - apply substep_frame.
Qed.

End SurfaceFrames.

(** ** One outer iteration *)

Section Iteration.
Variable cfg : Config.

Lemma activate_spec iter fs first count :
  (activate iter fs first count).1.1 = activate_focal iter fs /\
  (activate iter fs first count).2 = count + count_deactivated (activate_focal iter fs).
Proof.
  revert first count. induction fs as [|f fs IH]; intros first count.
  { simpl. split; [done|]. unfold count_deactivated. simpl. lia. }
  simpl.
  match goal with |- context [activate iter fs ?a ?b] =>
    destruct (IH a b) as [IH1 IH2]; destruct (activate iter fs a b) as [[fs' fa] n] end.
  simpl in *. subst. split; [done|].
  unfold count_deactivated. rewrite filter_cons.
  destruct (decide _) as [E|E].
  - rewrite (proj2 (Z.eqb_eq _ _) E). simpl length. fold (count_deactivated (activate_focal iter fs)).
    unfold count_deactivated. lia.
  - rewrite (proj2 (Z.eqb_neq _ _) E). done.
Qed.

Lemma activate_proc_spec iter p :
  let q := fst (activate_proc iter p) in
  surface q = surface p /\ surfaceCopy q = surfaceCopy p /\ teams q = teams p /\
  focal q = activate_focal iter (focal p) /\ flag_stability q = flag_stability p /\
  snd (activate_proc iter p) = count_deactivated (activate_focal iter (focal p)).
Proof.
  unfold activate_proc.
  destruct (activate_spec iter (focal p) (first_activation p) 0) as [H1 H2].
  destruct (activate iter (focal p) (first_activation p) 0) as [[fs fa] n].
  simpl in *. subst. repeat split; lia.
Qed.

Lemma activated_lookup iter procs (r : nat) :
  activated iter procs !! r = (fun p => fst (activate_proc iter p)) <$> procs !! r.
Proof.
  unfold activated. rewrite !list_lookup_fmap. by destruct (procs !! r).
Qed.

Lemma activated_length iter procs : length (activated iter procs) = length procs.
Proof. unfold activated. by rewrite !length_map. Qed.

Lemma activate_focal_length iter fs : length (activate_focal iter fs) = length fs.
Proof. apply length_map. Qed.

Lemma fold_team_action_focal rank ts (st : list FocalPoint * buffer) :
  fst (fold_left (team_action cfg rank) ts st) = fold_left deactivate_target ts (fst st).
Proof. revert st. induction ts as [|t ts IH]; intros st; simpl; [done|]. by rewrite IH. Qed.

Lemma team_actions_focal rank ts fs (surf : buffer) :
  fst (team_actions cfg rank ts fs surf) = fold_left deactivate_target ts fs.
Proof. apply fold_team_action_focal. Qed.

Lemma iteration_length iter procs : length (iteration cfg iter procs) = length procs.
Proof.
  unfold iteration. rewrite length_imap.
  destruct (propagate_replicated cfg (activated iter procs)) as [Hl _].
  by rewrite Hl, activated_length.
Qed.

Lemma iteration_lookup iter procs (r : nat) q :
  iteration cfg iter procs !! r = Some q ->
  exists p p1, procs !! r = Some p /\
    fst (propagate cfg (activated iter procs)) !! r = Some p1 /\
    same_replicated (fst (activate_proc iter p)) p1 /\
    q = finish_iteration cfg (Z.of_nat r) (num_deactivated iter procs)
          (snd (propagate cfg (activated iter procs))) p1.
Proof.
  unfold iteration. rewrite list_lookup_imap. intros Hq.
  apply fmap_Some in Hq as (p1 & E1 & ->).
  destruct (propagate_replicated cfg (activated iter procs)) as [_ H].
  destruct (H r p1 E1) as (p0 & Hp0 & Hrep).
  rewrite activated_lookup in Hp0.
  destruct (procs !! r) as [p|] eqn:Ep; [|done]. simpl in Hp0. inversion Hp0; subst.
  exists p, p1. done.
Qed.

(** The teams and focal points a worker holds after an iteration depend
    only on those it held before and on the iteration counter. *)
Lemma iteration_replicated iter procs (r : nat) q :
  iteration cfg iter procs !! r = Some q ->
  exists p, procs !! r = Some p /\
    (teams q, focal q) = replicated_step iter (teams p, focal p) /\
    flag_stability q =
      stability_test (num_deactivated iter procs) (num_focal cfg)
        (snd (propagate cfg (activated iter procs))) (flag_stability p).
Proof.
  intros Hq. destruct (iteration_lookup iter procs r q Hq) as (p & p1 & Hp & _ & Hrep & ->).
  exists p. split; [done|].
  destruct Hrep as (Ht & Hf & Hfl & _).
  destruct (activate_proc_spec iter p) as (_ & _ & Ht' & Hf' & Hfl' & _).
  unfold finish_iteration, replicated_step. cbn [teams focal flag_stability fst snd].
  rewrite team_actions_focal, Ht, Hf, Hfl, Ht', Hf', Hfl'. split; reflexivity.
Qed.

Hypothesis Hchunk : 1 <= chunk cfg.

Lemma iteration_frame iter procs :
  pointwise (surface_frame cfg) procs (iteration cfg iter procs).
Proof.
  split; [apply iteration_length|]. intros r q Hq.
  destruct (iteration_lookup iter procs r q Hq) as (p & p1 & Hp & Hp1 & _ & ->).
  exists p. split; [done|].
  destruct (propagate_frame cfg Hchunk (activated iter procs)) as [_ H].
  destruct (H r p1 Hp1) as (p0 & Hp0 & Hl & Hfr).
  rewrite activated_lookup, Hp in Hp0. simpl in Hp0. inversion Hp0; subst; clear Hp0.
  destruct (activate_proc_spec iter p) as (Hs & _).
  rewrite Hs in Hl, Hfr.
  split; unfold finish_iteration; cbn [surface].
  - by rewrite team_actions_length.
  - intros n Hn. rewrite team_actions_frame; [by apply Hfr|].
    apply outward_not_owned in Hn; [done|lia].
Qed.

End Iteration.

(** ** The simulation loop *)

Lemma simulation_loop_invariant (P : Z -> list Proc -> Prop) (cfg : Config) :
  (forall iter procs, P iter procs -> running cfg iter procs = true ->
                      P (iter + 1) (iteration cfg iter procs)) ->
  forall fuel iter procs, P iter procs ->
    P (fst (simulation_loop fuel cfg iter procs)) (snd (simulation_loop fuel cfg iter procs)).
Proof.
  intros Hstep. induction fuel as [|fuel IH]; intros iter procs HP; simpl; [done|].
  destruct (running cfg iter procs) eqn:E; [|done]. apply IH. by apply Hstep.
Qed.

Lemma init_buffer_total (cfg : Config) (n : nat) : init_buffer cfg !!! n = F32.zero.
Proof.
  unfold init_buffer. rewrite list_lookup_total_alt.
  destruct (replicate _ _ !! n) as [x|] eqn:E; [|done].
  by apply lookup_replicate in E as [-> _].
Qed.

Lemma init_procs_lookup (cfg : Config) ts fs (r : nat) p :
  init_procs cfg ts fs !! r = Some p -> p = init_proc cfg ts fs.
Proof. unfold init_procs. intros H. by apply lookup_replicate in H as [-> _]. Qed.

(** C4. In a sub-step, once the exchange is done (and before the stencil
    update), the bottom halo row of rank [r] holds the first owned row of
    rank [r+1] and the top halo row of rank [r+1] holds the last owned row of
    rank [r], as these rows stand after the heat writes of the sub-step (the
    exchange itself does not change owned rows).  The halo row that faces the
    global border, on rank 0 and on the last rank, is not written by the
    exchange, and it keeps its initial value [0.0] through the whole run.
    Rows of distinct roles are distinct when each worker owns at least one
    row, [1 <= chunk]. *)
Theorem halo_rows_mirror_neighbours (cfg : Config) (ts : list Team)
    (fs : list FocalPoint) :
  1 <= chunk cfg ->
  (forall procs : list Proc,
     size cfg = Z.of_nat (length procs) ->
     Forall (fun p => length (surface p) = Z.to_nat (local_nrows cfg * columns cfg))
            procs ->
     let pre := heat_phase cfg procs in
     let ex := exchange_phase cfg pre in
     (forall (r : nat) pa pb, pre !! r = Some pa -> pre !! S r = Some pb ->
        exists qa qb, ex !! r = Some qa /\ ex !! S r = Some qb /\
          forall j, 0 <= j < columns cfg ->
            accessMat cfg (surface qa) (chunk cfg + 1) j = accessMat cfg (surface pb) 1 j /\
            accessMat cfg (surface qb) 0 j = accessMat cfg (surface pa) (chunk cfg) j /\
            accessMat cfg (surface qb) 1 j = accessMat cfg (surface pb) 1 j /\
            accessMat cfg (surface qa) (chunk cfg) j
              = accessMat cfg (surface pa) (chunk cfg) j) /\
     (forall (r : nat) p q (n : nat), pre !! r = Some p -> ex !! r = Some q ->
        outward_halo cfg r n -> surface q !! n = surface p !! n)) /\
  (forall fuel iter procs,
     simulation_loop fuel cfg 0 (init_procs cfg ts fs) = (iter, procs) ->
     forall (r : nat) p j, procs !! r = Some p -> 0 <= j < columns cfg ->
       (r = O -> accessMat cfg (surface p) 0 j = F32.zero) /\
       (Z.of_nat r = size cfg - 1 ->
        accessMat cfg (surface p) (chunk cfg + 1) j = F32.zero)).
Proof.
  intros Hchunk. split.
  - intros procs Hsize Hlen pre ex.
    assert (Hpre : forall r p, pre !! r = Some p ->
              length (surface p) = Z.to_nat (local_nrows cfg * columns cfg)).
    { intros r p Hp. unfold pre, heat_phase in Hp. rewrite list_lookup_imap in Hp.
      destruct (procs !! r) as [p0|] eqn:E; [|done]. simpl in Hp. inversion Hp; subst.
      simpl. rewrite update_heat_length.
      by apply (proj1 (Forall_lookup _ _) Hlen r p0). }
    assert (Hlpre : length pre = length procs) by apply length_imap.
    split.
    + intros r pa pb Ha Hb.
      exists (set_surface (exchange_result cfg r (surface pa)
                (map surface pre !!! pred r) (map surface pre !!! S r)) pa),
             (set_surface (exchange_result cfg (S r) (surface pb)
                (map surface pre !!! pred (S r)) (map surface pre !!! S (S r))) pb).
      split; [by apply exchange_phase_lookup|]. split; [by apply exchange_phase_lookup|].
      assert (map surface pre !!! S r = surface pb) as ->.
      { apply list_lookup_total_correct. by rewrite list_lookup_fmap, Hb. }
      assert (map surface pre !!! pred (S r) = surface pa) as ->.
      { apply list_lookup_total_correct. simpl. by rewrite list_lookup_fmap, Ha. }
      pose proof (Hpre _ _ Ha) as Hla. pose proof (Hpre _ _ Hb) as Hlb.
      apply lookup_lt_Some in Hb.
      intros j Hj. unfold accessMat. simpl. repeat split.
      * rewrite !list_lookup_total_alt.
        rewrite exchange_result_bottom; try done; lia.
      * rewrite !list_lookup_total_alt.
        rewrite exchange_result_top; try done; lia.
      * apply lookup_total_eq. apply exchange_result_owned; [done|].
        apply owned_row_offset; lia.
      * apply lookup_total_eq. apply exchange_result_owned; [done|].
        apply owned_row_offset; lia.
    + intros r p q n Hp Hq Hn. unfold ex in Hq.
      rewrite (exchange_phase_lookup cfg Hchunk pre r p Hp) in Hq.
      inversion Hq; subst. simpl. by apply exchange_result_outward.
  - intros fuel iter procs Hrun.
    pose proof (simulation_loop_invariant
      (fun _ procs' => pointwise (surface_frame cfg) (init_procs cfg ts fs) procs') cfg) as Hinv.
    specialize (Hinv ltac:(intros i ps HP _;
      eapply pointwise_trans;
        [apply surface_frame_trans | apply HP | by apply iteration_frame])).
    specialize (Hinv fuel 0 (init_procs cfg ts fs)
                  ltac:(apply pointwise_refl, surface_frame_refl)).
    rewrite Hrun in Hinv. simpl in Hinv. destruct Hinv as [_ Hinv].
    intros r p j Hp Hj. destruct (Hinv r p Hp) as (p0 & Hp0 & _ & Hfr).
    apply init_procs_lookup in Hp0. subst p0. simpl in Hfr.
    split; intros Hr; unfold accessMat.
    + rewrite <- (init_buffer_total cfg (offset cfg 0 j)).
      apply lookup_total_eq, Hfr. left. split; [done|]. unfold offset. lia.
    + rewrite <- (init_buffer_total cfg (offset cfg (chunk cfg + 1) j)).
      apply lookup_total_eq, Hfr. right. split; [done|]. unfold offset. nia.
Qed.

Lemma halo_rows_mirror_neighbours_witness :
  1 <= chunk cfg_two_workers_two_focal /\
  forall (r : nat) p j,
    snd (simulate cfg_two_workers_two_focal teams_on_focal focal_two_cold) !! r = Some p ->
    0 <= j < columns cfg_two_workers_two_focal ->
    (r = O -> accessMat cfg_two_workers_two_focal (surface p) 0 j = F32.zero) /\
    (Z.of_nat r = size cfg_two_workers_two_focal - 1 ->
     accessMat cfg_two_workers_two_focal (surface p) (chunk cfg_two_workers_two_focal + 1) j = F32.zero).
Proof.
  assert (H : 1 <= chunk cfg_two_workers_two_focal) by (vm_compute; discriminate).
  split; [exact H|].
  destruct (halo_rows_mirror_neighbours cfg_two_workers_two_focal teams_on_focal focal_two_cold H)
    as [_ Hrun].
  apply (Hrun (Z.to_nat (max_iter cfg_two_workers_two_focal))
              (fst (simulate cfg_two_workers_two_focal teams_on_focal focal_two_cold))).
  unfold simulate. by destruct (simulation_loop _ _ _ _).
Defined.

(** C5. At the start of every outer iteration all workers hold the same
    team array and the same focal-point array.  The step behind it: two
    workers (any ranks, any slices, any cohort) that start an iteration with
    equal teams and focal points and the same iteration counter end it with
    equal teams and focal points; the update reads no received data. *)
Theorem replicated_state_identical (cfg : Config) (ts : list Team)
    (fs : list FocalPoint) :
  (forall fuel iter procs,
     simulation_loop fuel cfg 0 (init_procs cfg ts fs) = (iter, procs) ->
     forall (r1 r2 : nat) p1 p2, procs !! r1 = Some p1 -> procs !! r2 = Some p2 ->
       teams p1 = teams p2 /\ focal p1 = focal p2) /\
  (forall (cfg1 cfg2 : Config) iter procs1 procs2 (r1 r2 : nat) p1 p2 q1 q2,
     procs1 !! r1 = Some p1 -> procs2 !! r2 = Some p2 ->
     teams p1 = teams p2 -> focal p1 = focal p2 ->
     iteration cfg1 iter procs1 !! r1 = Some q1 ->
     iteration cfg2 iter procs2 !! r2 = Some q2 ->
     teams q1 = teams q2 /\ focal q1 = focal q2).
Proof.
  assert (Hstep : forall (cfg1 cfg2 : Config) iter procs1 procs2 (r1 r2 : nat) p1 p2 q1 q2,
     procs1 !! r1 = Some p1 -> procs2 !! r2 = Some p2 ->
     teams p1 = teams p2 -> focal p1 = focal p2 ->
     iteration cfg1 iter procs1 !! r1 = Some q1 ->
     iteration cfg2 iter procs2 !! r2 = Some q2 ->
     teams q1 = teams q2 /\ focal q1 = focal q2).
  { intros cfg1 cfg2 iter procs1 procs2 r1 r2 p1 p2 q1 q2 Hp1 Hp2 Ht Hf Hq1 Hq2.
    apply iteration_replicated in Hq1 as (p1' & Hp1' & E1 & _).
    apply iteration_replicated in Hq2 as (p2' & Hp2' & E2 & _).
    assert (p1' = p1) by congruence. assert (p2' = p2) by congruence. subst.
    rewrite Ht, Hf in E1. rewrite <- E2 in E1. by inversion E1. }
  split; [|exact Hstep].
  intros fuel iter procs Hrun.
  pose proof (simulation_loop_invariant
    (fun _ procs' => forall (r1 r2 : nat) p1 p2,
       procs' !! r1 = Some p1 -> procs' !! r2 = Some p2 ->
       teams p1 = teams p2 /\ focal p1 = focal p2) cfg) as Hinv.
  assert (Hinv' := Hinv
    ltac:(intros i ps HP _ r1 r2 q1 q2 Hq1 Hq2;
          pose proof (iteration_replicated cfg i ps r1 q1 Hq1) as (p1 & Hp1 & _);
          pose proof (iteration_replicated cfg i ps r2 q2 Hq2) as (p2 & Hp2 & _);
          destruct (HP r1 r2 p1 p2 Hp1 Hp2) as [Ht Hf];
          exact (Hstep cfg cfg i ps ps r1 r2 p1 p2 q1 q2 Hp1 Hp2 Ht Hf Hq1 Hq2))
    fuel 0 (init_procs cfg ts fs)).
  rewrite Hrun in Hinv'. simpl in Hinv'. apply Hinv'.
  intros r1 r2 p1 p2 H1 H2.
  apply init_procs_lookup in H1, H2. by subst.
Qed.

Lemma stencil_writes_interior_mean_witness :
  length (init_buffer cfg_two_workers)
    = Z.to_nat (local_nrows cfg_two_workers * columns cfg_two_workers) /\
  accessMat cfg_two_workers
    (stencil cfg_two_workers 0 (init_buffer cfg_two_workers) copy_sample) 2 1
  = arithmetic_mean (F32.of_int 10) (F32.of_int 20) (F32.of_int 30) (F32.of_int 60) /\
  arithmetic_mean (F32.of_int 10) (F32.of_int 20) (F32.of_int 30) (F32.of_int 60)
  = F32.of_int 30.
Proof.
  assert (H : length (init_buffer cfg_two_workers)
    = Z.to_nat (local_nrows cfg_two_workers * columns cfg_two_workers)) by reflexivity.
  split; [exact H|]. split; [|vm_compute; reflexivity].
  apply (proj1 (stencil_writes_interior_mean cfg_two_workers 0
                  (init_buffer cfg_two_workers) copy_sample H) 2 1).
  unfold interior_cell. vm_compute. repeat split; discriminate.
Defined.

(** *** The rounded distance on small coordinate differences *)

Module SmallGaps.

Lemma float_beq_eq (a b : float) : float_beq a b = true -> a = b.
Proof.
  destruct a as [s|s| |s m e], b as [s'|s'| |s' m' e']; simpl; try discriminate.
  - intros H. apply Bool.eqb_prop in H. by subst.
  - intros H. apply Bool.eqb_prop in H. by subst.
  - done.
  - intros H. apply andb_prop in H as [H He]. apply andb_prop in H as [Hs Hm].
    apply Bool.eqb_prop in Hs. apply Pos.eqb_eq in Hm. apply Z.eqb_eq in He. by subst.
Qed.

Lemma check_iter_spec (P : Z -> bool) (n : nat) (lo : Z) (b : bool) :
  fst (Nat.iter n (check_step P) (lo, b)) = lo + Z.of_nat n /\
  (snd (Nat.iter n (check_step P) (lo, b)) = true ->
   b = true /\ forall k, lo <= k < lo + Z.of_nat n -> P k = true).
Proof.
  induction n as [|n [IH1 IH2]].
  { simpl. split; [lia|]. intros ->. split; [done|]. intros k Hk. lia. }
  rewrite Nat.iter_succ. unfold check_step at 1 3. cbn [fst snd]. rewrite IH1.
  split; [lia|].
  destruct (snd (Nat.iter n (check_step P) (lo, b))) eqn:E; [|done].
  intros HP. destruct (IH2 eq_refl) as [Hb Hall]. split; [done|].
  intros k Hk. destruct (Z.eq_dec k (lo + Z.of_nat n)) as [->|Hne]; [done|].
  apply Hall. lia.
Qed.

Lemma all_from_spec (P : Z -> bool) (lo : Z) (n : positive) :
  all_from P lo n = true -> forall k, lo <= k < lo + Z.pos n -> P k = true.
Proof.
  unfold all_from. rewrite Pos2Nat.inj_iter. intros H k Hk.
  destruct (check_iter_spec P (Pos.to_nat n) lo true) as [_ Hall].
  apply (proj2 (Hall H)). lia.
Qed.

Lemma squares_are_exact (a b : Z) :
  0 <= a <= SMALL_GAP -> 0 <= b <= SMALL_GAP ->
  F32.add (F32.mul (F32.of_int a) (F32.of_int a)) (F32.mul (F32.of_int b) (F32.of_int b))
  = F32.of_int (a * a + b * b).
Proof.
  intros Ha Hb. apply float_beq_eq.
  assert (H : all_from (fun a => all_from (sq_sum_exact a) 0 128) 0 128 = true)
    by (vm_cast_no_check (eq_refl true)).
  apply (all_from_spec _ 0 128 (all_from_spec _ 0 128 H a ltac:(unfold SMALL_GAP in *; lia))).
  unfold SMALL_GAP in *. lia.
Qed.

Lemma square_of_opposite (a : Z) :
  0 <= a <= SMALL_GAP ->
  F32.mul (F32.of_int (- a)) (F32.of_int (- a)) = F32.mul (F32.of_int a) (F32.of_int a).
Proof.
  intros Ha. apply float_beq_eq.
  assert (H : all_from sq_sign_free 0 128 = true) by (vm_cast_no_check (eq_refl true)).
  apply (all_from_spec _ 0 128 H). unfold SMALL_GAP in *. lia.
Qed.

Lemma square_of_abs (a : Z) :
  Z.abs a <= SMALL_GAP ->
  F32.mul (F32.of_int a) (F32.of_int a)
  = F32.mul (F32.of_int (Z.abs a)) (F32.of_int (Z.abs a)).
Proof.
  intros Ha. destruct (Z.abs_spec a) as [[H0 ->]|[H0 E]]; [done|].
  rewrite E. replace a with (- (- a)) at 1 2 by lia.
  apply square_of_opposite. lia.
Qed.

Lemma rounded_sqrt_of_squares_exact (dx dy : Z) :
  Z.abs dx <= SMALL_GAP -> Z.abs dy <= SMALL_GAP ->
  rounded_sqrt_of_squares dx dy = F32.sqrtf (F32.of_int (dx * dx + dy * dy)).
Proof.
  intros Hx Hy. unfold rounded_sqrt_of_squares.
  rewrite (square_of_abs dx Hx), (square_of_abs dy Hy).
  rewrite squares_are_exact by lia. f_equal. f_equal. lia.
Qed.

Lemma sqrt_iter_spec (n : nat) :
  fst (fst (Nat.iter n sqrt_step (1, F32.sqrtf (F32.of_int 0), true))) = 1 + Z.of_nat n /\
  snd (fst (Nat.iter n sqrt_step (1, F32.sqrtf (F32.of_int 0), true)))
    = F32.sqrtf (F32.of_int (Z.of_nat n)) /\
  (snd (Nat.iter n sqrt_step (1, F32.sqrtf (F32.of_int 0), true)) = true ->
   forall k, 0 <= k < Z.of_nat n ->
     F32.ltb (F32.sqrtf (F32.of_int k)) (F32.sqrtf (F32.of_int (k + 1))) = true).
Proof.
  induction n as [|n (IH1 & IH2 & IH3)].
  { split; [done|]. split; [done|]. intros _ k Hk. lia. }
  rewrite Nat.iter_succ.
  set (st := Nat.iter n sqrt_step (1, F32.sqrtf (F32.of_int 0), true)) in *.
  unfold sqrt_step. cbn [fst snd]. rewrite IH1, IH2.
  replace (1 + Z.of_nat n) with (Z.of_nat (S n)) by lia.
  split; [lia|]. split; [done|].
  destruct (snd st) eqn:E; [|done].
  intros Hlt k Hk. destruct (Z.eq_dec k (Z.of_nat n)) as [->|Hne].
  - by replace (Z.of_nat n + 1) with (Z.of_nat (S n)) by lia.
  - apply IH3; [done|lia].
Qed.

Lemma sqrt_increasing_to_spec (n : positive) :
  sqrt_increasing_to n = true ->
  forall k, 0 <= k < Z.pos n ->
    F32.ltb (F32.sqrtf (F32.of_int k)) (F32.sqrtf (F32.of_int (k + 1))) = true.
Proof.
  unfold sqrt_increasing_to. rewrite Pos2Nat.inj_iter. intros H k Hk.
  destruct (sqrt_iter_spec (Pos.to_nat n)) as (_ & _ & Hall).
  apply (Hall H). lia.
Qed.

Lemma sqrt_steps_up (n : Z) :
  0 <= n < 2 ^ 15 -> F32.ltb (F32.sqrtf (F32.of_int n)) (F32.sqrtf (F32.of_int (n + 1))) = true.
Proof.
  intros Hn.
  assert (H : sqrt_increasing_to (2 ^ 15) = true) by (vm_cast_no_check (eq_refl true)).
  apply (sqrt_increasing_to_spec (2 ^ 15) H). lia.
Qed.

Lemma sqrt_strictly_increasing (n m : Z) :
  0 <= n < m -> m <= 2 ^ 15 ->
  F32.ltb (F32.sqrtf (F32.of_int n)) (F32.sqrtf (F32.of_int m)) = true.
Proof.
  intros Hn Hm.
  assert (H : forall k : nat,
            n + 1 + Z.of_nat k <= 2 ^ 15 ->
            F32.ltb (F32.sqrtf (F32.of_int n))
                    (F32.sqrtf (F32.of_int (n + 1 + Z.of_nat k))) = true).
  { induction k as [|k IH]; intros Hk.
    - replace (n + 1 + Z.of_nat 0) with (n + 1) by lia. apply sqrt_steps_up. lia.
    - apply (F32Order.ltb_trans _ (F32.sqrtf (F32.of_int (n + 1 + Z.of_nat k)))).
      + apply IH. lia.
      + replace (n + 1 + Z.of_nat (S k)) with (n + 1 + Z.of_nat k + 1) by lia.
        apply sqrt_steps_up. lia. }
  replace m with (n + 1 + Z.of_nat (Z.to_nat (m - n - 1))) by lia.
  apply H. lia.
Qed.

(** On small coordinate differences the rounded distance orders focal
    points as the Euclidean distance does. *)
Lemma rounded_distance_order (f f' : FocalPoint) (t : Team) :
  Z.abs (focal_x f - team_x t) <= SMALL_GAP -> Z.abs (focal_y f - team_y t) <= SMALL_GAP ->
  Z.abs (focal_x f' - team_x t) <= SMALL_GAP -> Z.abs (focal_y f' - team_y t) <= SMALL_GAP ->
  (F32.leb (rounded_distance f t) (rounded_distance f' t) = true ->
   euclid2 f t <= euclid2 f' t) /\
  (F32.ltb (rounded_distance f t) (rounded_distance f' t) = true ->
   euclid2 f t < euclid2 f' t).
Proof.
  intros Hx Hy Hx' Hy'. unfold rounded_distance.
  rewrite !rounded_sqrt_of_squares_exact by done.
  fold (euclid2 f t). fold (euclid2 f' t).
  assert (Hb : forall g : FocalPoint,
            Z.abs (focal_x g - team_x t) <= SMALL_GAP ->
            Z.abs (focal_y g - team_y t) <= SMALL_GAP ->
            0 <= euclid2 g t <= 2 ^ 15).
  { intros g H1 H2. unfold euclid2, SMALL_GAP in *. nia. }
  pose proof (Hb f Hx Hy) as B1. pose proof (Hb f' Hx' Hy') as B2.
  split; intros H.
  - destruct (Z_le_gt_dec (euclid2 f t) (euclid2 f' t)) as [|Hgt]; [done|].
    pose proof (sqrt_strictly_increasing (euclid2 f' t) (euclid2 f t) ltac:(lia) ltac:(lia))
      as Hlt.
    pose proof (F32Order.ltb_leb_trans _ _ _ Hlt H) as Hc.
    by rewrite F32Order.ltb_irrefl in Hc.
  - destruct (Z_lt_le_dec (euclid2 f t) (euclid2 f' t)) as [|Hge]; [done|].
    destruct (Z.eq_dec (euclid2 f t) (euclid2 f' t)) as [E|Hne].
    + rewrite E in H. by rewrite F32Order.ltb_irrefl in H.
    + pose proof (sqrt_strictly_increasing (euclid2 f' t) (euclid2 f t) ltac:(lia) ltac:(lia))
        as Hlt.
      pose proof (F32Order.ltb_trans _ _ _ H Hlt) as Hc.
      by rewrite F32Order.ltb_irrefl in Hc.
Qed.

End SmallGaps.

(** ** Targeting *)

Section Targeting.
Variable t : Team.

Let ld (f : FocalPoint) : float := local_distance f t.

Lemma nearest_focal_spec (fs : list FocalPoint) (j0 : Z) (d : float) (tg : Z) :
  F32.is_nan d = false ->
  (forall k f, fs !! k = Some f -> focal_active f = Active -> F32.is_nan (ld f) = false) ->
  let r := nearest_focal fs j0 t d tg in
  (r = tg /\
   forall (k : nat) f, fs !! k = Some f -> focal_active f = Active ->
                       F32.ltb (ld f) d = false) \/
  (exists (k : nat) f,
     r = j0 + Z.of_nat k /\ fs !! k = Some f /\ focal_active f = Active /\
     F32.ltb (ld f) d = true /\
     (forall (k' : nat) f', fs !! k' = Some f' -> focal_active f' = Active ->
        F32.ltb (ld f') (ld f) = false) /\
     (forall (k' : nat) f', (k' < k)%nat -> fs !! k' = Some f' ->
        focal_active f' = Active -> F32.ltb (ld f) (ld f') = true)).
Proof.
  revert j0 d tg. induction fs as [|f0 rest IH]; intros j0 d tg Hd Hnan; simpl.
  { left. split; [done|]. intros k f Hk. done. }
  assert (Hrest : forall k f, rest !! k = Some f -> focal_active f = Active ->
                    F32.is_nan (ld f) = false).
  { intros k f Hk. apply (Hnan (S k) f Hk). }
  destruct (focal_active f0 =? Active) eqn:Ea; simpl.
  2:{ apply Z.eqb_neq in Ea.
      destruct (IH (j0 + 1) d tg Hd Hrest) as [[Hr Hall] | (k & f & Hr & Hk & Hact & Hlt & Hmin & Hearly)].
      - left. split; [done|]. intros [|k] f Hk Hact; simpl in Hk.
        + inversion Hk; subst. done.
        + by apply (Hall k f).
      - right. exists (S k), f. repeat split; try done.
        + lia.
        + intros [|k'] f' Hk' Hact'; simpl in Hk'.
          * inversion Hk'; subst. done.
          * by apply (Hmin k' f').
        + intros [|k'] f' Hlt' Hk' Hact'; simpl in Hk'.
          * inversion Hk'; subst. done.
          * apply (Hearly k' f'); [lia|done..]. }
  apply Z.eqb_eq in Ea.
  assert (Hn0 : F32.is_nan (ld f0) = false) by (by apply (Hnan O f0)).
  fold (ld f0). destruct (F32.ltb (ld f0) d) eqn:E0.
  - destruct (IH (j0 + 1) (ld f0) j0 Hn0 Hrest)
      as [[Hr Hall] | (k & f & Hr & Hk & Hact & Hlt & Hmin & Hearly)].
    + right. exists O, f0. repeat split; try done.
      * lia.
      * intros [|k'] f' Hk' Hact'; simpl in Hk'.
        -- inversion Hk'; subst. apply F32Order.ltb_irrefl.
        -- by apply (Hall k' f').
      * intros k' f' Hlt'. lia.
    + right. exists (S k), f. repeat split; try done.
      * lia.
      * by apply (F32Order.ltb_trans _ (ld f0)).
      * intros [|k'] f' Hk' Hact'; simpl in Hk'.
        -- inversion Hk'; subst. destruct (F32.ltb (ld f') (ld f)) eqn:E; [|done].
           pose proof (F32Order.ltb_trans _ _ _ Hlt E) as Hc.
           by rewrite F32Order.ltb_irrefl in Hc.
        -- by apply (Hmin k' f').
      * intros [|k'] f' Hlt' Hk' Hact'; simpl in Hk'.
        -- inversion Hk'; subst. done.
        -- apply (Hearly k' f'); [lia|done..].
  - destruct (IH (j0 + 1) d tg Hd Hrest)
      as [[Hr Hall] | (k & f & Hr & Hk & Hact & Hlt & Hmin & Hearly)].
    + left. split; [done|]. intros [|k] f Hk Hact; simpl in Hk.
      * inversion Hk; subst. done.
      * by apply (Hall k f).
    + right. exists (S k), f.
      assert (Hf0 : F32.ltb (ld f) (ld f0) = true).
      { apply (F32Order.ltb_leb_trans _ d); [done|].
        by apply F32Order.ltb_false_leb. }
      repeat split; try done.
      * lia.
      * intros [|k'] f' Hk' Hact'; simpl in Hk'.
        -- inversion Hk'; subst. destruct (F32.ltb (ld f') (ld f)) eqn:E; [|done].
           pose proof (F32Order.ltb_trans _ _ _ E Hf0) as Hc.
           by rewrite F32Order.ltb_irrefl in Hc.
        -- by apply (Hmin k' f').
      * intros [|k'] f' Hlt' Hk' Hact'; simpl in Hk'.
        -- inversion Hk'; subst. done.
        -- apply (Hearly k' f'); [lia|done..].
Qed.

Lemma move_keeps_target f t0 :
  team_target (move_type1 f t0) = team_target t0 /\
  team_target (move_type2 f t0) = team_target t0 /\
  team_target (move_type3 f t0) = team_target t0.
Proof.
  unfold move_type1, move_type2, move_type3.
  repeat split; repeat (destruct (_ <? _) || destruct (_ >? _)); done.
Qed.

Lemma move_team_target (fs : list FocalPoint) :
  team_target (move_team fs t) = choose_target fs t.
Proof.
  unfold move_team. destruct (_ =? -1); [done|].
  destruct (fs !! _) as [f|]; [|done].
  destruct (move_keeps_target f (set_target (choose_target fs t) t)) as (H1 & H2 & H3).
  simpl. destruct (_ =? 1); [done|]. destruct (_ =? 2); done.
Qed.

End Targeting.

(** C7, as stated, fails.  A team at (0,0) and two Active focal points, at
    (4096,1) and at (4096,0).  The second is nearer (squares of the distances
    16777217 and 16777216), but 16777217 is not a single-precision number:
    both computed distances are 4096.0, the comparison [<] does not replace
    the first, and the target is index 0. *)
Lemma nearer_focal_point_not_chosen :
  let far := mkFocal 4096 1 0 100 Active in
  let near := mkFocal 4096 0 0 100 Active in
  let t := mkTeam 0 0 1 0 in
  euclid2 near t < euclid2 far t /\
  local_distance far t = F32.of_int 4096 /\
  local_distance near t = F32.of_int 4096 /\
  choose_target [far; near] t = 0 /\
  team_target (move_team [far; near] t) = 0.
Proof. vm_compute. repeat split. Qed.

(** C7 (amended). The target of a team is the index of the Active focal
    point at the least distance from the team's position, the distance being
    [sqrtf(dx*dx + dy*dy)] evaluated in single precision from the integer
    coordinate differences; among the focal points at that least computed
    distance it is the one of lowest index.  When no coordinate difference to
    an Active focal point exceeds 127 in absolute value, the target is the
    Active focal point at the least Euclidean distance, the one of lowest
    index among those.  With no Active focal point the target is [-1] and the
    team keeps its position.  The coordinate differences are values of type
    [int] (the subtraction does not overflow). *)
Theorem target_is_nearest_active (fs : list FocalPoint) (t : Team) :
  Forall (fun f => focal_active f = Active ->
                   int_range (focal_x f - team_x t) /\
                   int_range (focal_y f - team_y t)) fs ->
  let target := choose_target fs t in
  let t' := move_team fs t in
  team_target t' = target /\
  ((forall (k : nat) f, fs !! k = Some f -> focal_active f <> Active) ->
     target = -1 /\ team_x t' = team_x t /\ team_y t' = team_y t) /\
  ((exists (k : nat) f, fs !! k = Some f /\ focal_active f = Active) ->
     exists (k : nat) f,
       target = Z.of_nat k /\ fs !! k = Some f /\ focal_active f = Active /\
       (forall (k' : nat) f', fs !! k' = Some f' -> focal_active f' = Active ->
          F32.leb (rounded_distance f t) (rounded_distance f' t) = true) /\
       (forall (k' : nat) f', (k' < k)%nat -> fs !! k' = Some f' ->
          focal_active f' = Active ->
          F32.ltb (rounded_distance f t) (rounded_distance f' t) = true) /\
       (Forall (fun f => focal_active f = Active ->
                         Z.abs (focal_x f - team_x t) <= SMALL_GAP /\
                         Z.abs (focal_y f - team_y t) <= SMALL_GAP) fs ->
        (forall (k' : nat) f', fs !! k' = Some f' -> focal_active f' = Active ->
           euclid2 f t <= euclid2 f' t) /\
        (forall (k' : nat) f', (k' < k)%nat -> fs !! k' = Some f' ->
           focal_active f' = Active -> euclid2 f t < euclid2 f' t))).
Proof.
  intros Hrange target t'.
  assert (Hld : forall f, local_distance f t = rounded_distance f t) by reflexivity.
  assert (Hlt : forall (k : nat) f, fs !! k = Some f -> focal_active f = Active ->
            F32.ltb (local_distance f t) F32.FLT_MAX = true).
  { intros k f Hk Ha.
    destruct (proj1 (Forall_lookup _ _) Hrange k f Hk Ha) as [Hx Hy].
    by apply F32Bounds.distance_lt_FLT_MAX. }
  assert (Hnan : forall (k : nat) f, fs !! k = Some f -> focal_active f = Active ->
            F32.is_nan (local_distance f t) = false).
  { intros k f Hk Ha. by apply (F32Order.ltb_not_nan _ _ (Hlt k f Hk Ha)). }
  pose proof (nearest_focal_spec t fs 0 F32.FLT_MAX (-1) eq_refl Hnan) as Hspec.
  fold (choose_target fs t) in Hspec. fold target in Hspec. cbv zeta in Hspec.
  split; [apply move_team_target|]. split.
  - intros Hnone.
    assert (target = -1) as E.
    { destruct Hspec as [[Hr _] | (k & f & _ & Hk & Hact & _)]; [done|].
      by destruct (Hnone k f Hk). }
    split; [done|]. unfold t', move_team. fold target. rewrite E. done.
  - intros (k0 & f0 & Hk0 & Ha0).
    destruct Hspec as [[_ Hall] | (k & f & Hr & Hk & Hact & _ & Hmin & Hearly)].
    { pose proof (Hall k0 f0 Hk0 Ha0) as Hc.
      rewrite (Hlt k0 f0 Hk0 Ha0) in Hc. discriminate. }
    assert (Hleast : forall (k' : nat) f', fs !! k' = Some f' -> focal_active f' = Active ->
              F32.leb (rounded_distance f t) (rounded_distance f' t) = true).
    { intros k' f' Hk' Ha'. rewrite <- !Hld. apply F32Order.ltb_false_leb; eauto. }
    assert (Hfirst : forall (k' : nat) f', (k' < k)%nat -> fs !! k' = Some f' ->
              focal_active f' = Active ->
              F32.ltb (rounded_distance f t) (rounded_distance f' t) = true).
    { intros k' f' Hlt' Hk' Ha'. rewrite <- !Hld. eauto. }
    exists k, f. split; [lia|]. split; [done|]. split; [done|].
    split; [exact Hleast|]. split; [exact Hfirst|].
    intros Hsmall.
    assert (Hgap : forall (k' : nat) f', fs !! k' = Some f' -> focal_active f' = Active ->
              Z.abs (focal_x f' - team_x t) <= SMALL_GAP /\
              Z.abs (focal_y f' - team_y t) <= SMALL_GAP).
    { intros k' f' Hk' Ha'. exact (proj1 (Forall_lookup _ _) Hsmall k' f' Hk' Ha'). }
    destruct (Hgap k f Hk Hact) as [Gx Gy].
    split.
    + intros k' f' Hk' Ha'. destruct (Hgap k' f' Hk' Ha') as [Gx' Gy'].
      apply (SmallGaps.rounded_distance_order f f' t Gx Gy Gx' Gy'). eauto.
    + intros k' f' Hlt' Hk' Ha'. destruct (Hgap k' f' Hk' Ha') as [Gx' Gy'].
      apply (SmallGaps.rounded_distance_order f f' t Gx Gy Gx' Gy'). eauto.
Qed.

Lemma target_is_nearest_active_witness :
  Forall (fun f => focal_active f = Active ->
            int_range (focal_x f - team_x team_at_origin) /\
            int_range (focal_y f - team_y team_at_origin)) focal_around_origin /\
  exists (k : nat) f,
    choose_target focal_around_origin team_at_origin = Z.of_nat k /\
    focal_around_origin !! k = Some f /\ focal_active f = Active /\
    (forall (k' : nat) f', focal_around_origin !! k' = Some f' -> focal_active f' = Active ->
       F32.leb (rounded_distance f team_at_origin)
               (rounded_distance f' team_at_origin) = true) /\
    (forall (k' : nat) f', (k' < k)%nat -> focal_around_origin !! k' = Some f' ->
       focal_active f' = Active ->
       F32.ltb (rounded_distance f team_at_origin)
               (rounded_distance f' team_at_origin) = true) /\
    (Forall (fun f => focal_active f = Active ->
                      Z.abs (focal_x f - team_x team_at_origin) <= SMALL_GAP /\
                      Z.abs (focal_y f - team_y team_at_origin) <= SMALL_GAP)
            focal_around_origin ->
     (forall (k' : nat) f', focal_around_origin !! k' = Some f' -> focal_active f' = Active ->
        euclid2 f team_at_origin <= euclid2 f' team_at_origin) /\
     (forall (k' : nat) f', (k' < k)%nat -> focal_around_origin !! k' = Some f' ->
        focal_active f' = Active ->
        euclid2 f team_at_origin < euclid2 f' team_at_origin)).
Proof.
  assert (H : Forall (fun f => focal_active f = Active ->
            int_range (focal_x f - team_x team_at_origin) /\
            int_range (focal_y f - team_y team_at_origin)) focal_around_origin).
  { repeat constructor; unfold int_range, INT_MIN, INT_MAX; simpl; lia. }
  split; [exact H|].
  apply (proj2 (proj2 (target_is_nearest_active focal_around_origin team_at_origin H))).
  exists O, (mkFocal 3 4 0 10 Active). split; reflexivity.
Defined.

(** The scan on the focal points around the origin: the first two are
    Active at distance 5, the scan keeps the first. *)
Example choose_target_tie :
  choose_target focal_around_origin team_at_origin = 0.
Proof. vm_compute. reflexivity. Qed.

(** ** Deactivation *)

Section Deactivation.

Lemma advanced_refl f : advanced f f.
Proof. unfold advanced. auto 10. Qed.

Lemma advanced_trans f g h : advanced f g -> advanced g h -> advanced f h.
Proof.
  unfold advanced. intros (?&?&?&?&S1) (?&?&?&?&S2).
  repeat split; try congruence.
  destruct S1 as [E1|[E1 E1']], S2 as [E2|[E2 E2']].
  - left. congruence.
  - right. split; congruence.
  - right. split; congruence.
  - unfold Active, Deactivated in *. congruence.
Qed.

Lemma advanced_deactivated f f' :
  advanced f f' -> focal_active f = Deactivated -> f' = f.
Proof.
  unfold advanced. intros (?&?&?&?&[E|[E _]]) Hd.
  - destruct f, f'; simpl in *; congruence.
  - unfold Active, Deactivated in *. congruence.
Qed.

Lemma deactivate_target_length fs t : length (deactivate_target fs t) = length fs.
Proof.
  unfold deactivate_target. destruct (_ =? -1); [done|].
  destruct (fs !! _); [|done]. destruct (_ && _); [|done]. apply length_insert.
Qed.

Lemma deactivate_target_advanced fs t (j : nat) f :
  fs !! j = Some f ->
  exists f', deactivate_target fs t !! j = Some f' /\ advanced f f'.
Proof.
  intros Hj. unfold deactivate_target. destruct (_ =? -1).
  { exists f. split; [done|apply advanced_refl]. }
  destruct (fs !! Z.to_nat (team_target t)) as [g|] eqn:Eg.
  2:{ exists f. split; [done|apply advanced_refl]. }
  destruct (_ && _) eqn:Ec.
  2:{ exists f. split; [done|apply advanced_refl]. }
  destruct (decide (Z.to_nat (team_target t) = j)) as [E|Hne].
  - rewrite E in Eg. assert (g = f) by congruence. subst g.
    exists (set_active Deactivated f). split.
    + rewrite E. apply list_lookup_insert_eq. by apply lookup_lt_Some in Hj.
    + apply andb_true_iff in Ec as [_ Ea]. apply Z.eqb_eq in Ea.
      unfold advanced. simpl. auto 10.
  - exists f. split; [by rewrite list_lookup_insert_ne | apply advanced_refl].
Qed.

Lemma deactivate_target_hit fs t (j : nat) f :
  team_target t = Z.of_nat j -> fs !! j = Some f ->
  focal_x f = team_x t -> focal_y f = team_y t ->
  focal_active f = Active \/ focal_active f = Deactivated ->
  exists f', deactivate_target fs t !! j = Some f' /\ focal_active f' = Deactivated.
Proof.
  intros Ht Hj Hx Hy Ha. unfold deactivate_target. rewrite Ht.
  rewrite (proj2 (Z.eqb_neq _ _)) by lia. rewrite Nat2Z.id, Hj.
  rewrite Hx, Hy, !Z.eqb_refl. simpl.
  destruct Ha as [Ha|Ha].
  - rewrite Ha. simpl. exists (set_active Deactivated f). split; [|done].
    apply list_lookup_insert_eq. by apply lookup_lt_Some in Hj.
  - rewrite Ha. simpl. by exists f.
Qed.

Lemma fold_deactivate_advanced ts fs (j : nat) f :
  fs !! j = Some f ->
  exists f', fold_left deactivate_target ts fs !! j = Some f' /\ advanced f f'.
Proof.
  revert fs f. induction ts as [|t ts IH]; intros fs f Hj; simpl.
  { exists f. split; [done|apply advanced_refl]. }
  destruct (deactivate_target_advanced fs t j f Hj) as (g & Hg & Hfg).
  destruct (IH _ _ Hg) as (h & Hh & Hgh).
  exists h. split; [done|]. by apply (advanced_trans f g h).
Qed.

Lemma fold_deactivate_hit ts fs t (j : nat) f :
  t ∈ ts -> team_target t = Z.of_nat j -> fs !! j = Some f ->
  focal_x f = team_x t -> focal_y f = team_y t ->
  focal_active f = Active \/ focal_active f = Deactivated ->
  exists f', fold_left deactivate_target ts fs !! j = Some f' /\
             focal_active f' = Deactivated.
Proof.
  revert fs f. induction ts as [|t0 ts IH]; intros fs f Hin Ht Hj Hx Hy Ha.
  { by apply elem_of_nil in Hin. }
  simpl. apply elem_of_cons in Hin as [<-|Hin].
  - destruct (deactivate_target_hit fs t j f Ht Hj Hx Hy Ha) as (g & Hg & Hgd).
    destruct (fold_deactivate_advanced ts _ j g Hg) as (h & Hh & Hgh).
    exists h. split; [done|]. by rewrite (advanced_deactivated g h Hgh Hgd).
  - destruct (deactivate_target_advanced fs t0 j f Hj) as (g & Hg & Hfg).
    destruct Hfg as (Gx & Gy & _ & _ & Hst).
    apply (IH _ g Hin Ht Hg); [congruence..|].
    destruct Hst as [E|[_ E]]; [rewrite E; done | by right].
Qed.

Lemma activate_focal_lookup iter fs (j : nat) f :
  fs !! j = Some f ->
  activate_focal iter fs !! j
  = Some (if focal_start f =? iter then set_active Active f else f).
Proof. intros Hj. unfold activate_focal. by rewrite list_lookup_fmap, Hj. Qed.

End Deactivation.

Lemma fold_deactivate_length ts fs : length (fold_left deactivate_target ts fs) = length fs.
Proof.
  revert fs. induction ts as [|t ts IH]; intros fs; simpl; [done|].
  by rewrite IH, deactivate_target_length.
Qed.

(** Where a focal point of a worker comes from, one iteration earlier. *)
Lemma iteration_focal_lookup (cfg : Config) iter procs (r j : nat) q f' :
  iteration cfg iter procs !! r = Some q -> focal q !! j = Some f' ->
  exists p f, procs !! r = Some p /\ focal p !! j = Some f /\
    advanced (if focal_start f =? iter then set_active Active f else f) f'.
Proof.
  intros Hq Hj. apply iteration_replicated in Hq as (p & Hp & Erep & _).
  unfold replicated_step in Erep. cbn [fst snd] in Erep.
  injection Erep as _ Ef. rewrite Ef in Hj.
  assert (is_Some (focal p !! j)) as [f Hf].
  { apply lookup_lt_is_Some. apply lookup_lt_Some in Hj.
    by rewrite fold_deactivate_length, activate_focal_length in Hj. }
  exists p, f. split; [done|]. split; [done|].
  pose proof (activate_focal_lookup iter (focal p) j f Hf) as Ha.
  destruct (fold_deactivate_advanced
              (move_teams (activate_focal iter (focal p)) (teams p)) _ j _ Ha)
    as (g & Hg & Hadv).
  assert (g = f') by congruence. by subst.
Qed.

Lemma simulation_loop_add (cfg : Config) (a b : nat) iter procs :
  simulation_loop (a + b) cfg iter procs =
  simulation_loop b cfg (fst (simulation_loop a cfg iter procs))
                        (snd (simulation_loop a cfg iter procs)).
Proof.
  revert iter procs. induction a as [|a IH]; intros iter procs; simpl; [done|].
  destruct (running cfg iter procs) eqn:E; [apply IH|].
  simpl. destruct b; simpl; [done|]. by rewrite E.
Qed.

(** A focal point that has left state 0 was activated at an earlier iteration. *)
Lemma started_before_invariant (cfg : Config) iter procs :
  (forall (r j : nat) p f, procs !! r = Some p -> focal p !! j = Some f ->
     focal_active f <> Inactive -> focal_start f < iter) ->
  forall (r j : nat) q f', iteration cfg iter procs !! r = Some q ->
    focal q !! j = Some f' -> focal_active f' <> Inactive -> focal_start f' < iter + 1.
Proof.
  intros Hinv r j q f' Hq Hj Hact.
  destruct (iteration_focal_lookup cfg iter procs r j q f' Hq Hj)
    as (p & f & Hp & Hf & Hadv).
  destruct (focal_start f =? iter) eqn:E.
  - apply Z.eqb_eq in E. destruct Hadv as (_ & _ & Hs & _). simpl in Hs. lia.
  - destruct Hadv as (_ & _ & Hs & _ & Hst).
    assert (focal_active f <> Inactive).
    { destruct Hst as [Hst|[Hst _]]; [congruence|]. rewrite Hst. done. }
    specialize (Hinv r j p f Hp Hf H). lia.
Qed.

Lemma deactivated_kept_by_iteration (cfg : Config) iter procs (r j : nat) p f :
  procs !! r = Some p -> focal p !! j = Some f ->
  focal_active f = Deactivated -> focal_start f < iter ->
  exists q, iteration cfg iter procs !! r = Some q /\ focal q !! j = Some f.
Proof.
  intros Hp Hf Hd Hs.
  assert (is_Some (iteration cfg iter procs !! r)) as [q Hq].
  { apply lookup_lt_is_Some. rewrite iteration_length. by apply lookup_lt_Some in Hp. }
  exists q. split; [done|].
  pose proof Hq as Hq'. apply iteration_replicated in Hq' as (p' & Hp' & Erep & _).
  assert (p' = p) by congruence. subst p'.
  unfold replicated_step in Erep. cbn [fst snd] in Erep. injection Erep as _ Ef.
  assert (is_Some (focal q !! j)) as [f' Hf'].
  { apply lookup_lt_is_Some. rewrite Ef, fold_deactivate_length, activate_focal_length.
    by apply lookup_lt_Some in Hf. }
  destruct (iteration_focal_lookup cfg iter procs r j q f' Hq Hf')
    as (p2 & f2 & Hp2 & Hf2 & Hadv).
  assert (p2 = p) by congruence. subst p2.
  assert (f2 = f) by congruence. subst f2.
  rewrite (proj2 (Z.eqb_neq _ _)) in Hadv by lia.
  by rewrite (advanced_deactivated f f' Hadv Hd) in Hf'.
Qed.

(** C8, as stated, fails.  One worker, two focal points at (2,2) that both
    start at iteration 0, and a team standing at (2,2).  In iteration 0 both
    focal points are Active after the activation loop; the team targets the
    first one and stays at (2,2); after the team-action phase the first is
    Deactivated and the second is still Active, although the team is at its
    coordinates. *)
Lemma occupied_twin_stays_active :
  let procs0 := init_procs cfg_one_worker_two_focal teams_at_twins focal_twins in
  let procs1 := iteration cfg_one_worker_two_focal 0 procs0 in
  map (fun p => map focal_active (focal p)) (activated 0 procs0) = [[Active; Active]] /\
  map teams procs1 = [[mkTeam 2 2 1 0]] /\
  map focal procs1 = [[mkFocal 2 2 0 0 Deactivated; mkFocal 2 2 0 0 Active]].
Proof. vm_compute. repeat split. Qed.

(** C8 (amended). When, after the movement phase, a team stands on the
    coordinates of its target focal point and that focal point is Active, the
    focal point is Deactivated by the end of the team-action phase of the
    iteration.  A Deactivated focal point stays as it is: in a run started
    with all focal points in state 0, a focal point found Deactivated at the
    start of an iteration is found unchanged at every later one. *)
Theorem reached_target_is_deactivated (cfg : Config) (ts0 : list Team)
    (fs0 : list FocalPoint) :
  Forall (fun f => focal_active f = Inactive) fs0 ->
  (forall (rank : Z) (fs : list FocalPoint) (ts : list Team) (surf : buffer),
     let ts' := move_teams fs ts in
     let fs' := fst (team_actions cfg rank ts' fs surf) in
     forall t (j : nat) f,
       t ∈ ts' -> team_target t = Z.of_nat j -> fs !! j = Some f ->
       focal_x f = team_x t -> focal_y f = team_y t -> focal_active f = Active ->
       exists f', fs' !! j = Some f' /\ focal_active f' = Deactivated) /\
  (forall (fuel more : nat) it1 ps1 it2 ps2,
     simulation_loop fuel cfg 0 (init_procs cfg ts0 fs0) = (it1, ps1) ->
     simulation_loop (fuel + more) cfg 0 (init_procs cfg ts0 fs0) = (it2, ps2) ->
     forall (r j : nat) p1 f,
       ps1 !! r = Some p1 -> focal p1 !! j = Some f -> focal_active f = Deactivated ->
       exists p2, ps2 !! r = Some p2 /\ focal p2 !! j = Some f).
Proof.
  intros Hinit. split.
  - intros rank fs ts surf ts' fs' t j f Hin Ht Hj Hx Hy Ha.
    unfold fs'. rewrite team_actions_focal.
    apply (fold_deactivate_hit ts' fs t j f); auto.
  - intros fuel more it1 ps1 it2 ps2 H1 H2 r j p1 f Hp1 Hf Hd.
    (* every state of the run satisfies the activation invariant *)
    pose proof (simulation_loop_invariant
      (fun it ps => forall (r j : nat) p f, ps !! r = Some p -> focal p !! j = Some f ->
         focal_active f <> Inactive -> focal_start f < it) cfg
      ltac:(intros it ps HP _; exact (started_before_invariant cfg it ps HP))
      fuel 0 (init_procs cfg ts0 fs0)) as Hinv.
    rewrite H1 in Hinv. cbn [fst snd] in Hinv.
    assert (Hinv1 : forall (r j : nat) p f, ps1 !! r = Some p -> focal p !! j = Some f ->
              focal_active f <> Inactive -> focal_start f < it1).
    { apply Hinv. intros r' j' p f' Hp Hf' Hact.
      apply init_procs_lookup in Hp. subst p. simpl in Hf'.
      destruct Hact. by apply (proj1 (Forall_lookup _ _) Hinit j' f'). }
    clear Hinv.
    rewrite simulation_loop_add, H1 in H2. cbn [fst snd] in H2.
    pose proof (simulation_loop_invariant
      (fun it ps =>
         (forall (r j : nat) p f, ps !! r = Some p -> focal p !! j = Some f ->
            focal_active f <> Inactive -> focal_start f < it) /\
         exists p2, ps !! r = Some p2 /\ focal p2 !! j = Some f) cfg) as Hrun.
    assert (Hrun' := Hrun
      ltac:(intros it ps [HP (p & Hp & Hpf)] _; split;
            [exact (started_before_invariant cfg it ps HP)|];
            apply (deactivated_kept_by_iteration cfg it ps r j p f Hp Hpf Hd);
            apply (HP r j p f Hp Hpf); rewrite Hd; done)
      more it1 ps1).
    rewrite H2 in Hrun'. cbn [fst snd] in Hrun'.
    apply Hrun'. split; [exact Hinv1|]. by exists p1.
Qed.

Lemma reached_target_is_deactivated_witness :
  Forall (fun f => focal_active f = Inactive) focal_center /\
  exists f', fst (team_actions cfg_one_worker 0
                    (move_teams [mkFocal 2 2 0 100 Active] [mkTeam 1 1 1 0])
                    [mkFocal 2 2 0 100 Active] (init_buffer cfg_one_worker))
             !! O = Some f' /\ focal_active f' = Deactivated.
Proof.
  assert (H : Forall (fun f => focal_active f = Inactive) focal_center).
  { repeat constructor. }
  split; [exact H|].
  destruct (reached_target_is_deactivated cfg_one_worker teams_diagonal focal_center H)
    as [Hact _].
  apply (Hact 0 [mkFocal 2 2 0 100 Active] [mkTeam 1 1 1 0] (init_buffer cfg_one_worker)
           (mkTeam 2 2 1 0) O (mkFocal 2 2 0 100 Active)); try reflexivity.
  vm_compute. apply list_elem_of_here.
Defined.

(** ** The copy of the surface *)

Section Copy.
Variable cfg : Config.

Lemma copy_rows_length (surf : buffer) lo hi (c : buffer) :
  length (for_range lo hi (fun i c =>
            for_range 0 (columns cfg) (fun j c =>
              setMat cfg c i j (accessMat cfg surf i j)) c) c) = length c.
Proof.
  apply (for_range_preserves (fun c' : buffer => length c' = length c)); [done|].
  intros i c' _ H. by rewrite row_writes_length.
Qed.

Lemma copy_rows_miss (surf : buffer) lo hi (c : buffer) (n : nat) :
  (forall i j, lo <= i < hi -> 0 <= j < columns cfg -> n <> offset cfg i j) ->
  for_range lo hi (fun i c =>
    for_range 0 (columns cfg) (fun j c =>
      setMat cfg c i j (accessMat cfg surf i j)) c) c !! n = c !! n.
Proof.
  intros H.
  apply (for_range_preserves (fun c' : buffer => c' !! n = c !! n)); [done|].
  intros i c' Hi E. rewrite row_writes_miss; [done|]. intros j Hj. by apply H.
Qed.

(** After the copy loops the ancillary buffer holds the surface, halo rows
    included. *)
Lemma copy_surface_eq (surf copy : buffer) :
  0 <= columns cfg ->
  length surf = Z.to_nat (local_nrows cfg * columns cfg) ->
  length copy = Z.to_nat (local_nrows cfg * columns cfg) ->
  copy_surface cfg surf copy = surf.
Proof.
  intros Hcols Hs Hc. apply list_eq. intros n. unfold copy_surface.
  destruct (decide (n < length surf)%nat) as [Hn|Hn].
  2:{ rewrite (lookup_ge_None_2 surf) by lia.
      apply lookup_ge_None_2. rewrite copy_rows_length. lia. }
  assert (Hp : 0 < local_nrows cfg * columns cfg) by lia.
  assert (Hcol : 0 < columns cfg).
  { destruct (Z.eq_dec (columns cfg) 0) as [E|E]; [|lia].
    rewrite E, Z.mul_0_r in Hp. lia. }
  assert (Hrow : 0 < local_nrows cfg).
  { destruct (Z_lt_ge_dec 0 (local_nrows cfg)); [done|]. nia. }
  set (i := Z.of_nat n / columns cfg). set (j := Z.of_nat n mod columns cfg).
  assert (Hj : 0 <= j < columns cfg) by (apply Z.mod_pos_bound; lia).
  assert (Hi0 : 0 <= i) by (apply Z.div_pos; lia).
  assert (Hn' : Z.of_nat n = i * columns cfg + j).
  { unfold i, j. rewrite Z.mul_comm. apply Z.div_mod. lia. }
  assert (Hi : i < local_nrows cfg) by nia.
  assert (Hoff : n = offset cfg i j) by (unfold offset; lia).
  rewrite Hoff.
  rewrite (for_range_split 0 (i + 1) (local_nrows cfg)) by lia.
  rewrite copy_rows_miss.
  - rewrite for_range_snoc by lia.
    rewrite (row_writes_hit cfg _ i 0 (columns cfg)
               (fun j => accessMat cfg surf i j)); try lia.
    + unfold accessMat. symmetry. apply list_lookup_lookup_total_lt. lia.
    + rewrite copy_rows_length. lia.
  - intros i' j' Hi' Hj' E. apply offset_inj in E; lia.
Qed.

End Copy.

(** ** The stability vote *)

Lemma allreduce_sum_cons (x : Z) (l : list Z) :
  MPI_Allreduce_sum (x :: l) = x + MPI_Allreduce_sum l.
Proof.
  unfold MPI_Allreduce_sum. simpl.
  assert (H : forall (l : list Z) a, fold_left Z.add l a = a + fold_left Z.add l 0).
  { clear. induction l as [|y l IH]; intros a; simpl; [lia|].
    rewrite (IH (a + y)), (IH (0 + y)). lia. }
  rewrite (H l (0 + x)), Z.add_0_l. reflexivity.
Qed.

(** The summed count is the local count times the number of workers when
    the focal points are replicated. *)
Lemma num_deactivated_replicated (iter : Z) (procs : list Proc) (fs : list FocalPoint) :
  Forall (fun p => focal p = fs) procs ->
  num_deactivated iter procs
  = Z.of_nat (length procs) * count_deactivated (activate_focal iter fs).
Proof.
  unfold num_deactivated. induction 1 as [|p procs Hp _ IH].
  { simpl. unfold MPI_Allreduce_sum. simpl. lia. }
  rewrite !map_cons, allreduce_sum_cons, IH.
  destruct (activate_proc_spec iter p) as (_ & _ & _ & _ & _ & ->).
  rewrite Hp. simpl length. lia.
Qed.

Lemma count_deactivated_total (fs : list FocalPoint) :
  count_deactivated fs <= Z.of_nat (length fs) /\
  (count_deactivated fs = Z.of_nat (length fs) <->
   Forall (fun f => focal_active f = Deactivated) fs).
Proof.
  unfold count_deactivated. induction fs as [|f fs [IH1 IH2]].
  { simpl. split; [lia|]. split; [constructor|done]. }
  rewrite filter_cons. destruct (decide _) as [E|E]; simpl length.
  - split; [lia|]. rewrite Forall_cons. split.
    + intros H. split; [done|]. apply IH2. lia.
    + intros [_ H]. apply IH2 in H. lia.
  - split; [lia|]. rewrite Forall_cons. split; [lia|]. intros [H _]. done.
Qed.

(** With a single worker that holds [num_focal] focal points the flag is
    set by the test exactly when every focal point is Deactivated and the
    residual is below the threshold. *)
Lemma stability_single_worker (cfg : Config) (iter : Z) (p q : Proc) :
  num_focal cfg = Z.of_nat (length (focal p)) ->
  flag_stability p = false ->
  iteration cfg iter [p] !! O = Some q ->
  flag_stability q = true <->
  Forall (fun f => focal_active f = Deactivated) (activate_focal iter (focal p)) /\
  F32.ltb (snd (propagate cfg (activated iter [p]))) THRESHOLD = true.
Proof.
  intros Hnum Hflag Hq. apply iteration_replicated in Hq as (p' & Hp' & _ & ->).
  injection Hp' as <-.
  rewrite (num_deactivated_replicated iter [p] (focal p)) by (by repeat constructor).
  unfold stability_test. rewrite Hflag, Hnum. simpl length.
  rewrite <- (proj2 (count_deactivated_total (activate_focal iter (focal p)))).
  rewrite activate_focal_length.
  destruct (Z.eqb_spec (Z.of_nat 1 * count_deactivated (activate_focal iter (focal p)))
              (Z.of_nat (length (focal p)))) as [E|E];
    destruct (F32.ltb _ THRESHOLD); cbn [andb]; split; try done; try lia;
    intros [? ?]; try done; lia.
Qed.

(** C1, on the code.  Two workers, one focal point, deactivated during
    iteration 0.  At the stability test of iteration 1 every focal point is
    Deactivated and the global residual is below [THRESHOLD], but the summed
    count is 2 for 1 focal point: the flag stays false, in this iteration and
    until [max_iter].  With two focal points, one Deactivated and one still
    Active, the summed count is 2 for 2 focal points and the flag is set. *)
Theorem stability_vote_with_two_workers :
  let procs1 := iteration cfg_two_workers 0
                  (init_procs cfg_two_workers teams_on_focal focal_one_cold) in
  let st := propagate cfg_two_workers (activated 1 procs1) in
  let twins1 := iteration cfg_two_workers_two_focal 0
                  (init_procs cfg_two_workers_two_focal teams_on_focal focal_two_cold) in
  let st' := propagate cfg_two_workers_two_focal (activated 1 twins1) in
  (map (fun p => map focal_active (focal p)) (fst st) = [[Deactivated]; [Deactivated]] /\
   F32.ltb (snd st) THRESHOLD = true /\
   num_deactivated 1 procs1 = 2 /\
   map flag_stability (iteration cfg_two_workers 1 procs1) = [false; false] /\
   fst (simulate cfg_two_workers teams_on_focal focal_one_cold)
     = max_iter cfg_two_workers /\
   map flag_stability (snd (simulate cfg_two_workers teams_on_focal focal_one_cold))
     = [false; false]) /\
  (map (fun p => map focal_active (focal p)) (fst st')
     = [[Deactivated; Active]; [Deactivated; Active]] /\
   F32.ltb (snd st') THRESHOLD = true /\
   num_deactivated 1 twins1 = 2 /\
   map flag_stability (iteration cfg_two_workers_two_focal 1 twins1) = [true; true]).
Proof. vm_compute. repeat split. Qed.

(** C10, on the code.  The count that enters the stability test of an
    iteration is the one taken by the activation loop at its start, before
    the team actions (first part, any number of workers).  With two workers
    and two focal points the flag is set in iteration 1, in which the number
    of Deactivated focal points goes from 1 to the total, 2. *)
Theorem stability_flag_in_iteration_reaching_total :
  (forall (cfg : Config) iter procs (r : nat) q,
     iteration cfg iter procs !! r = Some q ->
     exists p, procs !! r = Some p /\
       flag_stability q =
         stability_test (num_deactivated iter procs) (num_focal cfg)
           (snd (propagate cfg (activated iter procs))) (flag_stability p)) /\
  let procs0 := init_procs cfg_two_workers_two_focal teams_on_focal focal_two_cold in
  let procs1 := iteration cfg_two_workers_two_focal 0 procs0 in
  let procs2 := iteration cfg_two_workers_two_focal 1 procs1 in
  map (fun p => count_deactivated (focal p)) procs1 = [1; 1] /\
  map flag_stability procs1 = [false; false] /\
  map (fun p => count_deactivated (focal p)) procs2 = [2; 2] /\
  num_focal cfg_two_workers_two_focal = 2 /\
  map (fun p => Z.of_nat (length (focal p))) procs2 = [2; 2] /\
  map flag_stability procs2 = [true; true] /\
  simulate cfg_two_workers_two_focal teams_on_focal focal_two_cold = (2, procs2).
Proof.
  split.
  - intros cfg iter procs r q Hq.
    apply iteration_replicated in Hq as (p & Hp & _ & Hflag). eauto.
  - vm_compute. repeat split.
Qed.

(** C9, on the code.  A failed allocation of [surface] or [surfaceCopy] is
    reported on standard error and the program goes on; a failed allocation of
    the focal points read from the command line is not even reported.  The
    other allocations (teams, focal points read from a file, the gathered
    surface) do end the run. *)
Theorem surface_allocation_failure_goes_on :
  (forall b : option buffer,
     check_surfaces None b
       = ([Stderr "-- Error allocating: surface structures" []], Proceed) /\
     check_surfaces b None
       = ([Stderr "-- Error allocating: surface structures" []], Proceed)) /\
  (forall n ts, check_focal_args n (Some ts) None = ([], Proceed)) /\
  (forall n, snd (check_teams n None) = Terminated /\
             snd (check_focal_file n None) = Terminated) /\
  check_fullSurface 0 None
    = ([Stderr "-- Error allocating: fullSurface on rank 0" []; MPI_Abort EXIT_FAILURE],
       Terminated).
Proof.
  repeat split; try reflexivity. by destruct b.
Qed.

(** * Further properties of the program *)

(** ** The partition of the rows *)

Lemma chunk_div (cfg : Config) :
  0 <= rows cfg -> 0 < size cfg -> chunk cfg = rows cfg / size cfg.
Proof. intros Hr Hs. unfold chunk, global_rows. apply Z.quot_div_nonneg; lia. Qed.

Lemma owns_iff_div (cfg : Config) (rank gx : Z) :
  0 < chunk cfg -> owns cfg rank gx <-> rank = gx / chunk cfg.
Proof.
  intros Hc. unfold owns, g_end, g_start. split.
  - intros H. apply (Z.div_unique gx (chunk cfg) rank (gx - rank * chunk cfg)); lia.
  - intros ->. pose proof (Z.mul_div_le gx (chunk cfg) Hc).
    pose proof (Z.mul_succ_div_gt gx (chunk cfg) Hc). lia.
Qed.

Lemma owned_rows_below (cfg : Config) (rank gx : Z) :
  0 <= rank < size cfg -> owns cfg rank gx -> 0 <= gx < size cfg * chunk cfg.
Proof. unfold owns, g_end, g_start. intros Hr H. nia. Qed.

(** X1. When the number of rows is a multiple of the number of workers,
    every global row of the surface is owned by exactly one worker: the
    ranges [g_start .. g_end] of the ranks [0 .. size-1] cover [0, rows)
    without gap or overlap. *)
Theorem partition_covers_rows (cfg : Config) :
  0 < size cfg -> 0 <= rows cfg -> rows cfg mod size cfg = 0 ->
  (forall gx, 0 <= gx < rows cfg ->
     exists rank, 0 <= rank < size cfg /\ owns cfg rank gx /\
       forall rank', owns cfg rank' gx -> rank' = rank) /\
  (forall rank gx, 0 <= rank < size cfg -> owns cfg rank gx -> 0 <= gx < rows cfg).
Proof.
  intros Hs Hr Hm.
  assert (Hrows : rows cfg = size cfg * chunk cfg).
  { rewrite chunk_div by lia. apply Z.div_exact in Hm; lia. }
  split.
  - intros gx Hgx.
    assert (Hc : 0 < chunk cfg) by nia.
    exists (gx / chunk cfg). split; [|split].
    + split; [apply Z.div_pos; lia|]. apply Z.div_lt_upper_bound; lia.
    + by apply owns_iff_div.
    + intros rank' H. by apply owns_iff_div in H.
  - intros rank gx Hrank H. rewrite Hrows. by apply (owned_rows_below cfg rank).
Qed.

Lemma partition_covers_rows_witness :
  (0 < size cfg_two_workers /\ 0 <= rows cfg_two_workers /\
   rows cfg_two_workers mod size cfg_two_workers = 0) /\
  exists rank, 0 <= rank < size cfg_two_workers /\ owns cfg_two_workers rank 3.
Proof.
  assert (H1 : 0 < size cfg_two_workers) by (simpl; lia).
  assert (H2 : 0 <= rows cfg_two_workers) by (simpl; lia).
  assert (H3 : rows cfg_two_workers mod size cfg_two_workers = 0) by reflexivity.
  split; [done|].
  destruct (partition_covers_rows cfg_two_workers H1 H2 H3) as [Hcov _].
  destruct (Hcov 3 ltac:(simpl; lia)) as (rank & Hr & Ho & _). eauto.
Defined.

(** X2. Truncating division drops the remainder: the rows from
    [size * chunk] on belong to no worker, and when the number of rows is not
    a multiple of the number of workers the last row of the surface is one of
    them. *)
Theorem partition_drops_remainder (cfg : Config) :
  0 < size cfg -> 0 <= rows cfg -> rows cfg mod size cfg <> 0 ->
  size cfg * chunk cfg <= rows cfg - 1 /\
  forall gx rank, size cfg * chunk cfg <= gx -> 0 <= rank < size cfg ->
    ~ owns cfg rank gx.
Proof.
  intros Hs Hr Hm. split.
  - rewrite chunk_div by lia.
    pose proof (Z.div_mod (rows cfg) (size cfg) ltac:(lia)).
    pose proof (Z.mod_pos_bound (rows cfg) (size cfg) Hs). lia.
  - intros gx rank Hgx Hrank H.
    pose proof (owned_rows_below cfg rank gx Hrank H). lia.
Qed.

Lemma partition_drops_remainder_witness :
  (0 < size (mkConfig 5 5 50 2 1) /\ 0 <= rows (mkConfig 5 5 50 2 1) /\
   rows (mkConfig 5 5 50 2 1) mod size (mkConfig 5 5 50 2 1) <> 0) /\
  forall rank, 0 <= rank < 2 -> ~ owns (mkConfig 5 5 50 2 1) rank 4.
Proof.
  assert (H1 : 0 < size (mkConfig 5 5 50 2 1)) by (simpl; lia).
  assert (H2 : 0 <= rows (mkConfig 5 5 50 2 1)) by (simpl; lia).
  assert (H3 : rows (mkConfig 5 5 50 2 1) mod size (mkConfig 5 5 50 2 1) <> 0)
    by (vm_compute; discriminate).
  split; [done|].
  destruct (partition_drops_remainder _ H1 H2 H3) as [_ Hnone].
  intros rank Hrank. apply Hnone; [vm_compute; discriminate | exact Hrank].
Defined.

(** ** Movement of a team *)

Ltac team_cases :=
  cbn [team_x team_y team_type team_target set_team_x set_team_y];
  repeat (match goal with
          | |- context [?a <? ?b] =>
              lazymatch a with context [if _ then _ else _] => fail | _ => idtac end;
              lazymatch b with context [if _ then _ else _] => fail | _ => idtac end;
              destruct (Z.ltb_spec a b)
          end;
          cbn [team_x team_y team_type team_target set_team_x set_team_y]).

Lemma move_type1_step (f : FocalPoint) (t : Team) :
  let t' := move_type1 f t in
  chebyshev f t' = Z.max 0 (chebyshev f t - 1) /\
  Z.abs (team_x t' - team_x t) <= 1 /\ Z.abs (team_y t' - team_y t) <= 1 /\
  team_type t' = team_type t /\ team_target t' = team_target t.
Proof.
  destruct t as [x y ty tg]. unfold move_type1, chebyshev.
  rewrite !Z.gtb_ltb. team_cases. all: repeat split; lia.
Qed.

Lemma move_type23_step (f : FocalPoint) (t : Team) :
  (let t' := move_type2 f t in
   manhattan f t' = Z.max 0 (manhattan f t - 1) /\
   Z.abs (team_x t' - team_x t) + Z.abs (team_y t' - team_y t) <= 1 /\
   (focal_y f <> team_y t -> team_x t' = team_x t) /\
   team_type t' = team_type t /\ team_target t' = team_target t) /\
  (let t' := move_type3 f t in
   manhattan f t' = Z.max 0 (manhattan f t - 1) /\
   Z.abs (team_x t' - team_x t) + Z.abs (team_y t' - team_y t) <= 1 /\
   (focal_x f <> team_x t -> team_y t' = team_y t) /\
   team_type t' = team_type t /\ team_target t' = team_target t).
Proof.
  destruct t as [x y ty tg]. unfold move_type2, move_type3, manhattan.
  rewrite !Z.gtb_ltb. split; team_cases. all: repeat split; lia.
Qed.

Lemma move_towards_spec (f : FocalPoint) (t : Team) :
  let t' := move_towards f t in
  steps_to f t' = Z.max 0 (steps_to f t - 1) /\
  Z.abs (team_x t' - team_x t) <= 1 /\ Z.abs (team_y t' - team_y t) <= 1 /\
  (team_type t <> 1 -> Z.abs (team_x t' - team_x t) + Z.abs (team_y t' - team_y t) <= 1) /\
  (team_type t = 2 -> focal_y f <> team_y t -> team_x t' = team_x t) /\
  (team_type t <> 1 -> team_type t <> 2 -> focal_x f <> team_x t -> team_y t' = team_y t) /\
  team_type t' = team_type t /\ team_target t' = team_target t /\
  (steps_to f t = 0 <-> team_x t = focal_x f /\ team_y t = focal_y f).
Proof.
  unfold move_towards, steps_to.
  destruct (move_type1_step f t) as (A1 & A2 & A3 & A4 & A5).
  destruct (move_type23_step f t) as [(B1 & B2 & B3 & B4 & B5) (C1 & C2 & C3 & C4 & C5)].
  destruct (Z.eqb_spec (team_type t) 1) as [E1|E1].
  - rewrite A4, E1. change (1 =? 1) with true. cbv iota.
    split; [exact A1|]. split; [exact A2|]. split; [exact A3|].
    split; [done|]. split; [intros; congruence|]. split; [done|].
    split; [congruence|]. split; [exact A5|].
    unfold chebyshev. clear. lia.
  - destruct (Z.eqb_spec (team_type t) 2) as [E2|E2].
    + rewrite B4, (proj2 (Z.eqb_neq _ _) E1).
      split; [exact B1|]. split; [clear -B2; lia|]. split; [clear -B2; lia|].
      split; [intros _; exact B2|]. split; [intros _; exact B3|].
      split; [done|]. split; [reflexivity|]. split; [exact B5|].
      unfold manhattan. clear. lia.
    + rewrite C4, (proj2 (Z.eqb_neq _ _) E1).
      split; [exact C1|]. split; [clear -C2; lia|]. split; [clear -C2; lia|].
      split; [intros _; exact C2|]. split; [done|].
      split; [intros _ _; exact C3|]. split; [reflexivity|]. split; [exact C5|].
      unfold manhattan. clear. lia.
Qed.

(** X3. One step 4.3.4 brings a team one step closer to its focal point and
    never farther: a type-1 team reduces the larger of the two coordinate
    gaps by one (it moves on both axes at once), a type-2 or type-3 team
    reduces the sum of the gaps by one (it moves on one axis, type 2 on y
    first, type 3 on x first); a team on the focal point stays there.  No
    coordinate changes by more than one, and the type is kept. *)
Theorem move_towards_step (f : FocalPoint) (t : Team) :
  let t' := move_towards f t in
  steps_to f t' = Z.max 0 (steps_to f t - 1) /\
  Z.abs (team_x t' - team_x t) <= 1 /\ Z.abs (team_y t' - team_y t) <= 1 /\
  (team_type t <> 1 -> Z.abs (team_x t' - team_x t) + Z.abs (team_y t' - team_y t) <= 1) /\
  (team_type t = 2 -> focal_y f <> team_y t -> team_x t' = team_x t) /\
  (team_type t <> 1 -> team_type t <> 2 -> focal_x f <> team_x t -> team_y t' = team_y t) /\
  team_type t' = team_type t /\ team_target t' = team_target t /\
  (steps_to f t = 0 <-> team_x t = focal_x f /\ team_y t = focal_y f).
Proof. apply move_towards_spec. Qed.

(** X4. A team that keeps the same focal point as target reaches it after
    exactly [steps_to] steps: after [n] steps the remaining number of steps
    is [steps_to - n] (or 0), and the team is on the focal point exactly when
    that number is 0. *)
Theorem team_arrives (f : FocalPoint) (t : Team) (n : nat) :
  let t' := Nat.iter n (move_towards f) t in
  steps_to f t' = Z.max 0 (steps_to f t - Z.of_nat n) /\
  ((team_x t' = focal_x f /\ team_y t' = focal_y f) <-> steps_to f t <= Z.of_nat n).
Proof.
  assert (Hnn : forall t0, 0 <= steps_to f t0).
  { intros t0. unfold steps_to, chebyshev, manhattan. destruct (_ =? 1); lia. }
  assert (H : steps_to f (Nat.iter n (move_towards f) t)
              = Z.max 0 (steps_to f t - Z.of_nat n)).
  { induction n as [|n IH]; simpl Nat.iter.
    - pose proof (Hnn t). lia.
    - destruct (move_towards_spec f (Nat.iter n (move_towards f) t)) as (Hs & _).
      rewrite Hs, IH. lia. }
  split; [exact H|].
  destruct (move_towards_spec f (Nat.iter n (move_towards f) t))
    as (_ & _ & _ & _ & _ & _ & _ & _ & Hz).
  rewrite <- Hz, H. pose proof (Hnn t). lia.
Qed.

Lemma nearest_focal_range (fs : list FocalPoint) (j0 : Z) (t : Team) (d : float) (tg : Z) :
  nearest_focal fs j0 t d tg = tg \/
  exists (k : nat) f, nearest_focal fs j0 t d tg = j0 + Z.of_nat k /\
    fs !! k = Some f /\ focal_active f = Active.
Proof.
  revert j0 d tg. induction fs as [|f0 rest IH]; intros j0 d tg; simpl; [by left|].
  assert (Hshift : forall d' tg',
    nearest_focal rest (j0 + 1) t d' tg' = tg' \/
    exists (k : nat) f, nearest_focal rest (j0 + 1) t d' tg' = j0 + Z.of_nat k /\
      (f0 :: rest) !! k = Some f /\ focal_active f = Active).
  { intros d' tg'. destruct (IH (j0 + 1) d' tg') as [H|(k & f & H & Hk & Ha)]; [by left|].
    right. exists (S k), f. split; [lia|done]. }
  destruct (focal_active f0 =? Active) eqn:Ea; simpl; [|apply Hshift].
  apply Z.eqb_eq in Ea.
  destruct (F32.ltb _ d); [|apply Hshift].
  destruct (Hshift (local_distance f0 t) j0) as [H|H]; [|by right].
  right. exists O, f0. split; [lia|done].
Qed.

Lemma move_team_towards (fs : list FocalPoint) (t : Team) :
  move_team fs t =
  let t1 := set_target (choose_target fs t) t in
  if choose_target fs t =? -1 then t1
  else match fs !! Z.to_nat (choose_target fs t) with
       | None => t1
       | Some f => move_towards f t1
       end.
Proof. reflexivity. Qed.

Lemma move_team_spec (fs : list FocalPoint) (t : Team) :
  let t' := move_team fs t in
  team_type t' = team_type t /\
  ((team_target t' = -1 /\ team_x t' = team_x t /\ team_y t' = team_y t) \/
   (exists f, 0 <= team_target t' < Z.of_nat (length fs) /\
      fs !! Z.to_nat (team_target t') = Some f /\ focal_active f = Active /\
      steps_to f t' = Z.max 0 (steps_to f t - 1) /\
      Z.abs (team_x t' - team_x t) <= 1 /\ Z.abs (team_y t' - team_y t) <= 1)).
Proof.
  cbv zeta. rewrite move_team_target, move_team_towards. cbv zeta.
  destruct (nearest_focal_range fs 0 t F32.FLT_MAX (-1)) as [H|(k & f & H & Hk & Ha)];
    fold (choose_target fs t) in H; rewrite H.
  - simpl. split; [done|]. by left.
  - replace (0 + Z.of_nat k =? -1) with false by (symmetry; apply Z.eqb_neq; lia).
    replace (Z.to_nat (0 + Z.of_nat k)) with k by lia. rewrite Hk.
    destruct (move_towards_spec f (set_target (0 + Z.of_nat k) t))
      as (S1 & S2 & S3 & _ & _ & _ & S4 & _).
    split; [by rewrite S4|]. right. exists f.
    pose proof (lookup_lt_Some _ _ _ Hk).
    split; [lia|]. split; [done|]. split; [done|].
    split; [|done]. rewrite S1. reflexivity.
Qed.

(** X5. Steps 4.3.1 to 4.3.4 for one team, whatever the focal points are:
    the target written is [-1] and the team stays where it is, or it is the
    index of an Active focal point inside the array, and the team makes one
    step towards it.  The type of the team is never changed. *)
Theorem move_team_step (fs : list FocalPoint) (t : Team) :
  let t' := move_team fs t in
  team_type t' = team_type t /\
  ((team_target t' = -1 /\ team_x t' = team_x t /\ team_y t' = team_y t) \/
   (exists f, 0 <= team_target t' < Z.of_nat (length fs) /\
      fs !! Z.to_nat (team_target t') = Some f /\ focal_active f = Active /\
      steps_to f t' = Z.max 0 (steps_to f t - 1) /\
      Z.abs (team_x t' - team_x t) <= 1 /\ Z.abs (team_y t' - team_y t) <= 1)).
Proof. apply move_team_spec. Qed.

(** ** The run *)

Lemma loop_invariant_from_start (P : Z -> list Proc -> Prop) (cfg : Config)
    (ts : list Team) (fs : list FocalPoint) :
  P 0 (init_procs cfg ts fs) ->
  (forall iter procs, P iter procs -> running cfg iter procs = true ->
                      P (iter + 1) (iteration cfg iter procs)) ->
  forall fuel, P (fst (simulation_loop fuel cfg 0 (init_procs cfg ts fs)))
                 (snd (simulation_loop fuel cfg 0 (init_procs cfg ts fs))).
Proof. intros H0 Hstep fuel. by apply simulation_loop_invariant. Qed.

Lemma uniform_flags_step (cfg : Config) iter procs :
  uniform_flags procs -> uniform_flags (iteration cfg iter procs).
Proof.
  intros HP r1 r2 q1 q2 Hq1 Hq2.
  destruct (iteration_replicated cfg iter procs r1 q1 Hq1) as (p1 & Hp1 & _ & F1).
  destruct (iteration_replicated cfg iter procs r2 q2 Hq2) as (p2 & Hp2 & _ & F2).
  rewrite F1, F2. by rewrite (HP r1 r2 p1 p2 Hp1 Hp2).
Qed.

Lemma uniform_flags_init (cfg : Config) ts fs : uniform_flags (init_procs cfg ts fs).
Proof. intros r1 r2 p1 p2 H1 H2. apply init_procs_lookup in H1, H2. by subst. Qed.

(** X6. At every evaluation of the loop condition all workers hold the same
    stability flag, so they all leave the loop at the same iteration (a
    worker that went on alone would block in the next collective call). *)
Theorem workers_agree_on_stability (cfg : Config) (ts : list Team)
    (fs : list FocalPoint) (fuel : nat) :
  exists flag : bool,
    Forall (fun p => flag_stability p = flag)
           (snd (simulation_loop fuel cfg 0 (init_procs cfg ts fs))).
Proof.
  pose proof (loop_invariant_from_start (fun _ ps => uniform_flags ps) cfg ts fs
                (uniform_flags_init cfg ts fs)
                (fun it ps HP _ => uniform_flags_step cfg it ps HP) fuel) as Hinv.
  cbv beta in Hinv.
  destruct (snd (simulation_loop fuel cfg 0 (init_procs cfg ts fs))) as [|p0 ps] eqn:E.
  - exists false. constructor.
  - exists (flag_stability p0). apply Forall_lookup. intros k p Hk.
    exact (Hinv k O p p0 Hk eq_refl).
Qed.

Lemma forallb_false_lookup {A} (f : A -> bool) (l : list A) :
  forallb f l = false -> exists (k : nat) x, l !! k = Some x /\ f x = false.
Proof.
  induction l as [|a l IH]; simpl; [done|]. intros H.
  apply andb_false_iff in H as [H|H].
  - by exists O, a.
  - destruct (IH H) as (k & x & Hk & Hx). by exists (S k), x.
Qed.

Lemma simulation_loop_progress (cfg : Config) (fuel : nat) iter procs :
  let r := simulation_loop fuel cfg iter procs in
  iter <= fst r <= iter + Z.of_nat fuel /\
  (fst r <= Z.max iter (max_iter cfg)) /\
  (running cfg (fst r) (snd r) = false \/ fst r = iter + Z.of_nat fuel) /\
  length (snd r) = length procs.
Proof.
  revert iter procs. induction fuel as [|fuel IH]; intros iter procs; simpl.
  { repeat split; lia. }
  destruct (running cfg iter procs) eqn:E.
  - destruct (IH (iter + 1) (iteration cfg iter procs)) as (H1 & H2 & H3 & H4).
    unfold running in E. apply andb_prop in E as [E _]. apply Z.ltb_lt in E.
    split; [lia|]. split; [lia|]. split.
    + destruct H3 as [H3|H3]; [by left|right; lia].
    + by rewrite H4, iteration_length.
  - simpl. split; [lia|]. split; [lia|]. split; [by left|done].
Qed.

(** X7. The simulation loop ends: with [max_iter] iterations allowed, the
    state returned is one in which the loop condition is false.  The number
    of iterations done is between 0 and [max_iter]; when it is below
    [max_iter] every worker has its stability flag set.  The number of
    workers is unchanged. *)
Theorem simulation_ends (cfg : Config) (ts : list Team) (fs : list FocalPoint) :
  let r := simulate cfg ts fs in
  running cfg (fst r) (snd r) = false /\
  0 <= fst r <= Z.max 0 (max_iter cfg) /\
  length (snd r) = Z.to_nat (size cfg) /\
  (fst r < max_iter cfg -> Forall (fun p => flag_stability p = true) (snd r)).
Proof.
  cbv zeta. unfold simulate.
  destruct (simulation_loop_progress cfg (Z.to_nat (max_iter cfg)) 0 (init_procs cfg ts fs))
    as (H1 & H2 & H3 & H4).
  pose proof (loop_invariant_from_start (fun _ ps => uniform_flags ps) cfg ts fs
                (uniform_flags_init cfg ts fs)
                (fun it ps HP _ => uniform_flags_step cfg it ps HP)
                (Z.to_nat (max_iter cfg))) as Hu.
  cbv beta in Hu.
  set (r := simulation_loop (Z.to_nat (max_iter cfg)) cfg 0 (init_procs cfg ts fs)) in *.
  assert (Hstop : running cfg (fst r) (snd r) = false).
  { destruct H3 as [H3|H3]; [done|]. unfold running.
    replace (fst r <? max_iter cfg) with false; [done|].
    symmetry. apply Z.ltb_ge. lia. }
  split; [done|]. split; [lia|]. split.
  { rewrite H4. unfold init_procs. by rewrite length_replicate. }
  intros Hlt. apply Forall_lookup. intros k p Hk. unfold running in Hstop.
  apply andb_false_iff in Hstop as [Hstop|Hstop]; [apply Z.ltb_ge in Hstop; lia|].
  destruct (forallb_false_lookup _ _ Hstop) as (k' & q & Hk' & Hfl).
  apply negb_false_iff in Hfl.
  by rewrite (Hu k k' p q Hk Hk').
Qed.

Lemma focal_invariant_step (cfg : Config) fs iter procs :
  focal_invariant fs iter procs -> focal_invariant fs (iter + 1) (iteration cfg iter procs).
Proof.
  intros [H0 HP]. split; [lia|]. intros r q Hq.
  destruct (iteration_replicated cfg iter procs r q Hq) as (p & Hp & E & _).
  destruct (HP r p Hp) as [Hlen Hall].
  split.
  { unfold replicated_step in E. cbn [fst snd] in E. injection E as _ E.
    by rewrite E, fold_deactivate_length, activate_focal_length. }
  intros j f' Hj.
  destruct (iteration_focal_lookup cfg iter procs r j q f' Hq Hj)
    as (p' & f & Hp' & Hf & Hadv).
  assert (p' = p) by congruence. subst p'.
  destruct (Hall j f Hf) as (f0 & Hf0 & (Ex & Ey & Es & Eh) & Hst & Hiff).
  exists f0. split; [done|].
  unfold advanced in Hadv. unfold Inactive, Active, Deactivated in *.
  destruct (Z.eqb_spec (focal_start f) iter) as [E1|E1].
  - destruct Hadv as (A1 & A2 & A3 & A4 & A5). simpl in A1, A2, A3, A4, A5.
    split; [unfold same_place; repeat split; congruence|].
    split; [lia|]. lia.
  - destruct Hadv as (A1 & A2 & A3 & A4 & A5).
    split; [unfold same_place; repeat split; congruence|].
    split; [lia|]. lia.
Qed.

(** X8. The states of a focal point over a run that starts with all focal
    points Inactive (as the argument parser leaves them): at every iteration
    boundary, on every worker, the focal point [j] has the position, start
    and heat it was given, its state is 0, 1 or 2, and it is Inactive exactly
    when its start iteration has not been executed yet (a negative start, or
    one not reached, never activates). *)
Theorem focal_points_over_a_run (cfg : Config) (ts : list Team) (fs : list FocalPoint)
    (fuel : nat) :
  Forall (fun f => focal_active f = Inactive) fs ->
  let iter := fst (simulation_loop fuel cfg 0 (init_procs cfg ts fs)) in
  let procs := snd (simulation_loop fuel cfg 0 (init_procs cfg ts fs)) in
  Forall (fun p =>
    Forall2 (fun f f0 =>
      same_place f f0 /\
      (focal_active f = Inactive \/ focal_active f = Active \/
       focal_active f = Deactivated) /\
      (focal_active f = Inactive <-> ~ (0 <= focal_start f < iter))) (focal p) fs) procs.
Proof.
  intros Hinit iter procs.
  assert (H0 : focal_invariant fs 0 (init_procs cfg ts fs)).
  { split; [lia|]. intros r p Hp. apply init_procs_lookup in Hp. subst p.
    cbn [focal init_proc]. split; [done|]. intros j f Hj.
    exists f. split; [done|]. split; [done|].
    rewrite Forall_lookup in Hinit. specialize (Hinit j f Hj). cbv beta in Hinit.
    split; [by left|]. split; [lia|done]. }
  pose proof (loop_invariant_from_start (focal_invariant fs) cfg ts fs H0
                (fun it ps HP _ => focal_invariant_step cfg fs it ps HP) fuel) as [_ Hinv].
  apply Forall_lookup. intros r p Hp. destruct (Hinv r p Hp) as [Hlen Hall].
  apply Forall2_same_length_lookup. split; [done|].
  intros j f f0 Hf Hf0. destruct (Hall j f Hf) as (f0' & Hf0' & H).
  assert (f0' = f0) by congruence. by subst.
Qed.

Lemma focal_points_over_a_run_witness :
  Forall (fun f => focal_active f = Inactive) focal_center /\
  Forall (fun p => length (focal p) = length focal_center)
    (snd (simulation_loop 3 cfg_two_workers 0
            (init_procs cfg_two_workers teams_diagonal focal_center))).
Proof.
  assert (H : Forall (fun f => focal_active f = Inactive) focal_center).
  { unfold focal_center. repeat constructor. }
  split; [exact H|].
  eapply Forall_impl;
    [exact (focal_points_over_a_run cfg_two_workers teams_diagonal focal_center 3 H)|].
  intros p Hp. exact (Forall2_length _ _ _ Hp).
Defined.

Lemma teams_invariant_step (cfg : Config) ts iter procs :
  teams_invariant ts iter procs -> teams_invariant ts (iter + 1) (iteration cfg iter procs).
Proof.
  intros [H0 HP]. split; [lia|]. intros r q Hq.
  destruct (iteration_replicated cfg iter procs r q Hq) as (p & Hp & E & _).
  destruct (HP r p Hp) as [Hlen Hall].
  unfold replicated_step in E. cbn [fst snd] in E. injection E as Et _.
  rewrite Et. unfold move_teams. split; [by rewrite length_map|].
  intros j t' Hj. rewrite list_lookup_fmap in Hj.
  destruct (teams p !! j) as [t|] eqn:Ht; [|done]. simpl in Hj. inversion Hj; subst t'.
  destruct (Hall j t Ht) as (t0 & Ht0 & Hty & Hx & Hy).
  exists t0. split; [done|].
  destruct (move_team_spec (activate_focal iter (focal p)) t) as [Hty' Hmv].
  split; [congruence|].
  destruct Hmv as [(_ & Ex & Ey)|(f & _ & _ & _ & _ & Ex & Ey)]; lia.
Qed.

(** X9. Teams over a run: on every worker, at every iteration boundary,
    there are as many teams as at the start, each has the type it was given,
    and after [iter] iterations neither of its coordinates differs from the
    initial one by more than [iter]. *)
Theorem teams_over_a_run (cfg : Config) (ts : list Team) (fs : list FocalPoint)
    (fuel : nat) :
  let iter := fst (simulation_loop fuel cfg 0 (init_procs cfg ts fs)) in
  let procs := snd (simulation_loop fuel cfg 0 (init_procs cfg ts fs)) in
  Forall (fun p =>
    Forall2 (fun t t0 =>
      team_type t = team_type t0 /\
      Z.abs (team_x t - team_x t0) <= iter /\ Z.abs (team_y t - team_y t0) <= iter)
      (teams p) ts) procs.
Proof.
  intros iter procs.
  assert (H0 : teams_invariant ts 0 (init_procs cfg ts fs)).
  { split; [lia|]. intros r p Hp. apply init_procs_lookup in Hp. subst p.
    cbn [teams init_proc]. split; [done|]. intros j t Hj.
    exists t. split; [done|]. split; [done|]. lia. }
  pose proof (loop_invariant_from_start (teams_invariant ts) cfg ts fs H0
                (fun it ps HP _ => teams_invariant_step cfg ts it ps HP) fuel) as [_ Hinv].
  apply Forall_lookup. intros r p Hp. destruct (Hinv r p Hp) as [Hlen Hall].
  apply Forall2_same_length_lookup. split; [done|].
  intros j t t0 Ht Ht0. destruct (Hall j t Ht) as (t0' & Ht0' & H).
  assert (t0' = t0) by congruence. by subst.
Qed.

(** ** Exact effect of the heat sources and of the teams on a slice *)

Section HeatSources.
Variables (cfg : Config) (rank : Z).

Lemma update_heat_one_miss (surf : buffer) f (n : nat) :
  ~ heat_source cfg rank f n -> update_heat_one cfg rank surf f !! n = surf !! n.
Proof.
  intros Hn. unfold update_heat_one.
  destruct (Z.eqb_spec (focal_active f) Active) as [Ea|Ea]; simpl; [|done].
  destruct (_ || _) eqn:Eb; [done|].
  destruct (_ && _) eqn:Eo; [|done].
  unfold setMat. apply list_lookup_insert_ne. intros <-. apply Hn.
  repeat rewrite orb_false_iff in Eb. apply andb_prop in Eo.
  unfold heat_source, owns. repeat split; try done; lia.
Qed.

Lemma update_heat_one_hit (surf : buffer) f (n : nat) :
  heat_source cfg rank f n -> (n < length surf)%nat ->
  update_heat_one cfg rank surf f !! n = Some (F32.of_int (focal_heat f)).
Proof.
  intros (Ha & Hx & Hy & Ho & ->) Hlt. unfold update_heat_one, owns in *.
  rewrite (proj2 (Z.eqb_eq _ _) Ha). simpl.
  replace (_ || _) with false by (symmetry; repeat rewrite orb_false_iff; lia).
  replace (_ && _) with true by (symmetry; apply andb_true_iff; lia).
  unfold setMat. by apply list_lookup_insert_eq.
Qed.

Lemma update_heat_miss fs (surf : buffer) (n : nat) :
  Forall (fun f => ~ heat_source cfg rank f n) fs ->
  update_heat cfg rank fs surf !! n = surf !! n.
Proof.
  unfold update_heat. revert surf. induction fs as [|f fs IH]; intros surf H; simpl; [done|].
  apply Forall_cons in H as [H0 H]. rewrite IH by done. by apply update_heat_one_miss.
Qed.

End HeatSources.

(** X10. Step 4.2.1 on one worker, cell by cell: a position of the slice
    that is the cell of no Active focal point of the worker's rows keeps its
    value; a position that is the cell of such focal points holds the heat of
    the last of them in the array (a later focal point at the same place
    overwrites an earlier one). *)
Theorem update_heat_effect (cfg : Config) (rank : Z) (fs : list FocalPoint)
    (surf : buffer) (n : nat) :
  (Forall (fun f => ~ heat_source cfg rank f n) fs ->
   update_heat cfg rank fs surf !! n = surf !! n) /\
  (forall (k : nat) f, fs !! k = Some f -> heat_source cfg rank f n ->
     Forall (fun f' => ~ heat_source cfg rank f' n) (drop (S k) fs) ->
     (n < length surf)%nat ->
     update_heat cfg rank fs surf !! n = Some (F32.of_int (focal_heat f))).
Proof.
  split; [apply update_heat_miss|].
  revert surf. induction fs as [|f0 fs IH]; intros surf k f Hk Hsrc Hlater Hlt; [done|].
  destruct k as [|k]; simpl in Hk, Hlater.
  - inversion Hk; subst f0. unfold update_heat. simpl.
    rewrite drop_0 in Hlater.
    fold (update_heat cfg rank fs (update_heat_one cfg rank surf f)).
    rewrite update_heat_miss by done. by apply update_heat_one_hit.
  - unfold update_heat. simpl.
    fold (update_heat cfg rank fs (update_heat_one cfg rank surf f0)).
    apply (IH _ k f Hk Hsrc Hlater). by rewrite update_heat_one_length.
Qed.

Section Reach.
Variables (cfg : Config) (rank : Z) (t : Team).

Let li (i : Z) : Z := i - g_start cfg rank + 1.

Let cond (i j : Z) : Prop :=
  1 <= i < rows cfg - 1 /\ 1 <= j < columns cfg - 1 /\
  F32.leb (team_distance t i j) (F32.of_int (radius_of t)) = true /\
  owns cfg rank i.

Lemma reduce_cell_miss i j (s : buffer) (n : nat) :
  (cond i j -> n <> offset cfg (li i) j) -> reduce_cell cfg rank t i j s !! n = s !! n.
Proof.
  intros Hn. unfold reduce_cell.
  destruct (_ || _) eqn:Eb; [done|].
  destruct (F32.leb _ _) eqn:El; [|done].
  destruct (_ && _) eqn:Eo; [|done].
  unfold setMat. apply list_lookup_insert_ne. intros E. symmetry in E. revert E. apply Hn.
  repeat rewrite orb_false_iff in Eb. apply andb_prop in Eo.
  unfold cond, owns. repeat split; try done; lia.
Qed.

Lemma reduce_cell_hit i j (s : buffer) :
  cond i j -> (offset cfg (li i) j < length s)%nat ->
  reduce_cell cfg rank t i j s !! offset cfg (li i) j
  = Some (F32.mul (s !!! offset cfg (li i) j) efficiency).
Proof.
  intros (Hi & Hj & Hd & Ho) Hlt. unfold reduce_cell, owns in *.
  replace (_ || _) with false by (symmetry; repeat rewrite orb_false_iff; lia).
  rewrite Hd.
  replace (_ && _) with true by (symmetry; apply andb_true_iff; lia).
  unfold setMat, accessMat. by apply list_lookup_insert_eq.
Qed.

Lemma cond_offset_inj i j i' j' :
  cond i j -> cond i' j' -> offset cfg (li i) j = offset cfg (li i') j' -> i = i' /\ j = j'.
Proof.
  intros (Hi & Hj & _ & Ho) (Hi' & Hj' & _ & Ho') E.
  unfold owns, g_end in *.
  destruct (offset_inj cfg (li i) j (li i') j') as [E1 E2]; unfold li in *; lia.
Qed.

Lemma reduce_row_length i lo hi (s : buffer) :
  length (for_range lo hi (fun j s => reduce_cell cfg rank t i j s) s) = length s.
Proof.
  apply (for_range_preserves (fun s' : buffer => length s' = length s)); [done|].
  intros k s' _ H. by rewrite reduce_cell_length.
Qed.

Lemma reduce_row_miss i lo hi (s : buffer) (n : nat) :
  (forall j, lo <= j < hi -> cond i j -> n <> offset cfg (li i) j) ->
  for_range lo hi (fun j s => reduce_cell cfg rank t i j s) s !! n = s !! n.
Proof.
  intros Hn. apply (for_range_preserves (fun s' : buffer => s' !! n = s !! n)); [done|].
  intros k s' Hk H. rewrite reduce_cell_miss; [done|]. by apply Hn.
Qed.

Lemma for_range_one {S : Type} k (body : Z -> S -> S) (s : S) :
  for_range k (k + 1) body s = body k s.
Proof. rewrite for_range_snoc by lia. by rewrite for_range_empty by lia. Qed.

Lemma reduce_row_hit i lo hi j (s : buffer) :
  lo <= j < hi -> cond i j -> (offset cfg (li i) j < length s)%nat ->
  for_range lo hi (fun j s => reduce_cell cfg rank t i j s) s !! offset cfg (li i) j
  = Some (F32.mul (s !!! offset cfg (li i) j) efficiency).
Proof.
  intros Hj Hc Hlt.
  rewrite (for_range_split lo j hi) by lia.
  rewrite (for_range_split j (j + 1) hi) by lia.
  rewrite for_range_one.
  rewrite reduce_row_miss.
  2:{ intros j' Hj' Hc' E. apply cond_offset_inj in E; [lia|done..]. }
  rewrite reduce_cell_hit; [|done|by rewrite reduce_row_length].
  f_equal. f_equal. apply lookup_total_eq. apply reduce_row_miss.
  intros j' Hj' Hc' E. apply cond_offset_inj in E; [lia|done..].
Qed.

Lemma reduce_rows_length lo hi ylo yhi (s : buffer) :
  length (for_range lo hi (fun i s =>
            for_range ylo yhi (fun j s => reduce_cell cfg rank t i j s) s) s) = length s.
Proof.
  apply (for_range_preserves (fun s' : buffer => length s' = length s)); [done|].
  intros k s' _ H. by rewrite reduce_row_length.
Qed.

Lemma reduce_rows_miss lo hi ylo yhi (s : buffer) (n : nat) :
  (forall i j, lo <= i < hi -> ylo <= j < yhi -> cond i j -> n <> offset cfg (li i) j) ->
  for_range lo hi (fun i s =>
    for_range ylo yhi (fun j s => reduce_cell cfg rank t i j s) s) s !! n = s !! n.
Proof.
  intros Hn. apply (for_range_preserves (fun s' : buffer => s' !! n = s !! n)); [done|].
  intros k s' Hk H. rewrite reduce_row_miss; [done|]. intros j Hj. by apply Hn.
Qed.

Lemma reduce_rows_hit lo hi ylo yhi i j (s : buffer) :
  lo <= i < hi -> ylo <= j < yhi -> cond i j -> (offset cfg (li i) j < length s)%nat ->
  for_range lo hi (fun i s =>
    for_range ylo yhi (fun j s => reduce_cell cfg rank t i j s) s) s !! offset cfg (li i) j
  = Some (F32.mul (s !!! offset cfg (li i) j) efficiency).
Proof.
  intros Hi Hj Hc Hlt.
  rewrite (for_range_split lo i hi) by lia.
  rewrite (for_range_split i (i + 1) hi) by lia.
  rewrite for_range_one.
  rewrite reduce_rows_miss.
  2:{ intros i' j' Hi' Hj' Hc' E. apply cond_offset_inj in E; [lia|done..]. }
  rewrite reduce_row_hit; [|done|done|by rewrite reduce_rows_length].
  f_equal. f_equal. apply lookup_total_eq. apply reduce_rows_miss.
  intros i' j' Hi' Hj' Hc' E. apply cond_offset_inj in E; [lia|done..].
Qed.

End Reach.

(** X11. Step 4.4.2 for one team on one worker, cell by cell: every cell
    within reach of the team (inside the square of side [2 * radius + 1],
    off the border of the surface, at computed distance at most the radius)
    whose row the worker owns is multiplied by 0.75 exactly once; every other
    position of the slice keeps its value. *)
Theorem reduce_heat_effect (cfg : Config) (rank : Z) (t : Team) (surf : buffer) :
  (forall i j, in_reach cfg t i j -> owns cfg rank i ->
     (offset cfg (i - g_start cfg rank + 1) j < length surf)%nat ->
     reduce_heat cfg rank t surf !! offset cfg (i - g_start cfg rank + 1) j
     = Some (F32.mul (accessMat cfg surf (i - g_start cfg rank + 1) j) efficiency)) /\
  (forall n : nat,
     (forall i j, in_reach cfg t i j -> owns cfg rank i ->
                  n <> offset cfg (i - g_start cfg rank + 1) j) ->
     reduce_heat cfg rank t surf !! n = surf !! n).
Proof.
  unfold reduce_heat. cbv zeta. split.
  - intros i j (Hi & Hj & Hbi & Hbj & Hd) Ho Hlt.
    apply (reduce_rows_hit cfg rank t); [lia|lia| |done]. done.
  - intros n Hn. apply (reduce_rows_miss cfg rank t).
    intros i j Hi Hj (Hbi & Hbj & Hd & Ho). apply Hn; [|done].
    unfold in_reach. repeat split; try done; lia.
Qed.

(** ** The copy of the surface, and grids without interior *)

(** X12. Step 4.2.2 copies the whole slice, halo rows included: after it
    [surfaceCopy] is equal to [surface], whatever it held before. *)
Theorem copy_is_whole_slice (cfg : Config) (surf copy : buffer) :
  0 <= columns cfg ->
  length surf = Z.to_nat (local_nrows cfg * columns cfg) ->
  length copy = Z.to_nat (local_nrows cfg * columns cfg) ->
  copy_surface cfg surf copy = surf.
Proof. apply copy_surface_eq. Qed.

Lemma copy_is_whole_slice_witness :
  copy_surface cfg_two_workers
    (<[5%nat := F32.of_int 7]> (init_buffer cfg_two_workers))
    (init_buffer cfg_two_workers)
  = <[5%nat := F32.of_int 7]> (init_buffer cfg_two_workers).
Proof.
  apply (copy_is_whole_slice cfg_two_workers); [simpl; lia|reflexivity|reflexivity].
Defined.

(** X13. A surface with fewer than three rows or fewer than three columns
    has no interior cell: the stencil update leaves the slice as it is and
    the local residual is [0.0]. *)
Theorem no_interior_no_update (cfg : Config) (rank : Z) (surf copy : buffer) :
  columns cfg < 3 \/ global_rows cfg < 3 ->
  stencil cfg rank surf copy = surf /\
  local_residual cfg rank surf copy = F32.zero.
Proof.
  intros H.
  assert (Hrow : forall i, skip_row cfg rank i = true \/ columns cfg - 1 <= 1).
  { intros i. destruct H as [H|H]; [right; lia|left].
    unfold skip_row. apply orb_true_iff. lia. }
  split.
  - unfold stencil. apply (for_range_preserves (fun s : buffer => s = surf)); [done|].
    intros i s _ ->. unfold stencil_row.
    destruct (Hrow i) as [->|Hc]; [done|].
    destruct (skip_row _ _ _); [done|]. by apply for_range_empty.
  - unfold local_residual.
    apply (for_range_preserves (fun r : float => r = F32.zero)); [done|].
    intros i r _ ->. unfold residual_row.
    destruct (Hrow i) as [->|Hc]; [done|].
    destruct (skip_row _ _ _); [done|]. by apply for_range_empty.
Qed.

Lemma no_interior_no_update_witness :
  stencil (mkConfig 2 8 50 1 0) 0 (init_buffer (mkConfig 2 8 50 1 0))
          (init_buffer (mkConfig 2 8 50 1 0)) = init_buffer (mkConfig 2 8 50 1 0) /\
  local_residual (mkConfig 2 8 50 1 0) 0 (init_buffer (mkConfig 2 8 50 1 0))
          (init_buffer (mkConfig 2 8 50 1 0)) = F32.zero.
Proof.
  apply (no_interior_no_update (mkConfig 2 8 50 1 0)). right. simpl. lia.
Defined.

(** ** The residual is never negative *)

Lemma fabs_not_negative (x : float) :
  F32.is_nan (F32.fabs x) = false -> F32.leb F32.zero (F32.fabs x) = true.
Proof. destruct x as [s|s| |s m e]; simpl; try done. Qed.

Lemma local_residual_not_negative (cfg : Config) (rank : Z) (surf copy : buffer) :
  F32.leb F32.zero (local_residual cfg rank surf copy) = true.
Proof.
  destruct (local_residual_is_max cfg rank surf copy) as (Hnan & _ & [->|(i & j & _ & E)]);
    [reflexivity|].
  rewrite E in Hnan |- *. by apply fabs_not_negative.
Qed.

(** X14. The local residual of a worker and the reduced global residual of
    a sub-step are never negative and never NaN, whatever the surface holds
    (a NaN difference is never kept); so is the residual that reaches the
    stability test. *)
Theorem residual_not_negative (cfg : Config) (procs : list Proc) :
  (forall rank surf copy,
     F32.leb F32.zero (local_residual cfg rank surf copy) = true /\
     F32.is_nan (local_residual cfg rank surf copy) = false) /\
  F32.leb F32.zero (snd (substep cfg procs)) = true /\
  F32.is_nan (snd (substep cfg procs)) = false /\
  F32.leb F32.zero (snd (propagate cfg procs)) = true.
Proof.
  assert (Hsub : forall ps, F32.leb F32.zero (snd (substep cfg ps)) = true /\
                            F32.is_nan (snd (substep cfg ps)) = false).
  { intros ps. unfold substep. cbn [snd].
    set (l := residuals cfg _).
    assert (Hl : forall y, y ∈ l ->
              F32.leb F32.zero y = true /\ F32.is_nan y = false).
    { intros y Hy. apply list_elem_of_lookup in Hy as [k Hk].
      unfold l, residuals in Hk. rewrite list_lookup_imap in Hk.
      apply fmap_Some in Hk as (p & _ & ->).
      split; [apply local_residual_not_negative|].
      by destruct (local_residual_is_max cfg (Z.of_nat k) (surface p) (surfaceCopy p)). }
    destruct (allreduce_max_spec l) as (_ & Hatt & Hnan).
    split; [|apply Hnan; intros y Hy; by apply Hl].
    destruct Hatt as [->|Hin]; [reflexivity|]. by apply Hl. }
  split.
  { intros rank surf copy. split; [apply local_residual_not_negative|].
    by destruct (local_residual_is_max cfg rank surf copy). }
  split; [apply Hsub|]. split; [apply Hsub|].
  rewrite propagate_last. apply Hsub.
Qed.

(** ** The gathered surface and the report *)

Section Gather.

Lemma MPI_Gather_length (count r : nat) blocks (buf : buffer) :
  length (MPI_Gather count r blocks buf) = length buf.
Proof.
  revert r buf. induction blocks as [|b rest IH]; intros r buf; simpl; [done|].
  by rewrite IH, length_inserts.
Qed.

Lemma MPI_Gather_outside (count r : nat) blocks (buf : buffer) (n : nat) :
  (n < r * count \/ (r + length blocks) * count <= n)%nat ->
  MPI_Gather count r blocks buf !! n = buf !! n.
Proof.
  revert r buf. induction blocks as [|b rest IH]; intros r buf H; simpl; [done|].
  simpl in H. rewrite IH by lia.
  destruct H as [H|H].
  - by apply list_lookup_inserts_lt.
  - apply list_lookup_inserts_ge. rewrite length_take. lia.
Qed.

Lemma MPI_Gather_block (count r : nat) blocks (buf : buffer) (q : nat) b (k : nat) :
  blocks !! q = Some b -> length b = count -> (k < count)%nat ->
  ((r + q) * count + k < length buf)%nat ->
  MPI_Gather count r blocks buf !! ((r + q) * count + k)%nat = b !! k.
Proof.
  revert r buf q. induction blocks as [|b0 rest IH]; intros r buf q Hq Hb Hk Hlt; [done|].
  destruct q as [|q]; simpl in Hq |- *.
  - inversion Hq; subst b0. rewrite MPI_Gather_outside by lia.
    rewrite take_ge by lia.
    rewrite list_lookup_inserts by lia. f_equal. lia.
  - replace ((r + S q) * count + k)%nat with ((S r + q) * count + k)%nat by lia.
    apply IH; [done|done|done|]. rewrite length_inserts. lia.
Qed.

Variable cfg : Config.
Hypothesis Hsize : 0 < size cfg.
Hypothesis Hrows : 0 <= rows cfg.
Hypothesis Hcols : 0 <= columns cfg.

Lemma chunk_bounds : 0 <= chunk cfg /\ size cfg * chunk cfg <= rows cfg.
Proof.
  rewrite chunk_div by lia. split; [apply Z.div_pos; lia|].
  apply Z.mul_div_le. lia.
Qed.

Lemma send_block_lookup (surf : buffer) (k : nat) :
  (k < Z.to_nat (chunk cfg * columns cfg))%nat ->
  send_block cfg surf !! k = surf !! (offset cfg 1 0 + k)%nat.
Proof. intros Hk. unfold send_block. by rewrite lookup_take_lt, lookup_drop. Qed.

Lemma send_block_length (surf : buffer) :
  length surf = Z.to_nat (local_nrows cfg * columns cfg) ->
  length (send_block cfg surf) = Z.to_nat (chunk cfg * columns cfg).
Proof.
  intros Hl. destruct chunk_bounds as [Hc _].
  unfold send_block, offset. rewrite length_take, length_drop, Hl.
  unfold local_nrows. nia.
Qed.

Lemma owner_of_row (gx : Z) :
  0 <= gx < size cfg * chunk cfg ->
  0 < chunk cfg /\
  Z.of_nat (owner cfg gx) < size cfg /\
  0 <= gx - g_start cfg (Z.of_nat (owner cfg gx)) < chunk cfg.
Proof.
  intros Hgx. destruct chunk_bounds as [Hc _].
  assert (Hc' : 0 < chunk cfg) by nia.
  unfold owner, g_start. rewrite Z2Nat.id by (apply Z.div_pos; lia).
  split; [done|]. split.
  - apply Z.div_lt_upper_bound; lia.
  - pose proof (Z.mul_div_le gx (chunk cfg) Hc').
    pose proof (Z.mul_succ_div_gt gx (chunk cfg) Hc'). lia.
Qed.

Variables (procs : list Proc) (fullSurface0 : buffer).
Hypothesis Hprocs : length procs = Z.to_nat (size cfg).
Hypothesis Hsurf :
  Forall (fun p => length (surface p) = Z.to_nat (local_nrows cfg * columns cfg)) procs.
Hypothesis Hfull : length fullSurface0 = Z.to_nat (rows cfg * columns cfg).

Lemma gather_owned (gx j : Z) :
  0 <= gx < size cfg * chunk cfg -> 0 <= j < columns cfg ->
  accessMat cfg (gather cfg procs fullSurface0) gx j = global_cell cfg procs gx j.
Proof.
  intros Hgx Hj. destruct chunk_bounds as [Hc Hle].
  destruct (owner_of_row gx Hgx) as (Hc' & Hq & Hli).
  set (q := owner cfg gx) in *.
  assert (is_Some (procs !! q)) as [p Hp].
  { apply lookup_lt_is_Some. lia. }
  assert (Hlp : length (surface p) = Z.to_nat (local_nrows cfg * columns cfg)).
  { rewrite Forall_lookup in Hsurf. exact (Hsurf q p Hp). }
  unfold global_cell, accessMat. fold q.
  rewrite (list_lookup_total_correct procs q p Hp).
  rewrite !list_lookup_total_alt. f_equal.
  set (count := Z.to_nat (chunk cfg * columns cfg)).
  set (k := Z.to_nat ((gx - g_start cfg (Z.of_nat q)) * columns cfg + j)).
  assert (Hk : (k < count)%nat) by (unfold k, count; nia).
  assert (E1 : offset cfg gx j = ((0 + q) * count + k)%nat).
  { unfold offset, k, count, g_start in *. nia. }
  assert (E2 : offset cfg (gx - g_start cfg (Z.of_nat q) + 1) j
               = (offset cfg 1 0 + k)%nat).
  { unfold offset, k. nia. }
  rewrite E1, E2. unfold gather. fold count.
  rewrite (MPI_Gather_block count 0 _ fullSurface0 q (send_block cfg (surface p)) k).
  - by apply send_block_lookup.
  - by rewrite list_lookup_fmap, Hp.
  - by apply send_block_length.
  - done.
  - rewrite <- E1, Hfull. unfold offset. nia.
Qed.

Lemma gather_remainder (gx j : Z) :
  size cfg * chunk cfg <= gx -> 0 <= j ->
  accessMat cfg (gather cfg procs fullSurface0) gx j = accessMat cfg fullSurface0 gx j.
Proof.
  intros Hgx Hj. destruct chunk_bounds as [Hc Hle]. clear Hsurf Hfull.
  unfold accessMat. apply lookup_total_eq. unfold gather.
  apply MPI_Gather_outside. right. rewrite length_map, Hprocs. unfold offset. nia.
Qed.

End Gather.

(** X15. The gather on rank 0: row [gx], column [j] of the full surface
    holds the cell of the worker that owns row [gx], at its local row; the
    rows from [size * chunk] on, which no worker owns, are left as the
    allocation returned them; the size of the full surface is unchanged. *)
Theorem gather_layout (cfg : Config) (procs : list Proc) (fullSurface0 : buffer) :
  0 < size cfg -> 0 <= rows cfg -> 0 <= columns cfg ->
  length procs = Z.to_nat (size cfg) ->
  Forall (fun p => length (surface p) = Z.to_nat (local_nrows cfg * columns cfg)) procs ->
  length fullSurface0 = Z.to_nat (rows cfg * columns cfg) ->
  (forall gx j, 0 <= gx < size cfg * chunk cfg -> 0 <= j < columns cfg ->
     accessMat cfg (gather cfg procs fullSurface0) gx j = global_cell cfg procs gx j) /\
  (forall gx j, size cfg * chunk cfg <= gx -> 0 <= j ->
     accessMat cfg (gather cfg procs fullSurface0) gx j = accessMat cfg fullSurface0 gx j) /\
  length (gather cfg procs fullSurface0) = length fullSurface0.
Proof.
  intros Hsize Hrows Hcols Hprocs Hsurf Hfull. split; [|split].
  - intros gx j. by apply gather_owned.
  - intros gx j. by apply gather_remainder.
  - apply MPI_Gather_length.
Qed.

Lemma gather_layout_witness :
  accessMat cfg_two_workers
    (gather cfg_two_workers (init_procs cfg_two_workers teams_diagonal focal_center)
       (replicate 16 (F32.of_int 9))) 3 2
  = global_cell cfg_two_workers
      (init_procs cfg_two_workers teams_diagonal focal_center) 3 2.
Proof.
  refine (proj1 (gather_layout cfg_two_workers
            (init_procs cfg_two_workers teams_diagonal focal_center)
            (replicate 16 (F32.of_int 9)) _ _ _ _ _ _) 3 2 _ _).
  - simpl; lia.
  - simpl; lia.
  - simpl; lia.
  - reflexivity.
  - repeat constructor.
  - reflexivity.
  - vm_compute. split; [discriminate|reflexivity].
  - simpl; lia.
Defined.

Lemma report_some (cfg : Config) (surf : buffer) (fs : list FocalPoint) :
  report cfg (Some surf) fs =
  Some (map (fun f => accessMat cfg surf (focal_x f) (focal_y f))
            (filter (fun f => out_of_surface cfg f = false) fs)).
Proof.
  induction fs as [|f fs IH]; simpl; [done|].
  rewrite filter_cons. destruct (out_of_surface cfg f) eqn:E.
  - rewrite decide_False by done. exact IH.
  - rewrite decide_True by done. by rewrite IH.
Qed.

(** X16. What rank 0 prints after the iteration count, when the rows divide
    evenly among the workers: for each focal point within the surface, in
    input order, the temperature held by the worker that owns its row. *)
Theorem report_of_root (cfg : Config) (procs : list Proc) (fullSurface0 : buffer)
    (fs : list FocalPoint) :
  0 < size cfg -> 0 <= rows cfg -> 0 <= columns cfg ->
  rows cfg mod size cfg = 0 ->
  length procs = Z.to_nat (size cfg) ->
  Forall (fun p => length (surface p) = Z.to_nat (local_nrows cfg * columns cfg)) procs ->
  length fullSurface0 = Z.to_nat (rows cfg * columns cfg) ->
  report cfg (final_surface cfg 0 procs fullSurface0) fs =
  Some (map (fun f => global_cell cfg procs (focal_x f) (focal_y f))
            (filter (fun f => out_of_surface cfg f = false) fs)).
Proof.
  intros Hsize Hrows Hcols Hmod Hprocs Hsurf Hfull.
  unfold final_surface. simpl. rewrite report_some. f_equal.
  assert (Hdiv : rows cfg = size cfg * chunk cfg).
  { rewrite chunk_div by lia. apply Z.div_exact in Hmod; lia. }
  apply Forall_fmap_ext_1, Forall_forall. intros f Hf.
  apply list_elem_of_filter in Hf as [Hin _].
  unfold out_of_surface in Hin. repeat rewrite orb_false_iff in Hin.
  apply gather_owned; try done; lia.
Qed.

Lemma report_of_root_witness :
  report cfg_two_workers
    (final_surface cfg_two_workers 0
       (init_procs cfg_two_workers teams_diagonal focal_center)
       (replicate 16 (F32.of_int 9))) focal_center
  = Some (map (fun f => global_cell cfg_two_workers
                 (init_procs cfg_two_workers teams_diagonal focal_center)
                 (focal_x f) (focal_y f))
            (filter (fun f => out_of_surface cfg_two_workers f = false) focal_center)).
Proof.
  apply (report_of_root cfg_two_workers).
  - simpl; lia.
  - simpl; lia.
  - simpl; lia.
  - reflexivity.
  - reflexivity.
  - repeat constructor.
  - reflexivity.
Defined.

Lemma report_null (cfg : Config) (fs : list FocalPoint) :
  report cfg None fs = None <-> Exists (fun f => out_of_surface cfg f = false) fs.
Proof.
  induction fs as [|f fs IH]; simpl.
  - split; [done|]. intros H. inversion H.
  - rewrite Exists_cons. destruct (out_of_surface cfg f) eqn:E.
    + rewrite IH. split; [by right|]. by intros [H|H].
    + split; [by left|done].
Qed.

(** X17. After [MPI_Finalize] every rank runs the report, but on a rank
    other than 0 the pointer [surface] is [NULL]: there the report reads
    through [NULL] exactly when some focal point lies within the surface
    (and prints no temperature otherwise). *)
Theorem report_of_other_ranks (cfg : Config) (rank : Z) (procs : list Proc)
    (fullSurface0 : buffer) (fs : list FocalPoint) :
  rank <> 0 ->
  (report cfg (final_surface cfg rank procs fullSurface0) fs = None <->
   Exists (fun f => out_of_surface cfg f = false) fs) /\
  (Forall (fun f => out_of_surface cfg f = true) fs ->
   report cfg (final_surface cfg rank procs fullSurface0) fs = Some []).
Proof.
  intros Hr. unfold final_surface. rewrite (proj2 (Z.eqb_neq _ _) Hr).
  split; [apply report_null|].
  induction fs as [|f fs IH]; simpl; [done|].
  intros H. apply Forall_cons in H as [-> H]. by apply IH.
Qed.

Lemma report_of_other_ranks_witness :
  1 <> 0 /\
  report cfg_two_workers
    (final_surface cfg_two_workers 1
       (init_procs cfg_two_workers teams_diagonal focal_center) []) focal_center = None.
Proof.
  assert (H : 1 <> 0) by lia. split; [exact H|].
  apply (proj1 (report_of_other_ranks cfg_two_workers 1
                  (init_procs cfg_two_workers teams_diagonal focal_center) []
                  focal_center H)).
  unfold focal_center. apply Exists_cons. left. reflexivity.
Defined.

(** ** Reading the command line *)

Section CommandLine.

Lemma concat_lookup_fixed {A} (n : nat) (ls : list (list A)) (i c : nat) (l : list A) :
  Forall (fun l => length l = n) ls -> ls !! i = Some l -> (c < n)%nat ->
  concat ls !! (i * n + c)%nat = l !! c.
Proof.
  revert i. induction ls as [|l0 rest IH]; intros i Hall Hi Hc; [done|].
  apply Forall_cons in Hall as [Hl0 Hall]. simpl.
  destruct i as [|i]; simpl in Hi.
  - inversion Hi; subst l0. rewrite lookup_app_l by lia. done.
  - rewrite lookup_app_r by (simpl; lia).
    replace (S i * n + c - length l0)%nat with (i * n + c)%nat by (simpl; lia).
    by apply IH.
Qed.

Lemma concat_length_fixed {A} (n : nat) (ls : list (list A)) :
  Forall (fun l => length l = n) ls -> length (concat ls) = (length ls * n)%nat.
Proof.
  induction ls as [|l0 rest IH]; intros Hall; [done|].
  apply Forall_cons in Hall as [Hl0 Hall]. simpl. rewrite length_app, IH by done. lia.
Qed.

Variables (prog rows columns max_iter : Z) (ts : list Team) (fs : list FocalPoint).

Let argv := command_line prog rows columns max_iter ts fs.
Let nt := Z.of_nat (length ts).
Let nf := Z.of_nat (length fs).

Lemma team_args_fixed : Forall (fun l => length l = 3%nat) (map team_args ts).
Proof. apply Forall_fmap, Forall_forall. done. Qed.

Lemma focal_args_fixed : Forall (fun l => length l = 4%nat) (map focal_point_args fs).
Proof. apply Forall_fmap, Forall_forall. done. Qed.

Lemma command_line_length : Z.of_nat (length argv) = 6 + 3 * nt + 4 * nf.
Proof.
  unfold argv, command_line. rewrite !length_app.
  rewrite (concat_length_fixed 3) by apply team_args_fixed.
  rewrite (concat_length_fixed 4) by apply focal_args_fixed.
  rewrite !length_map. simpl. unfold nt, nf. lia.
Qed.

Lemma command_line_head :
  arg argv 1 = rows /\ arg argv 2 = columns /\ arg argv 3 = max_iter /\ arg argv 4 = nt.
Proof. done. Qed.

Lemma command_line_team (i : nat) t (c : nat) :
  ts !! i = Some t -> (c < 3)%nat ->
  arg argv (5 + Z.of_nat i * 3 + Z.of_nat c) = team_args t !!! c.
Proof.
  intros Hi Hc. unfold arg, argv, command_line.
  rewrite !list_lookup_total_alt. f_equal.
  replace (Z.to_nat (5 + Z.of_nat i * 3 + Z.of_nat c)) with (5 + (i * 3 + c))%nat by lia.
  change [prog; rows; columns; max_iter; Z.of_nat (length ts)]
    with ([prog; rows; columns; max_iter] ++ [Z.of_nat (length ts)]).
  rewrite lookup_app_r by (simpl; lia).
  replace (5 + (i * 3 + c) - length ([prog; rows; columns; max_iter] ++ [Z.of_nat (length ts)]))%nat
    with (i * 3 + c)%nat by (simpl; lia).
  pose proof (lookup_lt_Some _ _ _ Hi) as Hlt.
  rewrite lookup_app_l.
  2:{ rewrite (concat_length_fixed 3) by apply team_args_fixed. rewrite length_map. lia. }
  apply (concat_lookup_fixed 3); [apply team_args_fixed| |done].
  by rewrite list_lookup_fmap, Hi.
Qed.

Lemma command_line_num_focal : arg argv (5 + nt * 3) = nf.
Proof.
  unfold arg, argv, command_line, nt.
  replace (Z.to_nat (5 + Z.of_nat (length ts) * 3)) with (5 + length ts * 3)%nat by lia.
  rewrite list_lookup_total_alt.
  rewrite lookup_app_r by (simpl; lia).
  rewrite lookup_app_r.
  2:{ rewrite (concat_length_fixed 3) by apply team_args_fixed. rewrite length_map.
      simpl. lia. }
  rewrite (concat_length_fixed 3) by apply team_args_fixed. rewrite length_map.
  replace (5 + length ts * 3 - length [prog; rows; columns; max_iter; Z.of_nat (length ts)]
           - length ts * 3)%nat with 0%nat by (simpl; lia).
  done.
Qed.

Lemma command_line_focal (i : nat) f (c : nat) :
  fs !! i = Some f -> (c < 4)%nat ->
  arg argv (5 + nt * 3 + Z.of_nat i * 4 + 1 + Z.of_nat c) = focal_point_args f !!! c.
Proof.
  intros Hi Hc. unfold arg, argv, command_line, nt.
  rewrite !list_lookup_total_alt. f_equal.
  replace (Z.to_nat (5 + Z.of_nat (length ts) * 3 + Z.of_nat i * 4 + 1 + Z.of_nat c))
    with (5 + length ts * 3 + 1 + (i * 4 + c))%nat by lia.
  rewrite lookup_app_r by (simpl; lia).
  rewrite lookup_app_r.
  2:{ rewrite (concat_length_fixed 3) by apply team_args_fixed. rewrite length_map.
      simpl. lia. }
  rewrite (concat_length_fixed 3) by apply team_args_fixed. rewrite length_map.
  rewrite lookup_app_r by (simpl; lia).
  replace (5 + length ts * 3 + 1 + (i * 4 + c)
           - length [prog; rows; columns; max_iter; Z.of_nat (length ts)]
           - length ts * 3 - length [Z.of_nat (length fs)])%nat
    with (i * 4 + c)%nat by (simpl; lia).
  apply (concat_lookup_fixed 4); [apply focal_args_fixed| |done].
  by rewrite list_lookup_fmap, Hi.
Qed.

Lemma read_teams_command_line (uninit : Z) :
  read_teams uninit argv nt = map (set_target uninit) ts.
Proof.
  apply list_eq. intros i. unfold read_teams. rewrite !list_lookup_fmap.
  destruct (ts !! i) as [t|] eqn:Hi; simpl.
  - pose proof (lookup_lt_Some _ _ _ Hi) as Hlt.
    rewrite lookup_seqZ_lt by (unfold nt; lia). simpl. f_equal.
    pose proof (command_line_team i t 0 Hi ltac:(lia)) as E0.
    pose proof (command_line_team i t 1 Hi ltac:(lia)) as E1.
    pose proof (command_line_team i t 2 Hi ltac:(lia)) as E2.
    replace (5 + (0 + Z.of_nat i) * 3) with (5 + Z.of_nat i * 3 + Z.of_nat 0) by lia.
    replace (6 + (0 + Z.of_nat i) * 3) with (5 + Z.of_nat i * 3 + Z.of_nat 1) by lia.
    replace (7 + (0 + Z.of_nat i) * 3) with (5 + Z.of_nat i * 3 + Z.of_nat 2) by lia.
    rewrite E0, E1, E2. by destruct t.
  - apply lookup_ge_None in Hi. rewrite lookup_seqZ_ge by (unfold nt; lia). done.
Qed.

Lemma read_focal_command_line :
  read_focal argv (5 + nt * 3) nf = map (set_active Inactive) fs.
Proof.
  apply list_eq. intros i. unfold read_focal. rewrite !list_lookup_fmap.
  destruct (fs !! i) as [f|] eqn:Hi; simpl.
  - pose proof (lookup_lt_Some _ _ _ Hi) as Hlt.
    rewrite lookup_seqZ_lt by (unfold nf; lia). simpl. f_equal.
    pose proof (command_line_focal i f 0 Hi ltac:(lia)) as E0.
    pose proof (command_line_focal i f 1 Hi ltac:(lia)) as E1.
    pose proof (command_line_focal i f 2 Hi ltac:(lia)) as E2.
    pose proof (command_line_focal i f 3 Hi ltac:(lia)) as E3.
    replace (5 + nt * 3 + (0 + Z.of_nat i) * 4 + 1)
      with (5 + nt * 3 + Z.of_nat i * 4 + 1 + Z.of_nat 0) by lia.
    replace (5 + nt * 3 + (0 + Z.of_nat i) * 4 + 2)
      with (5 + nt * 3 + Z.of_nat i * 4 + 1 + Z.of_nat 1) by lia.
    replace (5 + nt * 3 + (0 + Z.of_nat i) * 4 + 3)
      with (5 + nt * 3 + Z.of_nat i * 4 + 1 + Z.of_nat 2) by lia.
    replace (5 + nt * 3 + (0 + Z.of_nat i) * 4 + 4)
      with (5 + nt * 3 + Z.of_nat i * 4 + 1 + Z.of_nat 3) by lia.
    rewrite E0, E1, E2, E3. by destruct f.
  - apply lookup_ge_None in Hi. rewrite lookup_seqZ_ge by (unfold nf; lia). done.
Qed.

End CommandLine.

(** X18. The command line of a configuration is read back as that
    configuration: rows, columns and iteration limit, the teams in order with
    their position and type (the target is left uninitialised), the focal
    points in order with their position, start and heat, all Inactive. *)
Theorem parse_command_line (uninit prog rows columns max_iter : Z) (ts : list Team)
    (fs : list FocalPoint) :
  parse_args uninit true true (command_line prog rows columns max_iter ts fs)
  = Parsed rows columns max_iter
           (Z.of_nat (length ts)) (map (set_target uninit) ts)
           (Z.of_nat (length fs)) (map (set_active Inactive) fs).
Proof.
  pose proof (command_line_length prog rows columns max_iter ts fs) as Hlen.
  destruct (command_line_head prog rows columns max_iter ts fs) as (E1 & E2 & E3 & E4).
  pose proof (command_line_num_focal prog rows columns max_iter ts fs) as Enf.
  cbv zeta in Hlen, E4, Enf.
  unfold parse_args. cbv zeta. rewrite Hlen, E1, E2, E3, E4. simpl negb.
  rewrite (Z.max_r 0 (Z.of_nat (length ts))) by lia. rewrite Enf.
  rewrite (Z.max_r 0 (Z.of_nat (length fs))) by lia.
  rewrite read_teams_command_line, read_focal_command_line.
  rewrite Z.gtb_ltb.
  repeat match goal with
         | |- context [?a <? ?b] =>
             replace (a <? b) with false by (symmetry; apply Z.ltb_ge; lia)
         end.
  reflexivity.
Qed.

Lemma read_teams_spec (uninit : Z) (argv : list Z) (n : Z) :
  length (read_teams uninit argv n) = Z.to_nat n /\
  Forall (fun t => team_target t = uninit) (read_teams uninit argv n).
Proof.
  unfold read_teams. split; [by rewrite length_map, length_seqZ|].
  apply Forall_fmap, Forall_forall. done.
Qed.

Lemma read_focal_spec (argv : list Z) (k n : Z) :
  length (read_focal argv k n) = Z.to_nat n /\
  Forall (fun f => focal_active f = Inactive) (read_focal argv k n).
Proof.
  unfold read_focal. split; [by rewrite length_map, length_seqZ|].
  apply Forall_fmap, Forall_forall. done.
Qed.

(** X19. What an accepted command line looks like: the number of entries of
    [argv] is exactly the one the two counts ask for (a negative count asks
    for none and is accepted), the counts and the three sizes are the entries
    read, there are as many teams and focal points as the counts say (none
    for a negative count), every focal point is Inactive, and the array of
    teams was allocated. *)
Theorem parse_accepts (uninit : Z) (teams_alloc focal_alloc : bool) (argv : list Z)
    (r c m nt nf : Z) (ts : list Team) (fs : list FocalPoint) :
  parse_args uninit teams_alloc focal_alloc argv = Parsed r c m nt ts nf fs ->
  Z.of_nat (length argv) = 6 + 3 * Z.max 0 nt + 4 * Z.max 0 nf /\
  r = arg argv 1 /\ c = arg argv 2 /\ m = arg argv 3 /\
  nt = arg argv 4 /\ nf = arg argv (5 + Z.max 0 nt * 3) /\
  length ts = Z.to_nat nt /\ length fs = Z.to_nat nf /\
  Forall (fun t => team_target t = uninit) ts /\
  Forall (fun f => focal_active f = Inactive) fs /\
  teams_alloc = true /\ (focal_alloc = true \/ nf <= 0).
Proof.
  unfold parse_args. cbv zeta.
  destruct (Z.ltb_spec (Z.of_nat (length argv)) 2) as [|H2]; [done|].
  destruct (Z.ltb_spec (Z.of_nat (length argv)) 6) as [|H6]; [done|].
  destruct teams_alloc; simpl negb; cbv iota; [|done].
  destruct (Z.ltb_spec (Z.of_nat (length argv)) (arg argv 4 * 3 + 5)) as [|Ht]; [done|].
  destruct (Z.ltb_spec (Z.of_nat (length argv)) (5 + Z.max 0 (arg argv 4) * 3 + 1))
    as [|Hf]; [done|].
  set (nfocal := arg argv (5 + Z.max 0 (arg argv 4) * 3)).
  destruct (Z.ltb_spec (Z.of_nat (length argv))
              (5 + Z.max 0 (arg argv 4) * 3 + 1 + nfocal * 4)) as [|Hn]; [done|].
  destruct (negb focal_alloc && (0 <? nfocal)) eqn:Ea; [done|].
  rewrite Z.gtb_ltb.
  destruct (Z.ltb_spec (5 + Z.max 0 (arg argv 4) * 3 + Z.max 0 nfocal * 4 + 1)
              (Z.of_nat (length argv))) as [|Hx]; [done|].
  intros E. inversion E; subst. clear E.
  destruct (read_teams_spec uninit argv (arg argv 4)) as [L1 F1].
  destruct (read_focal_spec argv (5 + Z.max 0 (arg argv 4) * 3) nfocal) as [L2 F2].
  repeat split; try done; try lia.
  apply andb_false_iff in Ea as [Ea|Ea].
  - left. by destruct focal_alloc.
  - right. apply Z.ltb_ge in Ea. lia.
Qed.

Lemma parse_accepts_witness :
  Z.of_nat (length [0; 4; 4; 50; 1; 0; 0; 1; 1; 2; 2; 0; 100])
  = 6 + 3 * Z.max 0 1 + 4 * Z.max 0 1.
Proof.
  exact (proj1 (parse_accepts 0 true true [0; 4; 4; 50; 1; 0; 0; 1; 1; 2; 2; 0; 100]
                  4 4 50 1 1 [mkTeam 0 0 1 0] [mkFocal 2 2 0 100 0] eq_refl)).
Defined.

(** ** One sub-step on the whole surface *)

Section GlobalStencil.
Variable cfg : Config.
Hypothesis Hchunk : 1 <= chunk cfg.
Hypothesis Hcols : 0 <= columns cfg.
Variable procs : list Proc.
Hypothesis Hprocs : length procs = Z.to_nat (size cfg).
Hypothesis Hlen :
  Forall (fun p => length (surface p) = Z.to_nat (local_nrows cfg * columns cfg) /\
                   length (surfaceCopy p) = Z.to_nat (local_nrows cfg * columns cfg)) procs.

Let heated := heat_phase cfg procs.
Let next := fst (substep cfg procs).

Lemma lookup_total_eq_at (a b : buffer) (n m : nat) :
  a !! n = b !! m -> a !!! n = b !!! m.
Proof. intros H. by rewrite !list_lookup_total_alt, H. Qed.

Lemma global_cell_local (ps : list Proc) (q : nat) (li j : Z) :
  1 <= li <= chunk cfg ->
  global_cell cfg ps (Z.of_nat q * chunk cfg + li - 1) j
  = accessMat cfg (surface (ps !!! q)) li j.
Proof.
  intros Hli. unfold global_cell.
  assert (E : owner cfg (Z.of_nat q * chunk cfg + li - 1) = q).
  { unfold owner.
    rewrite <- (Z.div_unique (Z.of_nat q * chunk cfg + li - 1) (chunk cfg)
                  (Z.of_nat q) (li - 1)) by lia.
    lia. }
  rewrite E. unfold g_start. f_equal. lia.
Qed.

Lemma heated_lookup (q : nat) p :
  procs !! q = Some p ->
  heated !! q = Some (set_surface (update_heat cfg (Z.of_nat q) (focal p) (surface p)) p).
Proof. intros Hp. unfold heated, heat_phase. by rewrite list_lookup_imap, Hp. Qed.

Lemma heated_surface_length (q : nat) ph :
  heated !! q = Some ph ->
  length (surface ph) = Z.to_nat (local_nrows cfg * columns cfg) /\
  length (surfaceCopy ph) = Z.to_nat (local_nrows cfg * columns cfg).
Proof.
  intros Hq. unfold heated, heat_phase in Hq. rewrite list_lookup_imap in Hq.
  apply fmap_Some in Hq as (p & Hp & ->).
  rewrite Forall_lookup in Hlen. destruct (Hlen q p Hp) as [L1 L2].
  cbn [surface surfaceCopy set_surface]. by rewrite update_heat_length.
Qed.

Lemma heated_length : length heated = length procs.
Proof. unfold heated, heat_phase. apply length_imap. Qed.

Lemma heated_total_length (q : nat) :
  (q < length procs)%nat ->
  length (map surface heated !!! q) = Z.to_nat (local_nrows cfg * columns cfg) /\
  map surface heated !!! q = surface (heated !!! q).
Proof.
  intros Hq.
  assert (is_Some (heated !! q)) as [ph Hph].
  { apply lookup_lt_is_Some. by rewrite heated_length. }
  rewrite (list_lookup_total_correct heated q ph Hph).
  rewrite (list_lookup_total_correct (map surface heated) q (surface ph))
    by (by rewrite list_lookup_fmap, Hph).
  split; [|done]. by destruct (heated_surface_length q ph Hph).
Qed.

(** The slice of worker [q] after the sub-step, in terms of its slice
    [se] after the exchange. *)
Lemma next_lookup (q : nat) ph :
  heated !! q = Some ph ->
  let se := exchange_result cfg q (surface ph)
              (map surface heated !!! pred q) (map surface heated !!! S q) in
  next !! q = Some (mkProc (stencil cfg (Z.of_nat q) se se) se
                      (teams ph) (focal ph) (flag_stability ph) (first_activation ph)).
Proof.
  intros Hph se. unfold next, substep. cbn [fst]. fold heated.
  unfold stencil_phase. rewrite list_lookup_imap.
  rewrite (exchange_phase_lookup cfg Hchunk heated q ph Hph). fold se.
  cbn [option_map fmap option_fmap]. unfold stencil_proc.
  cbn [surface surfaceCopy teams focal flag_stability first_activation set_surface].
  destruct (heated_surface_length q ph Hph) as [L1 L2].
  rewrite copy_surface_eq; [done|done| |done].
  unfold se. by rewrite exchange_result_length.
Qed.

Section OneCell.
Variables (q : nat) (li j : Z).
Hypothesis Hq : Z.of_nat q < size cfg.
Hypothesis Hli : 1 <= li <= chunk cfg.
Hypothesis Hj : 0 <= j < columns cfg.

Let gx := Z.of_nat q * chunk cfg + li - 1.

Let se := exchange_result cfg q (surface (heated !!! q))
            (map surface heated !!! pred q) (map surface heated !!! S q).

Lemma owner_in_range : (q < length procs)%nat.
Proof. lia. Qed.

Lemma heated_lookup_total : heated !! q = Some (heated !!! q).
Proof.
  assert (is_Some (heated !! q)) as [ph Hph].
  { apply lookup_lt_is_Some. rewrite heated_length. apply owner_in_range. }
  by rewrite (list_lookup_total_correct heated q ph Hph).
Qed.

Lemma exchanged_length : length se = Z.to_nat (local_nrows cfg * columns cfg).
Proof.
  unfold se. rewrite exchange_result_length.
  by destruct (heated_surface_length q _ heated_lookup_total).
Qed.

Lemma exchanged_owned (i j' : Z) :
  1 <= i <= chunk cfg -> 0 <= j' < columns cfg ->
  accessMat cfg se i j' = global_cell cfg heated (Z.of_nat q * chunk cfg + i - 1) j'.
Proof.
  intros Hi Hj'. rewrite global_cell_local by done.
  unfold accessMat. apply lookup_total_eq. unfold se.
  apply (exchange_result_owned cfg Hchunk). by apply owned_row_offset.
Qed.

Lemma exchanged_above :
  1 <= gx -> accessMat cfg se (li - 1) j = global_cell cfg heated (gx - 1) j.
Proof.
  intros Hgx. destruct (Z.eq_dec li 1) as [E|E].
  - assert (Hq0 : (0 < q)%nat) by (unfold gx in Hgx; nia).
    replace (gx - 1) with (Z.of_nat (pred q) * chunk cfg + chunk cfg - 1)
      by (unfold gx; nia).
    rewrite global_cell_local by lia.
    destruct (heated_total_length (pred q)) as [La Ea]; [pose proof owner_in_range; lia|].
    rewrite <- Ea. unfold accessMat. apply lookup_total_eq_at.
    replace (li - 1) with 0 by lia. unfold se.
    apply (exchange_result_top cfg Hchunk); [lia|done| |done].
    by destruct (heated_surface_length q _ heated_lookup_total).
  - replace (gx - 1) with (Z.of_nat q * chunk cfg + (li - 1) - 1) by (unfold gx; lia).
    symmetry. rewrite <- exchanged_owned by lia. done.
Qed.

Lemma exchanged_below :
  gx + 1 < size cfg * chunk cfg ->
  accessMat cfg se (li + 1) j = global_cell cfg heated (gx + 1) j.
Proof.
  intros Hgx. destruct (Z.eq_dec li (chunk cfg)) as [E|E].
  - assert (Hq1 : Z.of_nat q < size cfg - 1) by (unfold gx in Hgx; nia).
    replace (gx + 1) with (Z.of_nat (S q) * chunk cfg + 1 - 1) by (unfold gx; nia).
    rewrite global_cell_local by lia.
    destruct (heated_total_length (S q)) as [Lb Eb]; [lia|].
    rewrite <- Eb. unfold accessMat. apply lookup_total_eq_at.
    rewrite E. unfold se.
    apply (exchange_result_bottom cfg Hchunk); [done|done| |done].
    by destruct (heated_surface_length q _ heated_lookup_total).
  - replace (gx + 1) with (Z.of_nat q * chunk cfg + (li + 1) - 1) by (unfold gx; lia).
    symmetry. rewrite <- exchanged_owned by lia. done.
Qed.

Lemma next_cell :
  global_cell cfg next gx j = accessMat cfg (stencil cfg (Z.of_nat q) se se) li j.
Proof.
  unfold gx. rewrite global_cell_local by done.
  pose proof (next_lookup q _ heated_lookup_total) as Hn. cbv zeta in Hn. fold se in Hn.
  by rewrite (list_lookup_total_correct next q _ Hn).
Qed.

Lemma next_interior :
  1 <= gx <= global_rows cfg - 2 -> 1 <= j <= columns cfg - 2 ->
  gx + 1 < size cfg * chunk cfg ->
  global_cell cfg next gx j = global_mean4 cfg heated gx j.
Proof.
  intros Hgx Hj' Hbelow. rewrite next_cell.
  assert (Hint : interior_cell cfg (Z.of_nat q) li j).
  { unfold interior_cell, g_start. fold gx. split; [done|]. split; [unfold gx in *; lia|lia]. }
  unfold accessMat.
  rewrite (list_lookup_total_correct _ _ _
             (stencil_hit cfg (Z.of_nat q) se se li j exchanged_length Hint)).
  unfold mean4, global_mean4.
  rewrite exchanged_above by lia. rewrite exchanged_below by done.
  rewrite (exchanged_owned li (j - 1)) by lia. rewrite (exchanged_owned li (j + 1)) by lia.
  done.
Qed.

Lemma next_border :
  ~ (1 <= gx <= global_rows cfg - 2 /\ 1 <= j <= columns cfg - 2) ->
  global_cell cfg next gx j = global_cell cfg heated gx j.
Proof.
  intros Hout. rewrite next_cell. unfold gx at 1. rewrite <- (exchanged_owned li j) by done.
  unfold accessMat. apply lookup_total_eq. apply stencil_miss.
  intros i' j' (Hi' & Hg' & Hj') E.
  apply offset_inj in E as [-> ->]; try lia.
  apply Hout. unfold gx, g_start in *. lia.
Qed.

End OneCell.

Lemma substep_cell (gx j : Z) :
  0 <= gx < size cfg * chunk cfg -> 0 <= j < columns cfg ->
  (interior cfg gx j = true -> gx + 1 < size cfg * chunk cfg) ->
  global_cell cfg next gx j =
  if interior cfg gx j then global_mean4 cfg heated gx j else global_cell cfg heated gx j.
Proof.
  intros Hgx Hj Hbelow.
  set (q := Z.to_nat (gx / chunk cfg)).
  set (li := gx - Z.of_nat q * chunk cfg + 1).
  assert (Hc : 0 < chunk cfg) by lia.
  pose proof (Z.mul_div_le gx (chunk cfg) Hc).
  pose proof (Z.mul_succ_div_gt gx (chunk cfg) Hc).
  assert (0 <= gx / chunk cfg) by (apply Z.div_pos; lia).
  assert (Hq : Z.of_nat q < size cfg).
  { unfold q. rewrite Z2Nat.id by done. apply Z.div_lt_upper_bound; lia. }
  assert (Hli : 1 <= li <= chunk cfg) by (unfold li, q; lia).
  replace gx with (Z.of_nat q * chunk cfg + li - 1) in * by (unfold li; lia).
  unfold interior in *.
  destruct (_ && _) eqn:E.
  - repeat (apply andb_prop in E as [E ?]).
    apply next_interior; try done; try lia.
  - apply next_border; try done. intros [H3 H4].
    assert (E' : (1 <=? Z.of_nat q * chunk cfg + li - 1)
                 && (Z.of_nat q * chunk cfg + li - 1 <=? global_rows cfg - 2)
                 && (1 <=? j) && (j <=? columns cfg - 2) = true).
    { repeat (apply andb_true_intro; split); lia. }
    congruence.
Qed.

End GlobalStencil.

(** X20. One sub-step computes the stencil of the whole surface, when the
    rows divide evenly among the workers and each has at least one: after
    the halo exchange, the copy and the local updates, every cell off the
    border of the surface holds the mean of its four neighbours as they were
    after the heat sources were written (4.2.1), read at the workers that
    own them, and every border cell holds its own value after 4.2.1. *)
Theorem substep_is_global_stencil (cfg : Config) (procs : list Proc) (gx j : Z) :
  rows cfg = size cfg * chunk cfg -> 1 <= chunk cfg ->
  length procs = Z.to_nat (size cfg) ->
  Forall (fun p => length (surface p) = Z.to_nat (local_nrows cfg * columns cfg) /\
                   length (surfaceCopy p) = Z.to_nat (local_nrows cfg * columns cfg)) procs ->
  0 <= gx < rows cfg -> 0 <= j < columns cfg ->
  global_cell cfg (fst (substep cfg procs)) gx j =
  if interior cfg gx j then global_mean4 cfg (heat_phase cfg procs) gx j
  else global_cell cfg (heat_phase cfg procs) gx j.
Proof.
  intros Hrows Hchunk Hprocs Hlen Hgx Hj.
  apply substep_cell; try done; try lia.
  unfold interior, global_rows. intros E.
  repeat (apply andb_prop in E as [E ?]). lia.
Qed.

Lemma substep_is_global_stencil_witness :
  global_cell cfg_two_workers
    (fst (substep cfg_two_workers
            (init_procs cfg_two_workers teams_diagonal focal_center))) 2 2
  = if interior cfg_two_workers 2 2
    then global_mean4 cfg_two_workers
           (heat_phase cfg_two_workers
              (init_procs cfg_two_workers teams_diagonal focal_center)) 2 2
    else global_cell cfg_two_workers
           (heat_phase cfg_two_workers
              (init_procs cfg_two_workers teams_diagonal focal_center)) 2 2.
Proof.
  apply (substep_is_global_stencil cfg_two_workers).
  - reflexivity.
  - vm_compute. discriminate.
  - reflexivity.
  - repeat constructor.
  - simpl; lia.
  - simpl; lia.
Defined.

(** ** A run without focal points *)

Section Cold.
Variable cfg : Config.

Lemma all_zero_lookup_total (s : buffer) (n : nat) : all_zero s -> s !!! n = F32.zero.
Proof.
  intros H. rewrite list_lookup_total_alt.
  destruct (s !! n) as [x|] eqn:E; [|done].
  exact (Forall_lookup_1 _ _ _ _ H E).
Qed.

Lemma all_zero_access (s : buffer) i j : all_zero s -> accessMat cfg s i j = F32.zero.
Proof. apply all_zero_lookup_total. Qed.

Lemma all_zero_setMat (s : buffer) i j : all_zero s -> all_zero (setMat cfg s i j F32.zero).
Proof. intros H. by apply Forall_insert. Qed.

Lemma mean4_cold (copy : buffer) i j : all_zero copy -> mean4 cfg copy i j = F32.zero.
Proof. intros H. unfold mean4. by rewrite !all_zero_access. Qed.

Lemma stencil_cold rank (surf copy : buffer) :
  all_zero surf -> all_zero copy -> all_zero (stencil cfg rank surf copy).
Proof.
  intros Hs Hc. unfold stencil. apply (for_range_preserves all_zero); [done|].
  intros i s _ H. unfold stencil_row. destruct (skip_row _ _ _); [done|].
  apply (for_range_preserves all_zero); [done|].
  intros j s' _ H'. rewrite mean4_cold by done. by apply all_zero_setMat.
Qed.

Lemma copy_surface_cold (surf copy : buffer) :
  all_zero surf -> all_zero copy -> all_zero (copy_surface cfg surf copy).
Proof.
  intros Hs Hc. unfold copy_surface. apply (for_range_preserves all_zero); [done|].
  intros i s _ H. apply (for_range_preserves all_zero); [done|].
  intros j s' _ H'. rewrite all_zero_access by done. by apply all_zero_setMat.
Qed.

Lemma local_residual_cold rank (surf copy : buffer) :
  all_zero surf -> all_zero copy -> local_residual cfg rank surf copy = F32.zero.
Proof.
  intros Hs Hc. unfold local_residual.
  apply (for_range_preserves (fun r : float => r = F32.zero)); [done|].
  intros i r _ ->. unfold residual_row. destruct (skip_row _ _ _); [done|].
  apply (for_range_preserves (fun r : float => r = F32.zero)); [done|].
  intros j r _ ->. unfold cell_diff. by rewrite !all_zero_access.
Qed.

Lemma reduce_heat_cold rank t (surf : buffer) :
  all_zero surf -> all_zero (reduce_heat cfg rank t surf).
Proof.
  intros Hs. unfold reduce_heat. cbv zeta.
  apply (for_range_preserves all_zero); [done|].
  intros i s _ H. apply (for_range_preserves all_zero); [done|].
  intros j s' _ H'. unfold reduce_cell.
  destruct (_ || _); [done|]. destruct (F32.leb _ _); [|done].
  destruct (_ && _); [|done].
  rewrite all_zero_access by done. by apply all_zero_setMat.
Qed.

Lemma team_actions_cold rank ts (surf : buffer) :
  all_zero surf ->
  fst (team_actions cfg rank ts [] surf) = [] /\
  all_zero (snd (team_actions cfg rank ts [] surf)).
Proof.
  unfold team_actions. revert surf. induction ts as [|t ts IH]; intros surf Hs; [done|].
  simpl.
  assert (E : team_action cfg rank ([], surf) t = ([], reduce_heat cfg rank t surf)).
  { unfold team_action, deactivate_target. cbn [fst snd]. by destruct (_ =? -1). }
  rewrite E. apply IH. by apply reduce_heat_cold.
Qed.

Lemma recv_row_cold (s : buffer) i msg :
  all_zero s -> all_zero msg -> all_zero (recv_row cfg s i msg).
Proof. intros Hs Hm. unfold recv_row. apply Forall_inserts; [done|]. by apply Forall_take. Qed.

Lemma row_at_cold (s : buffer) i : all_zero s -> all_zero (row_at cfg s i).
Proof. intros Hs. unfold row_at. by apply Forall_take, Forall_drop. Qed.

Lemma exchange_top_cold rank msg (surfs : list buffer) :
  all_zero msg -> Forall all_zero surfs -> Forall all_zero (exchange_top cfg rank msg surfs).
Proof.
  revert rank msg. induction surfs as [|s rest IH]; intros rank msg Hm Hs; simpl; [done|].
  apply Forall_cons in Hs as [Hs Hrest].
  assert (H1 : all_zero (if rank >? 0 then recv_row cfg s 0 msg else s)).
  { destruct (rank >? 0); [by apply recv_row_cold|done]. }
  apply Forall_cons. split; [done|]. apply IH; [|done]. by apply row_at_cold.
Qed.

Lemma halo_exchange_cold (surfs : list buffer) :
  Forall all_zero surfs -> Forall all_zero (halo_exchange cfg surfs).
Proof.
  intros Hs. unfold halo_exchange, exchange_bottom.
  apply Forall_lookup. intros r s Hr. rewrite list_lookup_imap in Hr.
  apply fmap_Some in Hr as (s1 & H1 & ->).
  assert (Hs1 : all_zero s1).
  { apply (Forall_lookup_1 _ _ _ _ (exchange_top_cold 0 [] surfs (Forall_nil_2 _) Hs) H1). }
  destruct (_ <? _); [|done]. apply recv_row_cold; [done|]. apply row_at_cold.
  rewrite list_lookup_total_alt. destruct (surfs !! S r) as [b|] eqn:E; simpl.
  - exact (Forall_lookup_1 _ _ _ _ Hs E).
  - constructor.
Qed.

Lemma substep_cold ts flag procs :
  Forall (cold ts flag) procs ->
  Forall (cold ts flag) (fst (substep cfg procs)) /\ snd (substep cfg procs) = F32.zero.
Proof.
  intros HP.
  assert (Hheat : Forall (cold ts flag) (heat_phase cfg procs)).
  { apply Forall_lookup. intros r q Hq. unfold heat_phase in Hq.
    rewrite list_lookup_imap in Hq. apply fmap_Some in Hq as (p & Hp & ->).
    destruct (Forall_lookup_1 _ _ _ _ HP Hp) as (H1 & H2 & H3 & H4 & H5).
    unfold cold. cbn [surface surfaceCopy teams focal flag_stability set_surface].
    by rewrite H3. }
  assert (Hex : Forall (cold ts flag) (exchange_phase cfg (heat_phase cfg procs))).
  { apply Forall_lookup. intros r q Hq. unfold exchange_phase in Hq.
    apply lookup_zip_with_Some in Hq as (s & p & -> & Hs & Hp).
    destruct (Forall_lookup_1 _ _ _ _ Hheat Hp) as (H1 & H2 & H3 & H4 & H5).
    unfold cold. cbn [surface surfaceCopy teams focal flag_stability set_surface].
    split; [|done].
    refine (Forall_lookup_1 _ _ _ _ (halo_exchange_cold _ _) Hs).
    apply Forall_fmap. eapply Forall_impl; [exact Hheat|]. by intros p' (? & _). }
  assert (Hst : Forall (cold ts flag)
                  (stencil_phase cfg (exchange_phase cfg (heat_phase cfg procs)))).
  { apply Forall_lookup. intros r q Hq. unfold stencil_phase in Hq.
    rewrite list_lookup_imap in Hq. apply fmap_Some in Hq as (p & Hp & ->).
    destruct (Forall_lookup_1 _ _ _ _ Hex Hp) as (H1 & H2 & H3 & H4 & H5).
    unfold cold, stencil_proc. cbn [surface surfaceCopy teams focal flag_stability].
    assert (all_zero (copy_surface cfg (surface p) (surfaceCopy p)))
      by (by apply copy_surface_cold).
    split; [by apply stencil_cold|done]. }
  unfold substep. cbn [fst snd]. split; [done|].
  assert (Hres : Forall (fun x => x = F32.zero)
            (residuals cfg (stencil_phase cfg (exchange_phase cfg (heat_phase cfg procs))))).
  { apply Forall_lookup. intros r x Hx. unfold residuals in Hx.
    rewrite list_lookup_imap in Hx. apply fmap_Some in Hx as (p & Hp & ->).
    destruct (Forall_lookup_1 _ _ _ _ Hst Hp) as (H1 & H2 & _).
    by apply local_residual_cold. }
  destruct (allreduce_max_spec (residuals cfg
              (stencil_phase cfg (exchange_phase cfg (heat_phase cfg procs)))))
    as (_ & [E|Hin] & _).
  - by rewrite E.
  - exact (proj1 (Forall_forall _ _) Hres _ Hin).
Qed.

Lemma propagate_cold ts flag procs :
  Forall (cold ts flag) procs ->
  Forall (cold ts flag) (fst (propagate cfg procs)) /\ snd (propagate cfg procs) = F32.zero.
Proof.
  intros HP. unfold propagate.
  apply (for_range_preserves
           (fun st : list Proc * float =>
              Forall (cold ts flag) (fst st) /\ snd st = F32.zero)); [done|].
  intros k st _ [H _]. by apply substep_cold.
Qed.

Lemma activated_cold ts flag iter procs :
  Forall (cold ts flag) procs ->
  Forall (cold ts flag) (activated iter procs) /\ num_deactivated iter procs = 0.
Proof.
  intros HP.
  assert (Hone : forall p, cold ts flag p ->
            cold ts flag (fst (activate_proc iter p)) /\ snd (activate_proc iter p) = 0).
  { intros p (H1 & H2 & H3 & H4 & H5). unfold activate_proc. rewrite H3. simpl.
    by repeat split. }
  split.
  - unfold activated. rewrite map_map. apply Forall_fmap.
    eapply Forall_impl; [exact HP|]. intros p Hp. by apply Hone.
  - unfold num_deactivated. rewrite map_map.
    assert (Hs : forall (l : list Proc) (a : Z), Forall (cold ts flag) l ->
              fold_left Z.add (map (fun p => snd (activate_proc iter p)) l) a = a).
    { induction l as [|p l IH]; intros a Hl; simpl; [done|].
      apply Forall_cons in Hl as [Hp Hl]. rewrite (proj2 (Hone p Hp)).
      rewrite IH by done. lia. }
    by apply Hs.
Qed.

Lemma iteration_cold ts flag iter procs :
  Forall (cold ts flag) procs ->
  Forall (cold (map (set_target (-1)) ts)
               (stability_test 0 (num_focal cfg) F32.zero flag))
         (iteration cfg iter procs).
Proof.
  intros HP. destruct (activated_cold ts flag iter procs HP) as [Hact Hnd].
  destruct (propagate_cold ts flag _ Hact) as [Hp Hres].
  unfold iteration. cbv zeta. rewrite Hnd, Hres.
  apply Forall_lookup. intros r q Hq. rewrite list_lookup_imap in Hq.
  apply fmap_Some in Hq as (p & Hp' & ->).
  destruct (Forall_lookup_1 _ _ _ _ Hp Hp') as (H1 & H2 & H3 & H4 & H5).
  unfold finish_iteration. cbv zeta. rewrite H3, H4, H5.
  destruct (team_actions_cold (Z.of_nat r) (move_teams [] ts) (surface p) H1) as [F1 F2].
  unfold cold. cbn [surface surfaceCopy teams focal flag_stability].
  split; [done|]. split; [done|]. split; [done|]. split; [|done].
  unfold move_teams. apply map_ext. intros t. reflexivity.
Qed.

Lemma cold_init ts : Forall (cold ts false) (init_procs cfg ts []).
Proof.
  unfold init_procs. apply Forall_replicate.
  unfold cold, init_proc, init_buffer, all_zero.
  cbn [surface surfaceCopy teams focal flag_stability].
  repeat split; by apply Forall_replicate.
Qed.

(** With a count of focal points other than 0 the test never sets the flag
    of a cold run. *)
Lemma cold_run_goes_on ts (fuel : nat) :
  num_focal cfg <> 0 ->
  exists ts', (ts' = ts \/ ts' = map (set_target (-1)) ts) /\
    (1 <= fst (simulation_loop fuel cfg 0 (init_procs cfg ts [])) ->
     ts' = map (set_target (-1)) ts) /\
    Forall (cold ts' false) (snd (simulation_loop fuel cfg 0 (init_procs cfg ts []))).
Proof.
  intros Hnf.
  apply (simulation_loop_invariant
           (fun it ps => exists ts', (ts' = ts \/ ts' = map (set_target (-1)) ts) /\
              (1 <= it -> ts' = map (set_target (-1)) ts) /\
              Forall (cold ts' false) ps)).
  - intros it ps (ts' & Hts & Hit & HP) Hrun.
    exists (map (set_target (-1)) ts). split; [by right|]. split; [done|].
    pose proof (iteration_cold ts' false it ps HP) as H.
    replace (stability_test 0 (num_focal cfg) F32.zero false) with false in H.
    2:{ unfold stability_test. by rewrite (proj2 (Z.eqb_neq 0 (num_focal cfg))) by lia. }
    destruct Hts as [->| ->]; [done|].
    by rewrite map_map in H.
  - exists ts. split; [by left|]. split; [lia|]. apply cold_init.
Qed.

End Cold.

Lemma forallb_of_Forall {A} (f : A -> bool) (l : list A) :
  Forall (fun x => f x = true) l -> forallb f l = true.
Proof.
  induction l as [|a l IH]; intros H; [done|].
  apply Forall_cons in H as [Ha H]. simpl. by rewrite Ha, IH.
Qed.

(** The command line [4 4 50 0 -1] (no team, a count of focal points of -1)
    is accepted, whether or not the allocation for the focal points
    succeeds: no focal point is stored and the count stays -1. *)
Example negative_count_is_accepted (uninit : Z) (focal_alloc : bool) :
  parse_args uninit true focal_alloc [0; 4; 4; 50; 0; -1] = Parsed 4 4 50 0 [] (-1) [].
Proof. by destruct focal_alloc. Qed.

(** X21. A configuration that stores no focal point, with at least one
    worker and at least one iteration allowed.  When the count of focal
    points is 0 the loop runs exactly one iteration (the number of
    deactivated focal points, 0, equals the count and the residual of the
    cold surface is 0) and every worker ends with its stability flag set.
    When the count is negative, which the command-line reader accepts, the
    comparison with the count never holds: the loop runs [max_iter]
    iterations and no flag is set.  In both cases the surface is at 0.0
    everywhere and the teams are where they were, with target [-1]. *)
Theorem run_without_focal_points (cfg : Config) (ts : list Team) :
  0 < size cfg -> 1 <= max_iter cfg ->
  (num_focal cfg = 0 ->
     fst (simulate cfg ts []) = 1 /\
     Forall (fun p => flag_stability p = true /\ all_zero (surface p) /\
                      teams p = map (set_target (-1)) ts)
            (snd (simulate cfg ts []))) /\
  (num_focal cfg < 0 ->
     fst (simulate cfg ts []) = max_iter cfg /\
     Forall (fun p => flag_stability p = false /\ all_zero (surface p) /\
                      teams p = map (set_target (-1)) ts)
            (snd (simulate cfg ts []))).
Proof.
  intros Hsize Hmax. split.
  - intros Hnf. unfold simulate.
    destruct (Z.to_nat (max_iter cfg)) as [|fuel] eqn:Ef; [lia|].
    pose proof (cold_init cfg ts) as H0.
    pose proof (iteration_cold cfg ts false 0 _ H0) as H1.
    replace (stability_test 0 (num_focal cfg) F32.zero false) with true in H1
      by (by rewrite Hnf).
    assert (Hrun0 : running cfg 0 (init_procs cfg ts []) = true).
    { unfold running. apply andb_true_intro. split; [apply Z.ltb_lt; lia|].
      eapply forallb_of_Forall, Forall_impl; [exact H0|].
      intros p (_ & _ & _ & _ & Hf). by rewrite Hf. }
    assert (Hrun1 : running cfg (0 + 1) (iteration cfg 0 (init_procs cfg ts [])) = false).
    { unfold running. apply andb_false_iff. right.
      destruct (iteration cfg 0 (init_procs cfg ts [])) as [|p ps] eqn:E.
      - pose proof (iteration_length cfg 0 (init_procs cfg ts [])) as Hl.
        rewrite E in Hl. unfold init_procs in Hl. rewrite length_replicate in Hl.
        simpl in Hl. lia.
      - apply Forall_cons in H1 as [(_ & _ & _ & _ & Hf) _]. simpl. by rewrite Hf. }
    simpl. rewrite Hrun0.
    assert (Hstop : simulation_loop fuel cfg (0 + 1) (iteration cfg 0 (init_procs cfg ts []))
                    = (0 + 1, iteration cfg 0 (init_procs cfg ts []))).
    { destruct fuel; simpl; [done|]. by rewrite Hrun1. }
    rewrite Hstop. cbn [fst snd]. split; [done|].
    eapply Forall_impl; [exact H1|]. by intros p (? & _ & _ & ? & ?).
  - intros Hnf. unfold simulate.
    destruct (cold_run_goes_on cfg ts (Z.to_nat (max_iter cfg)) ltac:(lia))
      as (ts' & _ & Hts & Hcold).
    destruct (simulation_loop_progress cfg (Z.to_nat (max_iter cfg)) 0 (init_procs cfg ts []))
      as (Hb & Hle & Hend & Hlen).
    set (r := simulation_loop (Z.to_nat (max_iter cfg)) cfg 0 (init_procs cfg ts [])) in *.
    assert (Hiter : fst r = max_iter cfg).
    { destruct Hend as [Hend|Hend]; [|lia].
      unfold running in Hend. apply andb_false_iff in Hend as [Hend|Hend].
      - apply Z.ltb_ge in Hend. lia.
      - rewrite forallb_of_Forall in Hend; [done|].
        eapply Forall_impl; [exact Hcold|].
        intros p (_ & _ & _ & _ & Hf). by rewrite Hf. }
    split; [done|]. rewrite (Hts ltac:(lia)) in Hcold.
    eapply Forall_impl; [exact Hcold|]. by intros p (? & _ & _ & ? & ?).
Qed.

Lemma run_without_focal_points_witness :
  (0 < size (mkConfig 4 4 50 1 (-1)) /\ 1 <= max_iter (mkConfig 4 4 50 1 (-1))) /\
  fst (simulate (mkConfig 4 4 50 1 (-1)) [] []) = 50 /\
  fst (simulate (mkConfig 4 4 50 1 0) [] []) = 1.
Proof.
  assert (H1 : 0 < size (mkConfig 4 4 50 1 (-1))) by (simpl; lia).
  assert (H2 : 1 <= max_iter (mkConfig 4 4 50 1 (-1))) by (simpl; lia).
  split; [by split|]. split.
  - apply (proj2 (run_without_focal_points (mkConfig 4 4 50 1 (-1)) [] H1 H2)).
    simpl; lia.
  - apply (proj1 (run_without_focal_points (mkConfig 4 4 50 1 0) [] H1 H2)).
    reflexivity.
Defined.

(** X22. A focal point on a row that no worker owns (a row from
    [size * chunk] on, when the rows do not divide evenly): no worker ever
    writes its heat, and the temperature reported for it by rank 0 is the
    content of the gathered buffer as the allocation returned it. *)
Theorem unowned_focal_point (cfg : Config) (procs : list Proc) (fullSurface0 surf : buffer)
    (f : FocalPoint) :
  0 < size cfg -> 0 <= rows cfg -> 0 <= columns cfg ->
  length procs = Z.to_nat (size cfg) ->
  size cfg * chunk cfg <= focal_x f < rows cfg -> 0 <= focal_y f < columns cfg ->
  (forall rank, 0 <= rank < size cfg -> update_heat_one cfg rank surf f = surf) /\
  report cfg (final_surface cfg 0 procs fullSurface0) [f]
  = Some [accessMat cfg fullSurface0 (focal_x f) (focal_y f)].
Proof.
  intros Hsize Hrows Hcols Hprocs Hx Hy.
  destruct (chunk_bounds cfg Hsize Hrows) as [Hc _].
  assert (H0 : 0 <= focal_x f) by nia.
  split.
  - intros rank Hrank. unfold update_heat_one.
    destruct (negb _); [done|]. cbv zeta. destruct (_ || _); [done|].
    replace ((focal_x f >=? g_start cfg rank) && (focal_x f <=? g_end cfg rank))
      with false; [done|].
    symmetry. apply andb_false_iff. right. apply Z.leb_gt.
    unfold g_end, g_start. nia.
  - unfold final_surface. simpl.
    replace (out_of_surface cfg f) with false.
    2:{ symmetry. unfold out_of_surface. repeat rewrite orb_false_iff. lia. }
    f_equal. f_equal. apply gather_remainder; try done; lia.
Qed.

Lemma unowned_focal_point_witness :
  report (mkConfig 5 5 50 2 1)
    (final_surface (mkConfig 5 5 50 2 1) 0
       (init_procs (mkConfig 5 5 50 2 1) teams_diagonal [mkFocal 4 2 0 100 0])
       (replicate 25 (F32.of_int 9))) [mkFocal 4 2 0 100 0]
  = Some [accessMat (mkConfig 5 5 50 2 1) (replicate 25 (F32.of_int 9)) 4 2].
Proof.
  refine (proj2 (unowned_focal_point (mkConfig 5 5 50 2 1)
            (init_procs (mkConfig 5 5 50 2 1) teams_diagonal [mkFocal 4 2 0 100 0])
            (replicate 25 (F32.of_int 9)) [] (mkFocal 4 2 0 100 0) _ _ _ _ _ _)).
  - simpl; lia.
  - simpl; lia.
  - simpl; lia.
  - reflexivity.
  - vm_compute. split; [discriminate|reflexivity].
  - simpl; lia.
Defined.
